(** * puppeteer-stream: the readiness gate and the streaming bridge

    A shallow embedding of [src/PuppeteerStream.ts]: session creation
    ([getStream]), the readiness gate ([assertExtensionLoaded]) and the
    TCP-to-Readable bridge ([PuppeteerReadableStream]).

    Conventions.  A JavaScript [number] is modelled as an integer [Z]: the
    indices, ports and tick counts the code computes with are integers far
    below 2^53, where double arithmetic is exact.  Two computations can
    leave that range, [Math.pow] on the retry delay and the printing of a
    viewport size; [exact_powers] and [printed_in_full] state the bounds
    within which they are exact.  An optional property is an [option],
    [None] standing for a property that is absent or [undefined].  The code
    treats the two alike everywhere but at line 157, where [Object.assign]
    copies a property that is present and [undefined] over the default;
    [retry_given] states that [opts.retry] is left out or gives both
    numbers, so that the difference does not arise.  An [async] function is
    cut at its [await]s: each synchronous segment is a function, promises
    settled by the outside world (the browser, the extension) are answers
    supplied by an environment. *)

From Stdlib Require Import ZArith Lia DecimalString.
From stdpp Require Import base option list gmap strings.

Local Open Scope string_scope.
Local Open Scope Z_scope.
Local Open Scope list_scope.

(** ** JavaScript values, as far as the file uses them *)

(** A thrown [Error]; only its message is observed. *)
Record Error := JsError { message : string }.

(** The outcome of an awaited promise, or of a segment that may throw. *)
Definition Result (A : Type) : Type := Error + A.

Module Js.

(** [!x] is false on a number exactly when it is defined and non-zero. *)
Definition truthy_number (x : option Z) : bool :=
  match x with
  | Some n => negb (n =? 0)
  | None => false
  end.

(** [x || d] on an optional number. *)
Definition or_else (x : option Z) (d : Z) : Z :=
  match x with
  | Some n => if n =? 0 then d else n
  | None => d
  end.

(** [x ?? d]. *)
Definition nullish {A : Type} (x : option A) (d : A) : A :=
  match x with
  | Some a => a
  | None => d
  end.

(** [o?.f] on an optional object [o] with an optional property [f]. *)
Definition chain {A B : Type} (o : option A) (f : A -> option B) : option B :=
  match o with
  | Some a => f a
  | None => None
  end.

(** [Math.pow(b, k)] for an integer base and a tick count.  The double
    [Math.pow] returns is this integer as long as it is at most 2^53 in
    absolute value; beyond, the double is the power rounded. *)
Definition pow (b : Z) (k : nat) : Z := b ^ Z.of_nat k.

End Js.

(** ** The options of [getStream] (interface [getStreamOptions]) *)

Inductive BrowserMimeType :=
| video_webm
| video_webm_vp8
| video_webm_vp9
| video_webm_vp8_0
| video_webm_vp9_0
| video_webm_vp8_opus
| video_webm_vp8_pcm
| video_WEBM_VP8_OPUS
| video_webm_vp9_opus
| video_webm_vp8_vp9_opus
| audio_webm
| audio_webm_opus
| audio_webm_pcm.

(** [MediaTrackConstraints] is a DOM type the file only passes along. *)
Inductive MediaTrackConstraints := MediaTrack (json : string).

Record Constraints := {
  mandatory : option MediaTrackConstraints;
  optional : option MediaTrackConstraints
}.

Record RetryOptions := {
  retry_each : option Z;
  retry_times : option Z
}.

Record TransmissionOptions := {
  basePort : option Z
}.

Record StreamConfigOptions := {
  highWaterMarkMB : option Z;
  immediateResume : option bool
}.

Record getStreamOptions := {
  audio : bool;
  video : bool;
  videoConstraints : option Constraints;
  audioConstraints : option Constraints;
  mimeType : option BrowserMimeType;
  audioBitsPerSecond : option Z;
  videoBitsPerSecond : option Z;
  bitsPerSecond : option Z;
  frameSize : option Z;
  delay : option Z;
  retry : option RetryOptions;
  transmission : option TransmissionOptions;
  streamConfig : option StreamConfigOptions
}.

(** [opts.mimeType = m] and [opts.frameSize = n]: assignments to one
    property of the object, every other property kept. *)
Definition set_mimeType (m : BrowserMimeType) (o : getStreamOptions) : getStreamOptions :=
  {| audio := audio o; video := video o;
     videoConstraints := videoConstraints o;
     audioConstraints := audioConstraints o;
     mimeType := Some m;
     audioBitsPerSecond := audioBitsPerSecond o;
     videoBitsPerSecond := videoBitsPerSecond o;
     bitsPerSecond := bitsPerSecond o;
     frameSize := frameSize o;
     delay := delay o;
     retry := retry o;
     transmission := transmission o;
     streamConfig := streamConfig o |}.

Definition set_frameSize (n : Z) (o : getStreamOptions) : getStreamOptions :=
  {| audio := audio o; video := video o;
     videoConstraints := videoConstraints o;
     audioConstraints := audioConstraints o;
     mimeType := mimeType o;
     audioBitsPerSecond := audioBitsPerSecond o;
     videoBitsPerSecond := videoBitsPerSecond o;
     bitsPerSecond := bitsPerSecond o;
     frameSize := Some n;
     delay := delay o;
     retry := retry o;
     transmission := transmission o;
     streamConfig := streamConfig o |}.

(** The object [{ each, times }] that [Object.assign] builds at line 157. *)
Record RetryPolicy := {
  each : Z;
  times : Z
}.

(** ** What the code does to the outside world *)

Inductive Effect :=
| EProbe                                        (* evaluate(() => typeof START_RECORDING === "function") *)
| EWait (ms : Z)                                (* setTimeout(res, ms) *)
| EBringToFront                                 (* page.bringToFront() *)
| EStart (settings : getStreamOptions) (index : Z)  (* START_RECORDING({ ...opts, index }) *)
| EStop (index : Z).                            (* STOP_RECORDING(index) *)

Definition is_probe (e : Effect) : bool :=
  match e with EProbe => true | _ => false end.

Definition is_start (e : Effect) : bool :=
  match e with EStart _ _ => true | _ => false end.

Definition is_stop (e : Effect) : bool :=
  match e with EStop _ => true | _ => false end.

(** The delays of a trace, in order. *)
Fixpoint waits (tr : list Effect) : list Z :=
  match tr with
  | [] => []
  | EWait ms :: tr' => ms :: waits tr'
  | _ :: tr' => waits tr'
  end.

Fixpoint count (p : Effect -> bool) (tr : list Effect) : nat :=
  match tr with
  | [] => O
  | e :: tr' => ((if p e then 1 else 0) + count p tr')%nat
  end.

(** ** The readiness gate (lines 188-196) *)

Module Gate.

Definition readiness_error : Error :=
  JsError "Could not find START_RECORDING function in the browser context".

(** The answer of the extension page to the [k]-th probe of one call:
    the evaluate promise rejects, or resolves to a boolean. *)
Definition Probe : Type := nat -> Result bool.

(** The [for] loop.  [currentTick] counts up from 0 and the loop runs
    while [currentTick < opt.times]; [remaining] is the number of
    iterations still allowed by that test. *)
Fixpoint loop (probe : Probe) (each : Z) (remaining : nat) (currentTick : nat)
  : Result unit * list Effect :=
  match remaining with
  | O => (inl readiness_error, [])
  | S remaining' =>
      match probe currentTick with
      | inl e => (inl e, [EProbe])
      | inr true => (inr tt, [EProbe])
      | inr false =>
          let '(r, tr) := loop probe each remaining' (S currentTick) in
          (r, EProbe :: EWait (Js.pow each currentTick) :: tr)
      end
  end.

Definition assertExtensionLoaded (ext : Probe) (opt : RetryPolicy)
  : Result unit * list Effect :=
  loop ext (each opt) (Z.to_nat (times opt)) 0.

End Gate.

(** ** Node's [stream.Readable], as far as the bridge uses it

    The base class of the bridge.  [output] is the sequence of chunks the
    stream has taken in through [push], in order: the output sequence of the
    session.  What Node hands on to a consumer of the stream is told by
    [Consumer] below.  A destroyed stream takes nothing in any more, and
    [push] of an empty chunk adds nothing.  The constructor throws on a
    negative high-water mark; [create] is meant for the others. *)

Definition Buffer : Type := list Byte.byte.

Module Readable.

Record t := {
  highWaterMark : Z;
  flowing : bool;
  destroyed : bool;
  output : list Buffer
}.

(** [super({ highWaterMark })] *)
Definition create (hwm : Z) : t :=
  {| highWaterMark := hwm; flowing := false; destroyed := false; output := [] |}.

(** [this.push(data)] *)
Definition push (data : Buffer) (r : t) : t :=
  if destroyed r then r
  else match data with
       | [] => r
       | _ :: _ =>
           {| highWaterMark := highWaterMark r; flowing := flowing r;
              destroyed := false; output := output r ++ [data] |}
       end.

(** [this.resume()] *)
Definition resume (r : t) : t :=
  {| highWaterMark := highWaterMark r; flowing := true;
     destroyed := destroyed r; output := output r |}.

(** [super.destroy()] *)
Definition destroy (r : t) : t :=
  {| highWaterMark := highWaterMark r; flowing := flowing r;
     destroyed := true; output := output r |}.

(** All bytes of the output, chunk boundaries forgotten. *)
Definition bytes (r : t) : Buffer := concat (output r).

End Readable.

(** ** Node's [net] module on the loopback interface

    A set of ports held by listeners stands for the operating system.
    [listen] throws on a port outside 0..65535; on a port that is taken the
    server does not come up: Node reports EADDRINUSE through an 'error'
    event, which the bridge does not listen for, and which, unhandled, ends
    the Node process.  The model records the server that is not up and does
    not follow the process to its end.  Otherwise the port is bound (port 0, for which the system would pick a free port, is
    treated like any other).  The bind takes effect before the synchronous
    segment that called [listen] gives way to anything else.  [end] on an
    ended socket and [close] on a server that is not running do nothing. *)

Module Net.

Record Server := { listening : bool }.

Record Socket := { ended : bool }.

Definition bad_port : Error := JsError "ERR_SOCKET_BAD_PORT".

(** [server.listen(port, "127.0.0.1", () => {})] *)
Definition listen (port : Z) (ports : gset Z) : Result (Server * gset Z) :=
  if (0 <=? port) && (port <? 65536) then
    if bool_decide (port ∈ ports)
    then inr ({| listening := false |}, ports)
    else inr ({| listening := true |}, {[port]} ∪ ports)
  else inl bad_port.

(** [server.close()]: no further connection is accepted and the port is
    given back, when the server held it. *)
Definition close (port : Z) (srv : Server) (ports : gset Z) : Server * gset Z :=
  if listening srv then ({| listening := false |}, ports ∖ {[port]})
  else (srv, ports).

(** [socket.end()]: half-close; the peer may still send. *)
Definition end_ (s : Socket) : Socket := {| ended := true |}.

End Net.

(** ** The bridge: class [PuppeteerReadableStream] (lines 198-233) *)

Module Bridge.

(** [onDestroy] is a closure; the one [getStream] builds stops the
    recording of a session index, and that index stands for it. *)
Record IPuppeteerStreamOpts := {
  onDestroy : option Z;
  highWaterMarkMB : Z;
  immediateResume : bool;
  port : Z
}.

Record PuppeteerReadableStream := {
  opts : IPuppeteerStreamOpts;
  tcpSockets : list Net.Socket;
  tcpServer : Net.Server;
  readable : Readable.t
}.

(** The constructor (lines 203-220), for a high-water mark that is not
    negative; on a negative one [super] throws before anything else is
    done. *)
Definition new (o : IPuppeteerStreamOpts) (ports : gset Z)
  : Result (PuppeteerReadableStream * gset Z) :=
  let super := Readable.create (1024 * 1024 * highWaterMarkMB o) in
  match Net.listen (port o) ports with
  | inl e => inl e
  | inr (srv, ports') =>
      inr ({| opts := o;
              tcpSockets := [];
              tcpServer := srv;
              readable := if immediateResume o then Readable.resume super else super |},
           ports')
  end.

(** The connection callback (lines 209-215): [this.tcpSockets.push(socket)];
    the socket's 'data' handler is installed with it. *)
Definition on_connection (socket : Net.Socket) (s : PuppeteerReadableStream)
  : PuppeteerReadableStream :=
  {| opts := opts s;
     tcpSockets := tcpSockets s ++ [socket];
     tcpServer := tcpServer s;
     readable := readable s |}.

(** The 'data' handler (lines 212-214): [this.push(data)]. *)
Definition on_data (data : Buffer) (s : PuppeteerReadableStream)
  : PuppeteerReadableStream :=
  {| opts := opts s;
     tcpSockets := tcpSockets s;
     tcpServer := tcpServer s;
     readable := Readable.push data (readable s) |}.

(** [destroy] up to its [await] (line 226): the callback, when there is
    one, is called. *)
Definition destroy_call (s : PuppeteerReadableStream) : list Effect :=
  match onDestroy (opts s) with
  | Some index => [EStop index]
  | None => []
  end.

(** Lines 228-232, run when the awaited promise has resolved. *)
Definition teardown (s : PuppeteerReadableStream) (ports : gset Z)
  : PuppeteerReadableStream * gset Z :=
  let sockets := map Net.end_ (tcpSockets s) in
  let '(srv, ports') := Net.close (port (opts s)) (tcpServer s) ports in
  ({| opts := opts s;
      tcpSockets := sockets;
      tcpServer := srv;
      readable := Readable.destroy (readable s) |},
   ports').

(** [destroy] from its [await] on.  [settled] is how the callback's
    promise settled; without a callback [await undefined] goes on.  A
    rejection is thrown at the [await] and leaves [destroy] there. *)
Definition destroy_resume (settled : Result unit)
    (s : PuppeteerReadableStream) (ports : gset Z)
  : Result unit * PuppeteerReadableStream * gset Z :=
  match onDestroy (opts s), settled with
  | Some _, inl e => (inl e, s, ports)
  | _, _ => let '(s', ports') := teardown s ports in (inr tt, s', ports')
  end.

(** *** The bridge in its event loop

    One bridge, the ports of the machine, the destroy calls suspended at
    their [await], the effects on the control channel so far and the
    errors destroy calls were rejected with. *)
Record State := {
  this : PuppeteerReadableStream;
  ports : gset Z;
  awaiting : nat;
  effects : list Effect;
  rejections : list Error
}.

Inductive Event :=
| Connection                           (* a peer connects to the port *)
| Data (socket : nat) (data : Buffer)  (* bytes arrive on the socket accepted as number [socket] *)
| Destroy                              (* somebody calls [destroy()] *)
| Settled (r : Result unit).           (* a promise a destroy call awaits settles *)

Definition handle (ev : Event) (st : State) : State :=
  match ev with
  | Connection =>
      if Net.listening (tcpServer (this st)) then
        {| this := on_connection {| Net.ended := false |} (this st);
           ports := ports st; awaiting := awaiting st;
           effects := effects st; rejections := rejections st |}
      else st
  | Data socket data =>
      match tcpSockets (this st) !! socket with
      | Some _ =>
          {| this := on_data data (this st);
             ports := ports st; awaiting := awaiting st;
             effects := effects st; rejections := rejections st |}
      | None => st
      end
  | Destroy =>
      {| this := this st; ports := ports st;
         awaiting := S (awaiting st);
         effects := effects st ++ destroy_call (this st);
         rejections := rejections st |}
  | Settled r =>
      match awaiting st with
      | O => st
      | S n =>
          let '(res, s', ports') := destroy_resume r (this st) (ports st) in
          {| this := s'; ports := ports'; awaiting := n;
             effects := effects st;
             rejections := match res with
                           | inl e => rejections st ++ [e]
                           | inr _ => rejections st
                           end |}
      end
  end.

Definition run (evs : list Event) (st : State) : State :=
  fold_left (fun st ev => handle ev st) evs st.

(** A bridge right after [new]. *)
Definition start (s : PuppeteerReadableStream) (ports : gset Z) : State :=
  {| this := s; ports := ports; awaiting := O; effects := []; rejections := [] |}.

(** The chunks that arrive, in order, on sockets the bridge has accepted,
    along a list of events: [l] tells whether the listener is up and [n]
    how many sockets have been accepted so far. *)
Fixpoint received (l : bool) (n : nat) (evs : list Event) : list Buffer :=
  match evs with
  | [] => []
  | Connection :: evs' => received l (if l then S n else n) evs'
  | Data socket data :: evs' =>
      if (socket <? n)%nat then data :: received l n evs'
      else received l n evs'
  | _ :: evs' => received l n evs'
  end.

(** The state CLOSED of the bridge: torn down. *)
Definition closed (s : PuppeteerReadableStream) : bool :=
  negb (Net.listening (tcpServer s)) && Readable.destroyed (readable s)
  && forallb Net.ended (tcpSockets s).

Definition bytes (st : State) : Buffer := Readable.bytes (readable (this st)).

(** The bridge [getStream] builds for the first session of a process with
    default options, on a machine whose ports are all free. *)
Definition first_opts : IPuppeteerStreamOpts :=
  {| onDestroy := Some 0; highWaterMarkMB := 8; immediateResume := true;
     port := 55200 |}.

Definition first_bridge : State :=
  start {| opts := first_opts;
           tcpSockets := [];
           tcpServer := {| Net.listening := true |};
           readable := Readable.resume (Readable.create (1024 * 1024 * 8)) |}
        {[55200]}.

End Bridge.

(** ** The consumer of the stream

    What Node's Readable hands on to its consumer, for a consumer that
    listens with [on("data", f)] (or [pipe], which does so).  A stream that
    is flowing (after [resume()], which the constructor calls at line 219
    unless [immediateResume] is false) emits every chunk [push] takes in as
    a 'data' event at once: a listener that is attached is called with it,
    and when nobody listens the chunk is gone.  A stream that is not flowing
    keeps its chunks in its buffer, however many: above the high-water mark
    [push] returns false, which the bridge does not look at.  Attaching the
    listener sets the stream flowing and hands it the buffered chunks, in
    order.  A destroyed stream emits no 'data' any more. *)

Module Consumer.

Record State := {
  bridge : Bridge.State;
  attached : bool;           (* a 'data' listener is attached *)
  buffered : list Buffer;    (* chunks waiting in the buffer of the stream *)
  delivered : list Buffer;   (* chunks the listener has been called with *)
  discarded : list Buffer    (* chunks emitted while nobody listened *)
}.

Inductive Event :=
| Of (ev : Bridge.Event)     (* an event of the bridge *)
| Attach.                    (* the consumer calls [on("data", f)] *)

(** The chunks [push] has taken in between two states of the bridge. *)
Definition pushed (st st' : Bridge.State) : list Buffer :=
  drop (length (Readable.output (Bridge.readable (Bridge.this st))))
       (Readable.output (Bridge.readable (Bridge.this st'))).

(** [this.resume()], as [on("data", f)] calls it. *)
Definition resume (st : Bridge.State) : Bridge.State :=
  {| Bridge.this :=
       {| Bridge.opts := Bridge.opts (Bridge.this st);
          Bridge.tcpSockets := Bridge.tcpSockets (Bridge.this st);
          Bridge.tcpServer := Bridge.tcpServer (Bridge.this st);
          Bridge.readable := Readable.resume (Bridge.readable (Bridge.this st)) |};
     Bridge.ports := Bridge.ports st;
     Bridge.awaiting := Bridge.awaiting st;
     Bridge.effects := Bridge.effects st;
     Bridge.rejections := Bridge.rejections st |}.

Definition handle (ev : Event) (c : State) : State :=
  match ev with
  | Of ev =>
      let st' := Bridge.handle ev (bridge c) in
      let chunks := pushed (bridge c) st' in
      if attached c then
        {| bridge := st'; attached := true; buffered := buffered c;
           delivered := delivered c ++ chunks; discarded := discarded c |}
      else if Readable.flowing (Bridge.readable (Bridge.this (bridge c))) then
        {| bridge := st'; attached := false; buffered := buffered c;
           delivered := delivered c; discarded := discarded c ++ chunks |}
      else
        {| bridge := st'; attached := false; buffered := buffered c ++ chunks;
           delivered := delivered c; discarded := discarded c |}
  | Attach =>
      if Readable.destroyed (Bridge.readable (Bridge.this (bridge c))) then
        {| bridge := resume (bridge c); attached := true;
           buffered := buffered c; delivered := delivered c;
           discarded := discarded c |}
      else
        {| bridge := resume (bridge c); attached := true;
           buffered := []; delivered := delivered c ++ buffered c;
           discarded := discarded c |}
  end.

Definition run (evs : list Event) (c : State) : State :=
  fold_left (fun c ev => handle ev c) evs c.

(** The events of the bridge among those of a run. *)
Fixpoint events (evs : list Event) : list Bridge.Event :=
  match evs with
  | [] => []
  | Of ev :: evs' => ev :: events evs'
  | Attach :: evs' => events evs'
  end.

(** A stream nobody listens to yet, as [getStream] returns it. *)
Definition start (st : Bridge.State) : State :=
  {| bridge := st; attached := false; buffered := []; delivered := [];
     discarded := [] |}.

(** The bytes the consumer has seen. *)
Definition seen (c : State) : Buffer := concat (delivered c).

(** Whatever the stream emits is heard: a listener is attached and has been
    handed the buffer, or the stream is not flowing. *)
Definition heard (c : State) : Prop :=
  (attached c = true /\ buffered c = []) \/
  (attached c = false /\
   Readable.flowing (Bridge.readable (Bridge.this (bridge c))) = false).

End Consumer.

(** ** Session creation: [getStream] (lines 138-186)

    The process: the module-level counter [currentIndex], the option
    objects callers hold (by reference, so that a write through one
    reference is seen through every other), the streams constructed so far,
    the ports held on the loopback interface and the effects on the control
    channel. *)

Module Session.

Record World := {
  currentIndex : Z;
  heap : gmap nat getStreamOptions;
  streams : list Bridge.PuppeteerReadableStream;
  ports : gset Z;
  trace : list Effect
}.

(** A process that has just loaded the module. *)
Definition boot (h : gmap nat getStreamOptions) : World :=
  {| currentIndex := 0; heap := h; streams := []; ports := ∅; trace := [] |}.

(** *** Code that throws and changes the process *)

Definition M (A : Type) : Type := World -> Result A * World.

Definition ret {A : Type} (a : A) : M A := fun w => (inr a, w).

Definition throw {A : Type} (e : Error) : M A := fun w => (inl e, w).

Definition bind {A B : Type} (m : M A) (k : A -> M B) : M B :=
  fun w =>
    match m w with
    | (inl e, w') => (inl e, w')
    | (inr a, w') => k a w'
    end.

(** [await p] for a promise the outside world has settled as [p]. *)
Definition await {A : Type} (p : Result A) : M A := fun w => (p, w).

Definition emit (tr : list Effect) : M unit :=
  fun w =>
    (inr tt,
     {| currentIndex := currentIndex w; heap := heap w; streams := streams w;
        ports := ports w; trace := trace w ++ tr |}).

Notation "'do' x <- m ; k" := (bind m (fun x => k))
  (at level 10, x name, m at level 100, k at level 200).

Definition type_error : Error :=
  JsError "TypeError: Cannot read properties of undefined".

(** Reading through the reference [opts]. *)
Definition deref (opts : nat) : M getStreamOptions :=
  fun w =>
    match heap w !! opts with
    | Some o => (inr o, w)
    | None => (inl type_error, w)
    end.

(** Writing through the reference [opts]. *)
Definition assign (opts : nat) (o : getStreamOptions) : M unit :=
  fun w =>
    (inr tt,
     {| currentIndex := currentIndex w; heap := <[opts := o]> (heap w);
        streams := streams w; ports := ports w; trace := trace w |}).

(** *** What the browser answers to one call of [getStream] *)

Record Env := {
  waitForTarget : Result bool;   (* a target, or a falsy value *)
  targetPage : Result bool;      (* its page, or a falsy value *)
  bringToFront : Result unit;
  probe : Gate.Probe;
  startRecording : Result unit
}.

(** Lines 138-148. *)
Definition getExtensionPage (env : Env) : M unit :=
  do extensionTarget <- await (waitForTarget env) ;
  if negb extensionTarget then throw (JsError "cannot load extension")
  else
    do videoCaptureExtension <- await (targetPage env) ;
    if negb videoCaptureExtension
    then throw (JsError "cannot get page of extension")
    else ret tt.

Definition config_error : Error :=
  JsError "At least audio or video must be true".

(** Lines 152-155. *)
Definition default_mimeType (o : getStreamOptions) : getStreamOptions :=
  match mimeType o with
  | Some _ => o
  | None =>
      if video o then set_mimeType video_webm o
      else if audio o then set_mimeType audio_webm o
      else o
  end.

(** Line 156. *)
Definition default_frameSize (o : getStreamOptions) : getStreamOptions :=
  if Js.truthy_number (frameSize o) then o else set_frameSize 20 o.

(** Line 157: [Object.assign({}, { each: 20, times: 3 }, opts.retry)], for
    an [opts.retry] whose properties are numbers or absent.  (A property
    that is present and [undefined] is copied over the default; see
    [retry_given].) *)
Definition retryPolicy (o : getStreamOptions) : RetryPolicy :=
  {| each := Js.nullish (Js.chain (retry o) retry_each) 20;
     times := Js.nullish (Js.chain (retry o) retry_times) 3 |}.

(** Lines 151-157, the segment before the first [await]. *)
Definition prologue (opts : nat) : M RetryPolicy :=
  do o <- deref opts ;
  if negb (audio o) && negb (video o) then throw config_error
  else
    do _ <- assign opts (default_frameSize (default_mimeType o)) ;
    ret (retryPolicy (default_frameSize (default_mimeType o))).

(** What a session is given at lines 161-174. *)
Record Allocation := {
  base : Z;       (* [basePort] *)
  index : Z;
  port : Z;
  stream : nat    (* the stream, as its position in [streams] *)
}.

Definition basePort_of (o : getStreamOptions) : Z :=
  Js.or_else (Js.chain (transmission o) basePort) 55200.

(** [const index = currentIndex++] *)
Definition next_index : M Z :=
  fun w =>
    (inr (currentIndex w),
     {| currentIndex := currentIndex w + 1; heap := heap w;
        streams := streams w; ports := ports w; trace := trace w |}).

(** [new PuppeteerReadableStream(o)] in the process. *)
Definition construct (o : Bridge.IPuppeteerStreamOpts) : M nat :=
  fun w =>
    match Bridge.new o (ports w) with
    | inl e => (inl e, w)
    | inr (s, ps) =>
        (inr (length (streams w)),
         {| currentIndex := currentIndex w; heap := heap w;
            streams := streams w ++ [s]; ports := ps; trace := trace w |})
    end.

(** Lines 161-174, which no [await] interrupts. *)
Definition allocate (opts : nat) : M Allocation :=
  do o <- deref opts ;
  let basePort := basePort_of o in
  let highWaterMarkMB := Js.or_else (Js.chain (streamConfig o) highWaterMarkMB) 8 in
  let immediateResume := Js.nullish (Js.chain (streamConfig o) immediateResume) true in
  do index <- next_index ;
  let port := basePort + index in
  do stream <- construct {| Bridge.onDestroy := Some index;
                            Bridge.highWaterMarkMB := highWaterMarkMB;
                            Bridge.immediateResume := immediateResume;
                            Bridge.port := port |} ;
  ret {| base := basePort; index := index; port := port; stream := stream |}.

(** Line 177. *)
Definition gate (env : Env) (retryPolicy : RetryPolicy) : M unit :=
  do _ <- emit (Gate.assertExtensionLoaded (probe env) retryPolicy).2 ;
  await (Gate.assertExtensionLoaded (probe env) retryPolicy).1.

(** Lines 179-183: [START_RECORDING({ ...opts, index })]. *)
Definition start (env : Env) (opts : nat) (index : Z) : M unit :=
  do o <- deref opts ;
  do _ <- emit [EStart o index] ;
  await (startRecording env).

Definition getStream (env : Env) (opts : nat) : M nat :=
  do retryPolicy <- prologue opts ;
  do _ <- getExtensionPage env ;
  do a <- allocate opts ;
  do _ <- emit [EBringToFront] ;
  do _ <- await (bringToFront env) ;
  do _ <- gate env retryPolicy ;
  do _ <- start env opts (index a) ;
  ret (stream a).

(** *** Calls that overlap

    Between two [await]s a call runs alone.  Calls of [getStream] that
    overlap are therefore a sequence of such segments, those of one call
    in their order, those of different calls interleaved in any way.
    [currentIndex] is private to the module, so whatever else runs in the
    process in between (callers writing their options objects, effects on
    the control channel) leaves it alone. *)
Inductive Segment :=
| SPrologue (opts : nat)                      (* lines 151-159 *)
| SAllocate (opts : nat)                      (* lines 161-174 *)
| SControl (tr : list Effect)                 (* lines 176-177: bringToFront, probes, waits *)
| SStart (env : Env) (opts : nat) (index : Z) (* lines 179-183 *)
| SCaller (opts : nat) (o : getStreamOptions).

(** One segment: what it allocates, if anything, and the process after. *)
Definition segment (sg : Segment) (w : World) : option Allocation * World :=
  match sg with
  | SPrologue opts => (None, (prologue opts w).2)
  | SAllocate opts =>
      match allocate opts w with
      | (inr a, w') => (Some a, w')
      | (inl _, w') => (None, w')
      end
  | SControl tr => (None, (emit tr w).2)
  | SStart env opts index => (None, (start env opts index w).2)
  | SCaller opts o => (None, (assign opts o w).2)
  end.

(** A schedule: the allocations it makes, in order, and the process after. *)
Fixpoint schedule (sgs : list Segment) (w : World) : list Allocation * World :=
  match sgs with
  | [] => ([], w)
  | sg :: sgs' =>
      let '(a, w') := segment sg w in
      let '(l, w'') := schedule sgs' w' in
      (match a with Some x => x :: l | None => l end, w'')
  end.

(** The segments one call of [getStream] goes through. *)
Definition call_segments (env : Env) (opts : nat) (w : World) : list Segment :=
  SPrologue opts ::
  match prologue opts w with
  | (inl _, _) => []
  | (inr retryPolicy, w1) =>
      match getExtensionPage env w1 with
      | (inl _, _) => []
      | (inr _, w2) =>
          SAllocate opts ::
          match allocate opts w2 with
          | (inl _, _) => []
          | (inr a, _) =>
              SControl [EBringToFront] ::
              match bringToFront env with
              | inl _ => []
              | inr _ =>
                  SControl (Gate.assertExtensionLoaded (probe env) retryPolicy).2 ::
                  match (Gate.assertExtensionLoaded (probe env) retryPolicy).1 with
                  | inl _ => []
                  | inr _ => [SStart env opts (index a)]
                  end
              end
          end
      end
  end.

(** *** Sample inputs *)

Definition video_only : getStreamOptions :=
  {| audio := false; video := true;
     videoConstraints := None; audioConstraints := None;
     mimeType := None;
     audioBitsPerSecond := None; videoBitsPerSecond := None;
     bitsPerSecond := None; frameSize := None; delay := None;
     retry := None; transmission := None; streamConfig := None |}.

Definition video_from (p : Z) : getStreamOptions :=
  {| audio := false; video := true;
     videoConstraints := None; audioConstraints := None;
     mimeType := None;
     audioBitsPerSecond := None; videoBitsPerSecond := None;
     bitsPerSecond := None; frameSize := None; delay := None;
     retry := None; transmission := Some {| basePort := Some p |};
     streamConfig := None |}.

Definition nothing_requested : getStreamOptions :=
  {| audio := false; video := false;
     videoConstraints := None; audioConstraints := None;
     mimeType := None;
     audioBitsPerSecond := None; videoBitsPerSecond := None;
     bitsPerSecond := None; frameSize := None; delay := None;
     retry := None; transmission := None; streamConfig := None |}.

(** A browser whose extension is up. *)
Definition ready : Env :=
  {| waitForTarget := inr true; targetPage := inr true;
     bringToFront := inr tt; probe := fun _ => inr true;
     startRecording := inr tt |}.

(** A browser whose extension page never defines START_RECORDING. *)
Definition never_ready : Env :=
  {| waitForTarget := inr true; targetPage := inr true;
     bringToFront := inr tt; probe := fun _ => inr false;
     startRecording := inr tt |}.

(** Video only, with a retry budget of no attempt at all:
    [retry: { each: 20, times: 0 }]. *)
Definition impatient : getStreamOptions :=
  {| audio := false; video := true;
     videoConstraints := None; audioConstraints := None;
     mimeType := None;
     audioBitsPerSecond := None; videoBitsPerSecond := None;
     bitsPerSecond := None; frameSize := None; delay := None;
     retry := Some {| retry_each := Some 20; retry_times := Some 0 |};
     transmission := None; streamConfig := None |}.

(** Two callers, each holding its own options object. *)
Definition two_callers (o0 o1 : getStreamOptions) : World :=
  boot (<[ 0%nat := o0 ]> {[ 1%nat := o1 ]}).

End Session.

(** ** Destroying the stream of a session

    [destroy()] on the stream at position [r] of the process, with nothing
    else running between the call and its continuation; [settled] is how
    the promise of STOP_RECORDING settled. *)
Definition destroy_session (r : nat) (settled : Result unit) (w : Session.World)
  : Result unit * Session.World :=
  match Session.streams w !! r with
  | None => (inl Session.type_error, w)
  | Some s =>
      let '(res, s', ports') :=
        Bridge.destroy_resume settled s (Session.ports w) in
      (res,
       {| Session.currentIndex := Session.currentIndex w;
          Session.heap := Session.heap w;
          Session.streams := <[r := s']> (Session.streams w);
          Session.ports := ports';
          Session.trace := Session.trace w ++ Bridge.destroy_call s |})
  end.

(** A process with two callers, the first asking for base port 55201, the
    second for the default: the first has had its session and has destroyed
    it again. *)
Definition first_session_gone : Session.World :=
  (destroy_session 0 (inr tt)
     (Session.getStream Session.ready 0
        (Session.two_callers (Session.video_from 55201) Session.video_only)).2).2.

(** ** The inputs the theorems speak of *)

(** The high-water mark a call asks for, in MB (line 162). *)
Definition highWaterMarkMB_of (o : getStreamOptions) : Z :=
  Js.or_else (Js.chain (streamConfig o) highWaterMarkMB) 8.

(** The high-water mark asked for is one the Readable constructor takes: a
    number of bytes that is not negative, and small enough for the product
    at line 205 to be exact. *)
Definition highWaterMark_taken (o : getStreamOptions) : Prop :=
  0 <= 1024 * 1024 * highWaterMarkMB_of o <= 2 ^ 53.

(** The streams added to the process from [w] to [W] are in service: each
    was built with a high-water mark the Readable constructor takes, and its
    listener is up, so that its port was free when it was built. *)
Definition in_service (w W : Session.World) : Prop :=
  forall i s,
    (length (Session.streams w) <= i)%nat ->
    Session.streams W !! i = Some s ->
    0 <= Readable.highWaterMark (Bridge.readable s) <= 2 ^ 53 /\
    Net.listening (Bridge.tcpServer s) = true.

(** [opts.retry] is left out, or gives both [each] and [times] as numbers:
    the object line 157 builds is then [Session.retryPolicy]. *)
Definition retry_given (o : getStreamOptions) : Prop :=
  forall r, retry o = Some r -> is_Some (retry_each r) /\ is_Some (retry_times r).

(** [Math.pow(each, j)] is exact at every tick [j] below [n]: the power is
    at most 2^53 in absolute value. *)
Definition exact_powers (each : Z) (n : nat) : Prop :=
  forall j, (j < n)%nat -> Z.abs (each ^ Z.of_nat j) <= 2 ^ 53.


(** ** Launching the browser: [launch] (lines 23-85) *)

Module Launch.

(** [x.includes(arg)] on strings: [arg] occurs somewhere in [x]. *)
Fixpoint includes (x arg : string) : bool :=
  String.prefix arg x
  || match x with
     | EmptyString => false
     | String _ x' => includes x' arg
     end.

(** A number in a template literal; the numbers here are integers, printed
    with all their digits as long as they are below 10^21 in absolute value
    (from there on JavaScript prints an exponent). *)
Definition number_to_string (n : Z) : string :=
  DecimalString.NilZero.string_of_int (Z.to_int n).

(** [!value] is false exactly on a string that is given and not empty. *)
Definition truthy_string (value : option string) : bool :=
  match value with
  | Some EmptyString => false
  | Some _ => true
  | None => false
  end.

Record Viewport := {
  width : Z;
  height : Z
}.

(** [headless] is a boolean or the name of a headless mode. *)
Inductive Headless :=
| headless_true
| headless_false
| headless_mode (name : string).

(** The launch options, as far as [launch] looks at them; [others] stands
    for every other property of the object. *)
Record StreamLaunchOptions := {
  args : option (list string);
  defaultViewport : option Viewport;
  headless : option Headless;
  allowIncognito : option bool;
  others : list (string * string)
}.

(** The object [{}]. *)
Definition no_options : StreamLaunchOptions :=
  {| args := None; defaultViewport := None; headless := None;
     allowIncognito := None; others := [] |}.

Definition extensionId : string := "jjndjgheafjngoipoacpjgeicjeomjli".

(** [addToArgs] (lines 35-49), on the array [opts.args]. *)
Definition addToArgs (arg : string) (value : option string) (args : list string)
  : list string :=
  match value with
  | Some v =>
      if truthy_string value then
        let found := existsb (fun x => includes x arg) args in
        let args' :=
          map (fun x => if includes x arg then x +:+ "," +:+ v else x) args in
        if found then args' else args' ++ [arg +:+ v]
      else if bool_decide (arg ∈ args) then args else args ++ [arg]
  | None => if bool_decide (arg ∈ args) then args else args ++ [arg]
  end.

(** [`--window-size=${width}x${height}`] *)
Definition window_size (v : Viewport) : string :=
  "--window-size=" +:+ number_to_string (width v) +:+ "x"
  +:+ number_to_string (height v).

(** Lines 33-57 on the array: [extensionPath] is where the package keeps
    its extension, [path.join(__dirname, "..", "extension")]. *)
Definition prepare_args (extensionPath : string) (viewport : option Viewport)
    (args : option (list string)) : list string :=
  let a0 := match args with Some l => l | None => [] end in
  let a1 := addToArgs "--load-extension=" (Some extensionPath) a0 in
  let a2 := addToArgs "--disable-extensions-except=" (Some extensionPath) a1 in
  let a3 := addToArgs "--allowlisted-extension-id=" (Some extensionId) a2 in
  let a4 := addToArgs "--autoplay-policy=no-user-gesture-required" None a3 in
  match viewport with
  | Some v =>
      if negb (width v =? 0) && negb (height v =? 0)
      then a4 ++ [window_size v]
      else a4
  | None => a4
  end.

(** Lines 33-59: the options as [launch] leaves them. *)
Definition prepare (extensionPath : string) (o : StreamLaunchOptions)
  : StreamLaunchOptions :=
  {| args := Some (prepare_args extensionPath (defaultViewport o) (args o));
     defaultViewport := defaultViewport o;
     headless := Some headless_false;
     allowIncognito := allowIncognito o;
     others := others o |}.

(** The first argument: a puppeteer of the caller's (an object whose
    [launch] is a function), or else the options. *)
Inductive Arg1 :=
| Library (id : nat)
| Options (opts : nat).

Inductive Action :=
| ALaunch (launcher : option nat) (o : StreamLaunchOptions)
    (* [arg1.launch(opts)]; [puppeteerLaunch(opts)] when there is no library *)
| ANewPage                   (* browser.newPage() *)
| AGoto (url : string)       (* settings.goto(url) *)
| AClick                     (* settings.evaluate(() => ... .click()) *)
| AClose.                    (* settings.close() *)

(** The option objects callers hold, by reference, and what has been asked
    of the browser. *)
Record World := {
  heap : gmap nat StreamLaunchOptions;
  trace : list Action
}.

(** What the browser answers to one call. *)
Record Env := {
  launched : Result nat;     (* the browser, by a number *)
  newPage : Result unit;
  goto : Result unit;
  evaluate : Result unit;
  close : Result unit
}.

Definition type_error : Error :=
  JsError "TypeError: Cannot read properties of undefined".

Definition emit (a : Action) (w : World) : World :=
  {| heap := heap w; trace := trace w ++ [a] |}.

(** Lines 68-82, with the browser started. *)
Definition allow_incognito (env : Env) (browser : nat) (w : World)
  : Result nat * World :=
  let w := emit ANewPage w in
  match newPage env with
  | inl e => (inl e, w)
  | inr _ =>
      let w := emit (AGoto ("chrome://extensions/?id=" +:+ extensionId)) w in
      match goto env with
      | inl e => (inl e, w)
      | inr _ =>
          let w := emit AClick w in
          match evaluate env with
          | inl e => (inl e, w)
          | inr _ =>
              let w := emit AClose w in
              match close env with
              | inl e => (inl e, w)
              | inr _ => (inr browser, w)
              end
          end
      end
  end.

(** [launch(arg1, opts)].  The options are those of [arg1] when it is not a
    library, else [opts], else a new object [{}]; they are rewritten in
    place, so a caller's object shows the rewriting. *)
Definition target (arg1 : Arg1) (opts : option nat) : option nat :=
  match arg1 with
  | Options r => Some r       (* line 29: [opts = arg1] *)
  | Library _ => opts
  end.

Definition launcher (arg1 : Arg1) : option nat :=
  match arg1 with
  | Library id => Some id     (* line 63: [arg1.launch(opts)] *)
  | Options _ => None         (* line 65: [puppeteerLaunch(opts)] *)
  end.

Definition launch (extensionPath : string) (env : Env) (arg1 : Arg1)
    (opts : option nat) (w : World) : Result nat * World :=
  match arg1, target arg1 opts ≫= (fun r => heap w !! r) with
  | Options _, None => (inl type_error, w)
  | _, found =>
      let o := prepare extensionPath
                 (match found with Some o => o | None => no_options end) in
      let w := match target arg1 opts, found with
               | Some r, Some _ => {| heap := <[r := o]> (heap w); trace := trace w |}
               | _, _ => w
               end in
      let w := emit (ALaunch (launcher arg1) o) w in
      match launched env with
      | inl e => (inl e, w)
      | inr browser =>
          match allowIncognito o with
          | Some true => allow_incognito env browser w
          | _ => (inr browser, w)
          end
      end
  end.

(** *** Sample inputs *)

(** A browser that starts and does everything asked of it. *)
Definition obliging : Env :=
  {| launched := inr 1%nat; newPage := inr tt; goto := inr tt;
     evaluate := inr tt; close := inr tt |}.

Definition sample_options : StreamLaunchOptions :=
  {| args := Some ["--no-sandbox"; "--load-extension=/opt/adblock"];
     defaultViewport := Some {| width := 1280; height := 720 |};
     headless := Some headless_true;
     allowIncognito := Some true;
     others := [("executablePath", "/usr/bin/chromium")] |}.

End Launch.

(** [l'] is the array [l] extended: every entry of [l] is still there at
    its place, with something (possibly nothing) added at its end, and
    entries may have been added after the last. *)
Definition extended (l l' : list string) : Prop :=
  (length l <= length l')%nat /\
  forall i x, l !! i = Some x -> exists sfx, l' !! i = Some (x +:+ sfx).

(** Some entry of the array has both [a] and [b] in it. *)
Definition has_flag (a b : string) (l : list string) : Prop :=
  exists x, x ∈ l /\ Launch.includes x a = true /\ Launch.includes x b = true.

(** ** Reading the traces of the gate *)

(** [k] rounds of the gate that end in a wait, from tick [c] on: a probe
    and the wait that follows it, for the ticks [c], ..., [c + k - 1]. *)
Definition rounds (each : Z) (c k : nat) : list Effect :=
  flat_map (fun j => [EProbe; EWait (Js.pow each j)]) (seq c k).

(** ** Reading the process after a call *)

(** The process after the first segment of a call that passes line 151:
    the defaults are written into the caller's object, nothing else. *)
Definition defaulted (opts : nat) (o : getStreamOptions) (w : Session.World)
  : Session.World :=
  {| Session.currentIndex := Session.currentIndex w;
     Session.heap :=
       <[opts := Session.default_frameSize (Session.default_mimeType o)]>
         (Session.heap w);
     Session.streams := Session.streams w;
     Session.ports := Session.ports w;
     Session.trace := Session.trace w |}.

(** [W] is [w] with at most one stream added after the existing ones, ports
    only added, the counter at most one higher, and a trace that has grown
    by at most one start and by no stop. *)
Definition extends (w W : Session.World) : Prop :=
  (exists l, Session.streams W = Session.streams w ++ l /\ (length l <= 1)%nat) /\
  Session.ports w ⊆ Session.ports W /\
  Session.currentIndex w <= Session.currentIndex W <= Session.currentIndex w + 1 /\
  (exists tr, Session.trace W = Session.trace w ++ tr /\
              count is_stop tr = 0%nat /\ (count is_start tr <= 1)%nat).

(** In [w] every stream stops an index the counter has passed, and of two
    streams the later built stops the larger index. *)
Definition indexed (w : Session.World) : Prop :=
  (forall i s, Session.streams w !! i = Some s ->
     exists k, Bridge.onDestroy (Bridge.opts s) = Some k /\
               k < Session.currentIndex w) /\
  (forall i j si sj ki kj, (i < j)%nat ->
     Session.streams w !! i = Some si ->
     Session.streams w !! j = Some sj ->
     Bridge.onDestroy (Bridge.opts si) = Some ki ->
     Bridge.onDestroy (Bridge.opts sj) = Some kj ->
     ki < kj).

(** ** Reading runs of the bridge *)

(** The number of [destroy()] calls among the events. *)
Fixpoint destroys (evs : list Bridge.Event) : nat :=
  match evs with
  | [] => O
  | Bridge.Destroy :: evs' => S (destroys evs')
  | _ :: evs' => destroys evs'
  end.

(** [st'] is [st] grown: the same options; an output that continues the
    old one; every socket still there at its place, ended if it was ended;
    ports that are those of [st], except that the bridge's own may have
    been given back. *)
Definition grown (st st' : Bridge.State) : Prop :=
  Bridge.opts (Bridge.this st') = Bridge.opts (Bridge.this st) /\
  (exists l, Readable.output (Bridge.readable (Bridge.this st'))
             = Readable.output (Bridge.readable (Bridge.this st)) ++ l) /\
  (forall i s, Bridge.tcpSockets (Bridge.this st) !! i = Some s ->
     exists s', Bridge.tcpSockets (Bridge.this st') !! i = Some s' /\
                (Net.ended s = true -> Net.ended s' = true)) /\
  Bridge.ports st' ⊆ Bridge.ports st /\
  (forall p, p ∈ Bridge.ports st ->
     p <> Bridge.port (Bridge.opts (Bridge.this st)) -> p ∈ Bridge.ports st').

(** * Theorems *)

Section GateFacts.

Import Gate.

Variable probe : Probe.

(** The gate never probes more often than [times] allows. *)
Lemma loop_probe_bound (e : Z) (n k : nat) :
  (count is_probe (snd (loop probe e n k)) <= n)%nat.
Proof.
  revert k; induction n as [|n IH]; intros k; simpl; [lia|].
  destruct (probe k) as [err|[|]]; simpl; try lia.
  specialize (IH (S k)). destruct (loop probe e n (S k)) as [r tr].
  simpl in *. lia.
Qed.

(** The gate only probes and waits: it never starts or stops production. *)
Lemma loop_quiet (e : Z) (n k : nat) :
  count is_start (snd (loop probe e n k)) = O /\
  count is_stop (snd (loop probe e n k)) = O.
Proof.
  revert k; induction n as [|n IH]; intros k; simpl; [auto|].
  destruct (probe k) as [err|[|]]; simpl; auto.
  specialize (IH (S k)). destruct (loop probe e n (S k)) as [r tr].
  simpl in *. assumption.
Qed.


End GateFacts.

(** C6.  With [each = 20], [times = 3] and a probe answering false, false,
    true, the gate succeeds; it has probed exactly three times and waited
    exactly twice, 20^0 = 1 and then 20^1 = 20 time units. *)
Theorem gate_succeeds_on_third_probe (probe : Gate.Probe) :
  probe 0%nat = inr false ->
  probe 1%nat = inr false ->
  probe 2%nat = inr true ->
  Gate.assertExtensionLoaded probe {| each := 20; times := 3 |}
    = (inr tt, [EProbe; EWait 1; EProbe; EWait 20; EProbe]) /\
  waits (snd (Gate.assertExtensionLoaded probe {| each := 20; times := 3 |}))
    = [1; 20] /\
  count is_probe
    (snd (Gate.assertExtensionLoaded probe {| each := 20; times := 3 |})) = 3%nat.
Proof.
  intros H0 H1 H2. unfold Gate.assertExtensionLoaded. simpl.
  rewrite H0, H1, H2. simpl. repeat split; reflexivity.
Qed.

Lemma gate_succeeds_on_third_probe_witness :
  Gate.assertExtensionLoaded (fun k => inr (Nat.leb 2 k)) {| each := 20; times := 3 |}
    = (inr tt, [EProbe; EWait 1; EProbe; EWait 20; EProbe]).
Proof.
  exact (proj1 (gate_succeeds_on_third_probe (fun k => inr (Nat.leb 2 k))
                  eq_refl eq_refl eq_refl)).
Defined.

(** C7.  With [times = 3] and a probe that always answers false, the gate
    fails with the error whose message names START_RECORDING, after exactly
    three probes; its trace holds no start (and no stop) of production. *)
Theorem gate_fails_after_three_probes (probe : Gate.Probe) (e : Z) :
  (forall k, probe k = inr false) ->
  Gate.assertExtensionLoaded probe {| each := e; times := 3 |}
    = (inl Gate.readiness_error,
       [EProbe; EWait (e ^ 0); EProbe; EWait (e ^ 1); EProbe; EWait (e ^ 2)]) /\
  String.index 0 "START_RECORDING" (message Gate.readiness_error) = Some 15%nat /\
  count is_probe
    (snd (Gate.assertExtensionLoaded probe {| each := e; times := 3 |})) = 3%nat /\
  count is_start
    (snd (Gate.assertExtensionLoaded probe {| each := e; times := 3 |})) = 0%nat /\
  count is_stop
    (snd (Gate.assertExtensionLoaded probe {| each := e; times := 3 |})) = 0%nat.
Proof.
  intros H. unfold Gate.assertExtensionLoaded. simpl.
  rewrite !H. repeat split; reflexivity.
Qed.

Lemma gate_fails_after_three_probes_witness :
  Gate.assertExtensionLoaded (fun _ => inr false) {| each := 20; times := 3 |}
    = (inl Gate.readiness_error,
       [EProbe; EWait 1; EProbe; EWait 20; EProbe; EWait 400]).
Proof.
  exact (proj1 (gate_fails_after_three_probes (fun _ => inr false) 20
                  (fun _ => eq_refl))).
Defined.

Section BridgeFacts.

Import Bridge.

Lemma readable_destroy_destroyed (r : Readable.t) :
  Readable.destroyed r = true -> Readable.destroy r = r.
Proof. destruct r; simpl; intros ->; reflexivity. Qed.

Lemma readable_push_destroyed (data : Buffer) (r : Readable.t) :
  Readable.destroyed r = true -> Readable.push data r = r.
Proof. unfold Readable.push; intros ->; reflexivity. Qed.

Lemma readable_push_bytes (data : Buffer) (r : Readable.t) :
  Readable.destroyed r = false ->
  Readable.destroyed (Readable.push data r) = false /\
  Readable.bytes (Readable.push data r) = Readable.bytes r ++ data.
Proof.
  unfold Readable.push, Readable.bytes; intros H; rewrite H.
  destruct data as [|b data]; simpl.
  - rewrite app_nil_r; auto.
  - split; [reflexivity|].
    rewrite concat_app; simpl. rewrite app_nil_r. reflexivity.
Qed.

Lemma end_all_ended (l : list Net.Socket) :
  forallb Net.ended (map Net.end_ l) = true.
Proof. induction l as [|x l IH]; simpl; auto. Qed.

Lemma end_all_again (l : list Net.Socket) :
  forallb Net.ended l = true -> map Net.end_ l = l.
Proof.
  induction l as [|[e] l IH]; simpl; [reflexivity|].
  intros H; apply andb_prop in H as [-> H]. rewrite IH by assumption.
  reflexivity.
Qed.

(** What phase 2 leaves behind. *)
Lemma teardown_spec (s : PuppeteerReadableStream) (ps : gset Z) :
  closed (teardown s ps).1 = true /\
  length (tcpSockets (teardown s ps).1) = length (tcpSockets s) /\
  Readable.output (readable (teardown s ps).1) = Readable.output (readable s) /\
  opts (teardown s ps).1 = opts s /\
  (Net.listening (tcpServer s) = true -> port (opts s) ∉ (teardown s ps).2) /\
  (teardown s ps).2 ⊆ ps.
Proof.
  unfold teardown, closed, Net.close.
  destruct (Net.listening (tcpServer s)) eqn:L; simpl;
    rewrite ?L, end_all_ended, length_map; simpl.
  - split_and!; auto.
    + intros _. apply not_elem_of_difference. right.
      apply elem_of_singleton. reflexivity.
    + apply subseteq_difference_l. reflexivity.
  - split_and!; auto. discriminate.
Qed.

(** Phase 2 changes nothing on a bridge that is CLOSED. *)
Lemma teardown_closed (s : PuppeteerReadableStream) (ps : gset Z) :
  closed s = true -> teardown s ps = (s, ps).
Proof.
  unfold closed, teardown, Net.close. intros H.
  apply andb_prop in H as [H E]. apply andb_prop in H as [L D].
  apply negb_true_iff in L. rewrite L.
  rewrite end_all_again by assumption.
  rewrite readable_destroy_destroyed by assumption.
  destruct s; reflexivity.
Qed.

Lemma destroy_resume_closed (r : Result unit) (s : PuppeteerReadableStream)
    (ps : gset Z) :
  closed s = true ->
  (destroy_resume r s ps).1.2 = s /\ (destroy_resume r s ps).2 = ps.
Proof.
  intros H. unfold destroy_resume.
  destruct (onDestroy (opts s)), r; rewrite ?teardown_closed by assumption;
    auto.
Qed.

(** No event changes the stream or the ports of a CLOSED bridge. *)
Lemma handle_closed (ev : Event) (st : State) :
  closed (this st) = true ->
  this (handle ev st) = this st /\ ports (handle ev st) = ports st.
Proof.
  intros H. pose proof H as H'. unfold closed in H'.
  apply andb_prop in H' as [H' E]. apply andb_prop in H' as [L D].
  apply negb_true_iff in L.
  destruct ev as [|i data| |r]; simpl.
  - rewrite L. auto.
  - destruct (tcpSockets (this st) !! i); simpl; auto.
    unfold on_data. rewrite readable_push_destroyed by assumption.
    destruct (this st); auto.
  - auto.
  - destruct (awaiting st); auto.
    destruct (destroy_resume_closed r (this st) (ports st) H) as [E1 E2].
    destruct (destroy_resume r (this st) (ports st)) as [[res s'] ps'].
    simpl in *. auto.
Qed.

Lemma run_closed (evs : list Event) (st : State) :
  closed (this st) = true ->
  this (run evs st) = this st /\ ports (run evs st) = ports st.
Proof.
  revert st; induction evs as [|ev evs IH]; intros st H; simpl; auto.
  destruct (handle_closed ev st H) as [E1 E2].
  destruct (IH (handle ev st)) as [E3 E4]; [rewrite E1; assumption|].
  rewrite E3, E4; auto.
Qed.

(** Chunks arriving on an accepted socket of a live bridge. *)
Lemma run_data (i : nat) (chunks : list Buffer) (st : State) :
  is_Some (tcpSockets (this st) !! i) ->
  Readable.destroyed (readable (this st)) = false ->
  Readable.destroyed (readable (this (run (map (Data i) chunks) st))) = false /\
  bytes (run (map (Data i) chunks) st) = bytes st ++ concat chunks.
Proof.
  revert st; induction chunks as [|c chunks IH]; intros st [sock Hs] Hd; simpl.
  - rewrite app_nil_r. auto.
  - rewrite Hs.
    destruct (readable_push_bytes c _ Hd) as [Hd' Hb].
    match goal with |- context [run _ ?st1] => destruct (IH st1) as [IH1 IH2] end;
      simpl; eauto.
    split; [assumption|].
    rewrite IH2. unfold bytes. simpl. rewrite Hb, <- app_assoc. reflexivity.
Qed.

Lemma readable_push_output (data : Buffer) (r : Readable.t) :
  Readable.destroyed r = false ->
  Readable.output (Readable.push data r)
  = Readable.output r ++ filter (fun b => b <> []) [data].
Proof.
  unfold Readable.push; intros ->.
  destruct data; simpl; [rewrite app_nil_r|]; reflexivity.
Qed.

Lemma run_data_output (i : nat) (chunks : list Buffer) (st : State) :
  is_Some (tcpSockets (this st) !! i) ->
  Readable.destroyed (readable (this st)) = false ->
  Readable.output (readable (this (run (map (Data i) chunks) st)))
  = Readable.output (readable (this st)) ++ filter (fun b => b <> []) chunks.
Proof.
  revert st; induction chunks as [|c chunks IH]; intros st [sock Hs] Hd; simpl.
  - rewrite app_nil_r. reflexivity.
  - rewrite Hs.
    destruct (readable_push_bytes c _ Hd) as [Hd' _].
    match goal with |- context [run _ ?st1] => rewrite (IH st1) end;
      simpl; eauto.
    rewrite (readable_push_output c _ Hd), <- app_assoc.
    f_equal. destruct c; reflexivity.
Qed.

Lemma teardown_destroyed (s : PuppeteerReadableStream) (ps : gset Z) :
  Readable.destroyed (readable (teardown s ps).1) = true.
Proof.
  unfold teardown. destruct (Net.close _ _ _) as [srv ps']. reflexivity.
Qed.

(** A destroyed output stays destroyed. *)
Lemma handle_destroyed (ev : Event) (st : State) :
  Readable.destroyed (readable (this st)) = true ->
  Readable.destroyed (readable (this (handle ev st))) = true.
Proof.
  intros D. destruct ev as [|i data| |r]; simpl.
  - destruct (Net.listening _); simpl; assumption.
  - destruct (_ !! i); simpl; [|assumption].
    rewrite readable_push_destroyed by assumption. assumption.
  - assumption.
  - destruct (awaiting st); [assumption|].
    unfold destroy_resume.
    pose proof (teardown_destroyed (this st) (ports st)) as T.
    destruct (teardown (this st) (ports st)) as [s' ps'].
    destruct (onDestroy (opts (this st))), r; simpl in *; assumption.
Qed.

Lemma run_destroyed (evs : list Event) (st : State) :
  Readable.destroyed (readable (this st)) = true ->
  Readable.destroyed (readable (this (run evs st))) = true.
Proof.
  revert st; induction evs as [|ev evs IH]; intros st D; simpl; [assumption|].
  apply IH, handle_destroyed, D.
Qed.

(** As long as the output has not been destroyed, whatever else happens to
    the bridge in between, the bytes of the output grow by exactly the
    chunks received on accepted sockets, in the order of their arrival. *)
Lemma run_forwards_received (evs : list Event) (st : State) :
  Readable.destroyed (readable (this (run evs st))) = false ->
  bytes (run evs st)
  = bytes st ++ concat (received (Net.listening (tcpServer (this st)))
                                 (length (tcpSockets (this st))) evs).
Proof.
  revert st; induction evs as [|ev evs IH]; intros st D; simpl.
  { rewrite app_nil_r. reflexivity. }
  simpl in D. rewrite (IH _ D).
  assert (D1 : Readable.destroyed (readable (this (handle ev st))) = false).
  { destruct (Readable.destroyed (readable (this (handle ev st)))) eqn:E;
      [|reflexivity].
    rewrite (run_destroyed evs _ E) in D. discriminate. }
  assert (D0 : Readable.destroyed (readable (this st)) = false).
  { destruct (Readable.destroyed (readable (this st))) eqn:E; [|reflexivity].
    rewrite (handle_destroyed ev _ E) in D1. discriminate. }
  clear IH D. destruct ev as [|i data| |r]; simpl in *.
  - destruct (Net.listening (tcpServer (this st))) eqn:L; simpl.
    + rewrite L, length_app. simpl. rewrite Nat.add_1_r. reflexivity.
    + rewrite L. reflexivity.
  - destruct (tcpSockets (this st) !! i) as [sock|] eqn:Hs; simpl.
    + apply lookup_lt_Some in Hs. apply Nat.ltb_lt in Hs. rewrite Hs.
      unfold bytes. simpl.
      destruct (readable_push_bytes data _ D0) as [_ ->].
      rewrite <- app_assoc. reflexivity.
    + apply lookup_ge_None in Hs.
      assert (Hn : (i <? length (tcpSockets (this st)))%nat = false)
        by (apply Nat.ltb_ge; exact Hs).
      rewrite Hn. reflexivity.
  - reflexivity.
  - destruct (awaiting st); [reflexivity|].
    unfold destroy_resume in *.
    pose proof (teardown_destroyed (this st) (ports st)) as T.
    destruct (teardown (this st) (ports st)) as [s' ps'].
    destruct (onDestroy (opts (this st))), r; simpl in *;
      try congruence; reflexivity.
Qed.

End BridgeFacts.

Lemma first_bridge_new :
  Bridge.new Bridge.first_opts ∅
  = inr (Bridge.this Bridge.first_bridge, Bridge.ports Bridge.first_bridge).
Proof. reflexivity. Qed.

(** C1, as the code has it.  When the callback's promise resolves, or there
    is no callback, [destroy] ends every registered socket, closes the
    listener, gives the port back when the listener held it, and destroys
    the output.  When the promise rejects, the rejection leaves [destroy] at
    its [await]: it is surfaced, and no socket is ended, the listener is not
    closed and no port is given back. *)
Theorem destroy_releases_transport_when_stop_resolves
    (s : Bridge.PuppeteerReadableStream) (ps : gset Z) :
  (Bridge.destroy_resume (inr tt) s ps).1.1 = inr tt /\
  forallb Net.ended (Bridge.tcpSockets (Bridge.destroy_resume (inr tt) s ps).1.2) = true /\
  length (Bridge.tcpSockets (Bridge.destroy_resume (inr tt) s ps).1.2)
    = length (Bridge.tcpSockets s) /\
  Net.listening (Bridge.tcpServer (Bridge.destroy_resume (inr tt) s ps).1.2) = false /\
  Readable.destroyed (Bridge.readable (Bridge.destroy_resume (inr tt) s ps).1.2) = true /\
  (Net.listening (Bridge.tcpServer s) = true ->
   Bridge.port (Bridge.opts s) ∉ (Bridge.destroy_resume (inr tt) s ps).2) /\
  (forall e, Bridge.onDestroy (Bridge.opts s) = None ->
     Bridge.destroy_resume (inl e) s ps = Bridge.destroy_resume (inr tt) s ps) /\
  (forall e i, Bridge.onDestroy (Bridge.opts s) = Some i ->
     Bridge.destroy_resume (inl e) s ps = (inl e, s, ps)).
Proof.
  destruct (teardown_spec s ps) as (C & Len & _ & _ & P & _).
  unfold Bridge.closed in C.
  apply andb_prop in C as [C E]. apply andb_prop in C as [L D].
  apply negb_true_iff in L.
  unfold Bridge.destroy_resume.
  destruct (Bridge.teardown s ps) as [s' ps'] eqn:T. simpl in *.
  assert (R : (match Bridge.onDestroy (Bridge.opts s) with
               | Some _ | _ => (inr tt, s', ps')
               end : Result unit * _ * _) = (inr tt, s', ps'))
    by (destruct (Bridge.onDestroy (Bridge.opts s)); reflexivity).
  rewrite R. simpl. split_and!; auto.
  - intros e ->. reflexivity.
  - intros e i ->. reflexivity.
Qed.

Lemma destroy_releases_transport_when_stop_resolves_witness :
  (Bridge.port Bridge.first_opts
     ∉ (Bridge.destroy_resume (inr tt) (Bridge.this Bridge.first_bridge) {[55200]}).2) /\
  Bridge.destroy_resume (inl (JsError "Target closed"))
      (Bridge.this Bridge.first_bridge) {[55200]}
    = (inl (JsError "Target closed"), Bridge.this Bridge.first_bridge, {[55200]}).
Proof.
  pose proof (destroy_releases_transport_when_stop_resolves
                (Bridge.this Bridge.first_bridge) {[55200]})
    as (_ & _ & _ & _ & _ & P & _ & R).
  split; [exact (P eq_refl) | exact (R _ 0 eq_refl)].
Defined.

(** C1, refuted as stated: the first bridge with one accepted socket, whose
    stop callback rejects.  After [destroy] the listener still listens on
    55200, the port is still held and the socket has not been ended. *)
Lemma destroy_keeps_transport_when_stop_rejects :
  Net.listening (Bridge.tcpServer (Bridge.this
      (Bridge.run [Bridge.Connection; Bridge.Destroy;
                   Bridge.Settled (inl (JsError "Target closed"))]
         Bridge.first_bridge))) = true /\
  55200 ∈ Bridge.ports
      (Bridge.run [Bridge.Connection; Bridge.Destroy;
                   Bridge.Settled (inl (JsError "Target closed"))]
         Bridge.first_bridge) /\
  map Net.ended (Bridge.tcpSockets (Bridge.this
      (Bridge.run [Bridge.Connection; Bridge.Destroy;
                   Bridge.Settled (inl (JsError "Target closed"))]
         Bridge.first_bridge))) = [false] /\
  Bridge.rejections
      (Bridge.run [Bridge.Connection; Bridge.Destroy;
                   Bridge.Settled (inl (JsError "Target closed"))]
         Bridge.first_bridge) = [JsError "Target closed"].
Proof.
  split_and!; reflexivity.
Qed.

(** C3, as the code has it.  On a CLOSED bridge a further [destroy] leaves
    the sockets, the listener, the output and the ports as they are,
    however the callback's promise settles; but the callback is called
    again, and when its promise rejects, so does this [destroy]. *)
Theorem destroy_again_keeps_transport_but_stops_again
    (s : Bridge.PuppeteerReadableStream) (ps : gset Z) :
  Bridge.closed s = true ->
  (forall r, (Bridge.destroy_resume r s ps).1.2 = s /\
             (Bridge.destroy_resume r s ps).2 = ps) /\
  (Bridge.destroy_resume (inr tt) s ps).1.1 = inr tt /\
  (forall i, Bridge.onDestroy (Bridge.opts s) = Some i ->
     Bridge.destroy_call s = [EStop i] /\
     forall e, (Bridge.destroy_resume (inl e) s ps).1.1 = inl e) /\
  (Bridge.onDestroy (Bridge.opts s) = None ->
     Bridge.destroy_call s = [] /\
     forall r, (Bridge.destroy_resume r s ps).1.1 = inr tt).
Proof.
  intros C. split_and!.
  - intros r. apply destroy_resume_closed; assumption.
  - unfold Bridge.destroy_resume. rewrite teardown_closed by assumption.
    destruct (Bridge.onDestroy (Bridge.opts s)); reflexivity.
  - intros i Hi. unfold Bridge.destroy_call, Bridge.destroy_resume.
    rewrite Hi. auto.
  - intros Hn. unfold Bridge.destroy_call, Bridge.destroy_resume.
    rewrite Hn, teardown_closed by assumption. auto.
Qed.

Lemma destroy_again_keeps_transport_but_stops_again_witness :
  Bridge.destroy_call
    (Bridge.this (Bridge.run [Bridge.Destroy; Bridge.Settled (inr tt)]
                    Bridge.first_bridge)) = [EStop 0] /\
  (Bridge.destroy_resume (inl (JsError "Target closed"))
     (Bridge.this (Bridge.run [Bridge.Destroy; Bridge.Settled (inr tt)]
                     Bridge.first_bridge)) ∅).1.1
  = inl (JsError "Target closed").
Proof.
  pose proof (destroy_again_keeps_transport_but_stops_again
                (Bridge.this (Bridge.run [Bridge.Destroy; Bridge.Settled (inr tt)]
                                Bridge.first_bridge)) ∅ eq_refl)
    as (_ & _ & S & _).
  destruct (S 0 eq_refl) as [S1 S2]. split; [exact S1 | exact (S2 _)].
Defined.

(** C3, refuted as stated: the first bridge is destroyed, which leaves it
    CLOSED, and destroyed once more.  The stop callback has then been called
    twice; and when its second promise rejects, the second [destroy] is
    rejected with that error. *)
Lemma second_destroy_calls_stop_again :
  Bridge.closed (Bridge.this
      (Bridge.run [Bridge.Destroy; Bridge.Settled (inr tt)] Bridge.first_bridge))
    = true /\
  Bridge.effects
      (Bridge.run [Bridge.Destroy; Bridge.Settled (inr tt)] Bridge.first_bridge)
    = [EStop 0] /\
  Bridge.effects
      (Bridge.run [Bridge.Destroy; Bridge.Settled (inr tt);
                   Bridge.Destroy; Bridge.Settled (inr tt)] Bridge.first_bridge)
    = [EStop 0; EStop 0] /\
  Bridge.rejections
      (Bridge.run [Bridge.Destroy; Bridge.Settled (inr tt);
                   Bridge.Destroy; Bridge.Settled (inl (JsError "Target closed"))]
         Bridge.first_bridge)
    = [JsError "Target closed"].
Proof. split_and!; reflexivity. Qed.

(** C4, as the code has it.  Once a [destroy] call has got past its [await]
    with a resolved promise, the bridge is CLOSED, and from then on no event
    appends a byte to the output or adds a socket.  The call of [destroy]
    itself changes nothing in the bridge. *)
Theorem never_forwards_after_teardown (st : Bridge.State) (evs : list Bridge.Event) :
  (0 < Bridge.awaiting st)%nat ->
  Bridge.this (Bridge.handle Bridge.Destroy st) = Bridge.this st /\
  Bridge.closed (Bridge.this (Bridge.handle (Bridge.Settled (inr tt)) st)) = true /\
  Bridge.bytes (Bridge.run evs (Bridge.handle (Bridge.Settled (inr tt)) st))
    = Bridge.bytes (Bridge.handle (Bridge.Settled (inr tt)) st) /\
  Readable.output (Bridge.readable (Bridge.this
      (Bridge.run evs (Bridge.handle (Bridge.Settled (inr tt)) st))))
    = Readable.output (Bridge.readable (Bridge.this st)) /\
  Bridge.tcpSockets (Bridge.this
      (Bridge.run evs (Bridge.handle (Bridge.Settled (inr tt)) st)))
    = Bridge.tcpSockets (Bridge.this (Bridge.handle (Bridge.Settled (inr tt)) st)) /\
  length (Bridge.tcpSockets (Bridge.this
      (Bridge.run evs (Bridge.handle (Bridge.Settled (inr tt)) st))))
    = length (Bridge.tcpSockets (Bridge.this st)).
Proof.
  intros A.
  assert (E : Bridge.this (Bridge.handle (Bridge.Settled (inr tt)) st)
              = (Bridge.teardown (Bridge.this st) (Bridge.ports st)).1).
  { simpl. destruct (Bridge.awaiting st); [lia|].
    unfold Bridge.destroy_resume.
    destruct (Bridge.teardown (Bridge.this st) (Bridge.ports st)) as [s' ps'].
    destruct (Bridge.onDestroy (Bridge.opts (Bridge.this st))); reflexivity. }
  destruct (teardown_spec (Bridge.this st) (Bridge.ports st))
    as (C & Len & Out & _).
  rewrite <- E in C, Len, Out.
  destruct (run_closed evs _ C) as [R _].
  unfold Bridge.bytes. rewrite R, Len, Out. split_and!; auto.
Qed.

Lemma never_forwards_after_teardown_witness :
  Bridge.bytes
    (Bridge.run [Bridge.Data 0 [Byte.x2a]; Bridge.Connection]
       (Bridge.handle (Bridge.Settled (inr tt))
          (Bridge.run [Bridge.Connection; Bridge.Destroy] Bridge.first_bridge)))
  = Bridge.bytes
      (Bridge.handle (Bridge.Settled (inr tt))
         (Bridge.run [Bridge.Connection; Bridge.Destroy] Bridge.first_bridge)).
Proof.
  refine (proj1 (proj2 (proj2 (never_forwards_after_teardown
            (Bridge.run [Bridge.Connection; Bridge.Destroy] Bridge.first_bridge)
            [Bridge.Data 0 [Byte.x2a]; Bridge.Connection] _)))).
  simpl. lia.
Defined.

(** C4, refuted as stated: on the first bridge [destroy] is called and its
    stop promise is still pending (or has rejected).  A chunk that arrives
    then on the accepted socket is appended to the output, and a peer that
    connects then is accepted. *)
Lemma forwards_after_destroy_is_called :
  Bridge.bytes (Bridge.run [Bridge.Connection; Bridge.Destroy] Bridge.first_bridge)
    = [] /\
  Bridge.bytes
      (Bridge.run [Bridge.Connection; Bridge.Destroy; Bridge.Data 0 [Byte.x2a]]
         Bridge.first_bridge)
    = [Byte.x2a] /\
  Bridge.bytes
      (Bridge.run [Bridge.Connection; Bridge.Destroy;
                   Bridge.Settled (inl (JsError "Target closed"));
                   Bridge.Data 0 [Byte.x2a]]
         Bridge.first_bridge)
    = [Byte.x2a] /\
  length (Bridge.tcpSockets (Bridge.this
      (Bridge.run [Bridge.Destroy] Bridge.first_bridge))) = 0%nat /\
  length (Bridge.tcpSockets (Bridge.this
      (Bridge.run [Bridge.Destroy; Bridge.Connection] Bridge.first_bridge))) = 1%nat.
Proof. split_and!; reflexivity. Qed.

Section ConsumerFacts.

Import Bridge.

(** No event of the bridge takes anything out of the output. *)
Lemma handle_output (ev : Event) (st : State) :
  exists l, Readable.output (readable (this (handle ev st)))
            = Readable.output (readable (this st)) ++ l.
Proof.
  destruct ev as [|i data| |r]; simpl.
  - destruct (Net.listening _); exists []; rewrite app_nil_r; reflexivity.
  - destruct (_ !! i); simpl; [|exists []; rewrite app_nil_r; reflexivity].
    unfold Readable.push.
    destruct (Readable.destroyed _); [exists []; rewrite app_nil_r; reflexivity|].
    destruct data; simpl; eauto. exists []. rewrite app_nil_r. reflexivity.
  - exists []. rewrite app_nil_r. reflexivity.
  - destruct (awaiting st); [exists []; rewrite app_nil_r; reflexivity|].
    unfold destroy_resume.
    destruct (teardown_spec (this st) (ports st)) as (_ & _ & O & _).
    destruct (teardown (this st) (ports st)) as [s' ps'].
    exists []. rewrite app_nil_r.
    destruct (onDestroy (opts (this st))), r; simpl in *; auto.
Qed.

(** A destroyed stream takes nothing in. *)
Lemma handle_destroyed_output (ev : Event) (st : State) :
  Readable.destroyed (readable (this st)) = true ->
  Readable.output (readable (this (handle ev st)))
  = Readable.output (readable (this st)).
Proof.
  intros D. destruct ev as [|i data| |r]; simpl.
  - destruct (Net.listening _); reflexivity.
  - destruct (_ !! i); simpl; [|reflexivity].
    rewrite readable_push_destroyed by assumption. reflexivity.
  - reflexivity.
  - destruct (awaiting st); [reflexivity|].
    unfold destroy_resume.
    destruct (teardown_spec (this st) (ports st)) as (_ & _ & O & _).
    destruct (teardown (this st) (ports st)) as [s' ps'].
    destruct (onDestroy (opts (this st))), r; simpl in *; auto.
Qed.

(** No event of the bridge touches the flowing flag. *)
Lemma handle_flowing (ev : Event) (st : State) :
  Readable.flowing (readable (this (handle ev st)))
  = Readable.flowing (readable (this st)).
Proof.
  destruct ev as [|i data| |r]; simpl.
  - destruct (Net.listening _); reflexivity.
  - destruct (_ !! i); simpl; [|reflexivity].
    unfold Readable.push.
    destruct (Readable.destroyed _); [reflexivity|]. destruct data; reflexivity.
  - reflexivity.
  - destruct (awaiting st); [reflexivity|].
    unfold destroy_resume, teardown.
    destruct (Net.close _ _ _) as [srv ps'].
    destruct (onDestroy (opts (this st))), r; reflexivity.
Qed.

(** The bridge goes its way whether or not its stream has been set
    flowing. *)
Lemma handle_resume (ev : Event) (st : State) :
  handle ev (Consumer.resume st) = Consumer.resume (handle ev st).
Proof.
  destruct st as [[o socks [l] [h f d out]] ps aw eff rej].
  destruct ev as [|i data| |r]; unfold Consumer.resume; simpl.
  - destruct l; reflexivity.
  - destruct (socks !! i); [|reflexivity].
    unfold on_data, Readable.push, Readable.resume. simpl.
    destruct d; [reflexivity|]. destruct data; reflexivity.
  - reflexivity.
  - destruct aw; [reflexivity|].
    unfold destroy_resume, teardown, Net.close. simpl.
    destruct (onDestroy o), r, l; reflexivity.
Qed.

Lemma run_resume (evs : list Event) (st : State) :
  run evs (Consumer.resume st) = Consumer.resume (run evs st).
Proof.
  revert st; induction evs as [|ev evs IH]; intros st; simpl; [reflexivity|].
  rewrite handle_resume. apply IH.
Qed.

Lemma resume_resume (st : State) :
  Consumer.resume (Consumer.resume st) = Consumer.resume st.
Proof. reflexivity. Qed.

Lemma consumer_handle_bridge (ev : Event) (c : Consumer.State) :
  Consumer.bridge (Consumer.handle (Consumer.Of ev) c) = handle ev (Consumer.bridge c).
Proof.
  simpl. destruct (Consumer.attached c); [reflexivity|].
  destruct (Readable.flowing _); reflexivity.
Qed.

Lemma consumer_handle_attached (ev : Event) (c : Consumer.State) :
  Consumer.attached c = true ->
  Consumer.handle (Consumer.Of ev) c
  = {| Consumer.bridge := handle ev (Consumer.bridge c);
       Consumer.attached := true;
       Consumer.buffered := Consumer.buffered c;
       Consumer.delivered :=
         Consumer.delivered c
         ++ Consumer.pushed (Consumer.bridge c) (handle ev (Consumer.bridge c));
       Consumer.discarded := Consumer.discarded c |}.
Proof. intros At. unfold Consumer.handle. rewrite At. reflexivity. Qed.

Lemma consumer_handle_paused (ev : Event) (c : Consumer.State) :
  Consumer.attached c = false ->
  Readable.flowing (readable (this (Consumer.bridge c))) = false ->
  Consumer.handle (Consumer.Of ev) c
  = {| Consumer.bridge := handle ev (Consumer.bridge c);
       Consumer.attached := false;
       Consumer.buffered :=
         Consumer.buffered c
         ++ Consumer.pushed (Consumer.bridge c) (handle ev (Consumer.bridge c));
       Consumer.delivered := Consumer.delivered c;
       Consumer.discarded := Consumer.discarded c |}.
Proof. intros At Fw. unfold Consumer.handle. rewrite At, Fw. reflexivity. Qed.

Lemma consumer_handle_unheard (ev : Event) (c : Consumer.State) :
  Consumer.attached c = false ->
  Readable.flowing (readable (this (Consumer.bridge c))) = true ->
  Consumer.handle (Consumer.Of ev) c
  = {| Consumer.bridge := handle ev (Consumer.bridge c);
       Consumer.attached := false;
       Consumer.buffered := Consumer.buffered c;
       Consumer.delivered := Consumer.delivered c;
       Consumer.discarded :=
         Consumer.discarded c
         ++ Consumer.pushed (Consumer.bridge c) (handle ev (Consumer.bridge c)) |}.
Proof. intros At Fw. unfold Consumer.handle. rewrite At, Fw. reflexivity. Qed.

(** The bridge of a stream that is listened to is the bridge on its own,
    but for the flowing flag. *)
Lemma consumer_run_bridge (evs : list Consumer.Event) (c : Consumer.State) :
  Consumer.bridge (Consumer.run evs c) = run (Consumer.events evs) (Consumer.bridge c) \/
  Consumer.bridge (Consumer.run evs c)
  = Consumer.resume (run (Consumer.events evs) (Consumer.bridge c)).
Proof.
  revert c; induction evs as [|ev evs IH]; intros c; [left; reflexivity|].
  change (Consumer.run (ev :: evs) c) with (Consumer.run evs (Consumer.handle ev c)).
  destruct ev as [ev|].
  - change (Consumer.events (Consumer.Of ev :: evs)) with (ev :: Consumer.events evs).
    change (run (ev :: Consumer.events evs) (Consumer.bridge c))
      with (run (Consumer.events evs) (handle ev (Consumer.bridge c))).
    rewrite <- consumer_handle_bridge. apply IH.
  - change (Consumer.events (Consumer.Attach :: evs)) with (Consumer.events evs).
    assert (B : Consumer.bridge (Consumer.handle Consumer.Attach c)
                = Consumer.resume (Consumer.bridge c)).
    { simpl. destruct (Readable.destroyed _); reflexivity. }
    right. destruct (IH (Consumer.handle Consumer.Attach c)) as [E|E];
      rewrite E, B, run_resume, ?resume_resume; reflexivity.
Qed.

Lemma consumer_run_output (evs : list Consumer.Event) (c : Consumer.State) :
  Readable.output (readable (this (Consumer.bridge (Consumer.run evs c))))
  = Readable.output (readable (this (run (Consumer.events evs) (Consumer.bridge c)))).
Proof.
  destruct (consumer_run_bridge evs c) as [-> | ->]; reflexivity.
Qed.

Lemma run_output (evs : list Event) (st : State) :
  exists l, Readable.output (readable (this (run evs st)))
            = Readable.output (readable (this st)) ++ l.
Proof.
  revert st; induction evs as [|ev evs IH]; intros st; simpl.
  - exists []. rewrite app_nil_r. reflexivity.
  - destruct (handle_output ev st) as (l1 & E1).
    destruct (IH (handle ev st)) as (l2 & E2).
    exists (l1 ++ l2). rewrite E2, E1, app_assoc. reflexivity.
Qed.

Lemma pushed_app (st st' : State) (l : list Buffer) :
  Readable.output (readable (this st'))
  = Readable.output (readable (this st)) ++ l ->
  Consumer.pushed st st' = l.
Proof. unfold Consumer.pushed. intros ->. apply drop_app_length. Qed.

(** One chunk on an accepted socket of a live bridge. *)
Lemma handle_data_pushed (i : nat) (b : Buffer) (st : State) :
  is_Some (tcpSockets (this st) !! i) ->
  Readable.destroyed (readable (this st)) = false ->
  Consumer.pushed st (handle (Data i b) st) = filter (fun b => b <> []) [b] /\
  tcpSockets (this (handle (Data i b) st)) = tcpSockets (this st) /\
  Readable.destroyed (readable (this (handle (Data i b) st))) = false.
Proof.
  intros [sock Hs] Hd. simpl. rewrite Hs. simpl.
  destruct (readable_push_bytes b _ Hd) as [Hd' _].
  split_and!; [|reflexivity|exact Hd'].
  apply pushed_app. simpl. rewrite (readable_push_output b _ Hd). reflexivity.
Qed.

(** Chunks on an accepted socket of a live bridge, by what the consumer
    has done so far. *)
Lemma consumer_data (i : nat) (chunks : list Buffer) (c : Consumer.State) :
  is_Some (tcpSockets (this (Consumer.bridge c)) !! i) ->
  Readable.destroyed (readable (this (Consumer.bridge c))) = false ->
  Readable.destroyed (readable (this (Consumer.bridge
    (Consumer.run (map (fun b => Consumer.Of (Data i b)) chunks) c)))) = false /\
  (Consumer.attached c = true ->
   Consumer.run (map (fun b => Consumer.Of (Data i b)) chunks) c
   = {| Consumer.bridge := run (map (Data i) chunks) (Consumer.bridge c);
        Consumer.attached := true;
        Consumer.buffered := Consumer.buffered c;
        Consumer.delivered :=
          Consumer.delivered c ++ filter (fun b => b <> []) chunks;
        Consumer.discarded := Consumer.discarded c |}) /\
  (Consumer.attached c = false ->
   Readable.flowing (readable (this (Consumer.bridge c))) = false ->
   Consumer.run (map (fun b => Consumer.Of (Data i b)) chunks) c
   = {| Consumer.bridge := run (map (Data i) chunks) (Consumer.bridge c);
        Consumer.attached := false;
        Consumer.buffered :=
          Consumer.buffered c ++ filter (fun b => b <> []) chunks;
        Consumer.delivered := Consumer.delivered c;
        Consumer.discarded := Consumer.discarded c |}) /\
  (Consumer.attached c = false ->
   Readable.flowing (readable (this (Consumer.bridge c))) = true ->
   Consumer.run (map (fun b => Consumer.Of (Data i b)) chunks) c
   = {| Consumer.bridge := run (map (Data i) chunks) (Consumer.bridge c);
        Consumer.attached := false;
        Consumer.buffered := Consumer.buffered c;
        Consumer.delivered := Consumer.delivered c;
        Consumer.discarded :=
          Consumer.discarded c ++ filter (fun b => b <> []) chunks |}).
Proof.
  revert c; induction chunks as [|b chunks IH]; intros c Hs Hd.
  - simpl. rewrite !app_nil_r. destruct c as [st a bu de di]; simpl in *.
    split_and!; [assumption|intros ->; reflexivity..].
  - change (Consumer.run (map (fun b => Consumer.Of (Data i b)) (b :: chunks)) c)
      with (Consumer.run (map (fun b => Consumer.Of (Data i b)) chunks)
              (Consumer.handle (Consumer.Of (Data i b)) c)).
    change (run (map (Data i) (b :: chunks)) (Consumer.bridge c))
      with (run (map (Data i) chunks) (handle (Data i b) (Consumer.bridge c))).
    destruct (handle_data_pushed i b _ Hs Hd) as (P & S & D).
    pose proof (handle_flowing (Data i b) (Consumer.bridge c)) as Fl.
    destruct (IH (Consumer.handle (Consumer.Of (Data i b)) c))
      as (D' & A1 & A2 & A3).
    { rewrite consumer_handle_bridge, S. exact Hs. }
    { rewrite consumer_handle_bridge. exact D. }
    assert (Fi : filter (fun b0 : list Byte.byte => b0 <> []) (b :: chunks)
                 = filter (fun b0 : list Byte.byte => b0 <> []) [b]
                   ++ filter (fun b0 : list Byte.byte => b0 <> []) chunks)
      by (change (b :: chunks) with ([b] ++ chunks); apply filter_app).
    split_and!; [exact D'| | |].
    + intros At. rewrite A1
        by (rewrite (consumer_handle_attached _ _ At); reflexivity).
      rewrite (consumer_handle_attached _ _ At).
      cbn [Consumer.bridge Consumer.buffered Consumer.delivered
           Consumer.discarded].
      rewrite P, Fi, app_assoc. reflexivity.
    + intros At Fw. rewrite A2.
      * rewrite (consumer_handle_paused _ _ At Fw).
        cbn [Consumer.bridge Consumer.buffered Consumer.delivered
             Consumer.discarded].
        rewrite P, Fi, app_assoc. reflexivity.
      * rewrite (consumer_handle_paused _ _ At Fw). reflexivity.
      * rewrite consumer_handle_bridge, Fl. exact Fw.
    + intros At Fw. rewrite A3.
      * rewrite (consumer_handle_unheard _ _ At Fw).
        cbn [Consumer.bridge Consumer.buffered Consumer.delivered
             Consumer.discarded].
        rewrite P, Fi, app_assoc. reflexivity.
      * rewrite (consumer_handle_unheard _ _ At Fw). reflexivity.
      * rewrite consumer_handle_bridge, Fl. exact Fw.
Qed.

Lemma concat_filter_nonempty (chunks : list Buffer) :
  concat (filter (fun b => b <> []) chunks) = concat chunks.
Proof.
  induction chunks as [|[|x b] chunks IH]; simpl; [reflexivity|exact IH|].
  do 2 f_equal. exact IH.
Qed.

(** What a listener keeps hearing: it is attached and has been handed the
    buffer, unless the stream was destroyed before; or the stream is not
    flowing.  Then whatever the bridge pushes is delivered or waits in the
    buffer, in order, and nothing is discarded. *)
Lemma consumer_step_heard (ev : Consumer.Event) (c : Consumer.State) :
  (Consumer.attached c = true /\
   (Consumer.buffered c = [] \/
    Readable.destroyed (readable (this (Consumer.bridge c))) = true)) \/
  (Consumer.attached c = false /\
   Readable.flowing (readable (this (Consumer.bridge c))) = false) ->
  ((Consumer.attached (Consumer.handle ev c) = true /\
    (Consumer.buffered (Consumer.handle ev c) = [] \/
     Readable.destroyed (readable (this (Consumer.bridge (Consumer.handle ev c))))
     = true)) \/
   (Consumer.attached (Consumer.handle ev c) = false /\
    Readable.flowing (readable (this (Consumer.bridge (Consumer.handle ev c))))
    = false)) /\
  Consumer.delivered (Consumer.handle ev c) ++ Consumer.buffered (Consumer.handle ev c)
  = Consumer.delivered c ++ Consumer.buffered c
    ++ Consumer.pushed (Consumer.bridge c) (Consumer.bridge (Consumer.handle ev c)) /\
  Consumer.discarded (Consumer.handle ev c) = Consumer.discarded c.
Proof.
  intros [[At B]|[At Fw]]; destruct ev as [ev|]; simpl; rewrite ?At, ?Fw; simpl.
  - split_and!; [|  |reflexivity].
    + left. split; [reflexivity|]. destruct B as [B|D]; [left; exact B|].
      right. apply handle_destroyed, D.
    + destruct B as [B|D].
      * rewrite B, !app_nil_r. reflexivity.
      * unfold Consumer.pushed. rewrite (handle_destroyed_output ev _ D).
        rewrite drop_all, !app_nil_r. reflexivity.
  - destruct (Readable.destroyed _) eqn:D; simpl.
    + split_and!; [left; split; [reflexivity|right; exact D]| |reflexivity].
      unfold Consumer.pushed. simpl. rewrite drop_all, app_nil_r. reflexivity.
    + split_and!; [left; split; [reflexivity|left; reflexivity]| |reflexivity].
      unfold Consumer.pushed. simpl. rewrite drop_all, !app_nil_r.
      destruct B as [B|B]; [rewrite B, app_nil_r; reflexivity|discriminate].
  - split_and!; [| |reflexivity].
    + right. split; [reflexivity|]. rewrite handle_flowing. exact Fw.
    + rewrite app_assoc. reflexivity.
  - destruct (Readable.destroyed _) eqn:D; simpl.
    + split_and!; [left; split; [reflexivity|right; exact D]| |reflexivity].
      unfold Consumer.pushed. simpl. rewrite drop_all, app_nil_r. reflexivity.
    + split_and!; [left; split; [reflexivity|left; reflexivity]| |reflexivity].
      unfold Consumer.pushed. simpl. rewrite drop_all, !app_nil_r. reflexivity.
Qed.

Lemma consumer_handle_output (ev : Consumer.Event) (c : Consumer.State) :
  exists l,
    Readable.output (readable (this (Consumer.bridge (Consumer.handle ev c))))
    = Readable.output (readable (this (Consumer.bridge c))) ++ l.
Proof.
  destruct ev as [ev|].
  - rewrite consumer_handle_bridge. apply handle_output.
  - exists []. rewrite app_nil_r. simpl.
    destruct (Readable.destroyed _); reflexivity.
Qed.

Lemma consumer_run_heard (evs : list Consumer.Event) (c : Consumer.State) :
  (Consumer.attached c = true /\
   (Consumer.buffered c = [] \/
    Readable.destroyed (readable (this (Consumer.bridge c))) = true)) \/
  (Consumer.attached c = false /\
   Readable.flowing (readable (this (Consumer.bridge c))) = false) ->
  Consumer.delivered (Consumer.run evs c) ++ Consumer.buffered (Consumer.run evs c)
  = Consumer.delivered c ++ Consumer.buffered c
    ++ Consumer.pushed (Consumer.bridge c) (Consumer.bridge (Consumer.run evs c)) /\
  Consumer.discarded (Consumer.run evs c) = Consumer.discarded c /\
  exists l,
    Readable.output (readable (this (Consumer.bridge (Consumer.run evs c))))
    = Readable.output (readable (this (Consumer.bridge c))) ++ l.
Proof.
  revert c; induction evs as [|ev evs IH]; intros c I.
  - simpl. unfold Consumer.pushed. rewrite drop_all, app_nil_r.
    split_and!; try reflexivity. exists []. rewrite app_nil_r. reflexivity.
  - change (Consumer.run (ev :: evs) c)
      with (Consumer.run evs (Consumer.handle ev c)).
    destruct (consumer_step_heard ev c I) as (I' & E1 & D1).
    destruct (consumer_handle_output ev c) as (l1 & O1).
    destruct (IH _ I') as (E2 & D2 & l2 & O2).
    rewrite E2, D2, D1.
    rewrite (pushed_app _ _ l2 O2).
    assert (O : Readable.output (readable (this (Consumer.bridge
                  (Consumer.run evs (Consumer.handle ev c)))))
                = Readable.output (readable (this (Consumer.bridge c)))
                  ++ (l1 ++ l2))
      by (rewrite O2, O1, app_assoc; reflexivity).
    rewrite (pushed_app _ _ (l1 ++ l2) O).
    rewrite (app_assoc (Consumer.delivered (Consumer.handle ev c))), E1.
    rewrite (pushed_app _ _ l1 O1).
    split_and!; [|reflexivity|eauto].
    rewrite <- !app_assoc. reflexivity.
Qed.

End ConsumerFacts.

(** C9, as the code has it.  On a bridge that has not been destroyed, the
    chunks b1, b2, b3 arriving on an accepted socket are pushed into the
    output in this order, none left out, whatever else happens to the bridge
    in between and wherever the chunk boundaries fall.  A consumer that is
    listening when they arrive is handed exactly these chunks, in order.  So
    is, once it listens, a consumer of a stream that is not flowing
    (created with [immediateResume = false]): the chunks wait in the buffer.
    But on a stream that is flowing (the default) chunks that arrive while
    nobody listens are discarded, and a consumer that listens later never
    sees them. *)
Theorem chunks_are_forwarded_in_order
    (c : Consumer.State) (i : nat) (b1 b2 b3 : Buffer) :
  is_Some (Bridge.tcpSockets (Bridge.this (Consumer.bridge c)) !! i) ->
  Readable.destroyed (Bridge.readable (Bridge.this (Consumer.bridge c))) = false ->
  Bridge.bytes (Bridge.run [Bridge.Data i b1; Bridge.Data i b2; Bridge.Data i b3]
                  (Consumer.bridge c))
    = Bridge.bytes (Consumer.bridge c) ++ b1 ++ b2 ++ b3 /\
  Readable.output (Bridge.readable (Bridge.this
      (Bridge.run [Bridge.Data i b1; Bridge.Data i b2; Bridge.Data i b3]
         (Consumer.bridge c))))
    = Readable.output (Bridge.readable (Bridge.this (Consumer.bridge c)))
      ++ filter (fun b => b <> []) [b1; b2; b3] /\
  (forall chunks : list Buffer,
     Bridge.bytes (Bridge.run (map (Bridge.Data i) chunks) (Consumer.bridge c))
       = Bridge.bytes (Consumer.bridge c) ++ concat chunks) /\
  (forall chunks chunks' : list Buffer,
     concat chunks = concat chunks' ->
     Bridge.bytes (Bridge.run (map (Bridge.Data i) chunks) (Consumer.bridge c))
       = Bridge.bytes (Bridge.run (map (Bridge.Data i) chunks') (Consumer.bridge c))) /\
  (forall evs : list Bridge.Event,
     Readable.destroyed
       (Bridge.readable (Bridge.this (Bridge.run evs (Consumer.bridge c)))) = false ->
     Bridge.bytes (Bridge.run evs (Consumer.bridge c))
       = Bridge.bytes (Consumer.bridge c)
         ++ concat (Bridge.received
                      (Net.listening (Bridge.tcpServer (Bridge.this (Consumer.bridge c))))
                      (length (Bridge.tcpSockets (Bridge.this (Consumer.bridge c))))
                      evs)) /\
  (Consumer.attached c = true ->
     Consumer.delivered
       (Consumer.run [Consumer.Of (Bridge.Data i b1); Consumer.Of (Bridge.Data i b2);
                      Consumer.Of (Bridge.Data i b3)] c)
       = Consumer.delivered c ++ filter (fun b => b <> []) [b1; b2; b3] /\
     Consumer.seen
       (Consumer.run [Consumer.Of (Bridge.Data i b1); Consumer.Of (Bridge.Data i b2);
                      Consumer.Of (Bridge.Data i b3)] c)
       = Consumer.seen c ++ b1 ++ b2 ++ b3 /\
     Consumer.discarded
       (Consumer.run [Consumer.Of (Bridge.Data i b1); Consumer.Of (Bridge.Data i b2);
                      Consumer.Of (Bridge.Data i b3)] c)
       = Consumer.discarded c) /\
  (Consumer.attached c = false ->
   Readable.flowing (Bridge.readable (Bridge.this (Consumer.bridge c))) = false ->
     Consumer.buffered
       (Consumer.run [Consumer.Of (Bridge.Data i b1); Consumer.Of (Bridge.Data i b2);
                      Consumer.Of (Bridge.Data i b3)] c)
       = Consumer.buffered c ++ filter (fun b => b <> []) [b1; b2; b3] /\
     Consumer.discarded
       (Consumer.run [Consumer.Of (Bridge.Data i b1); Consumer.Of (Bridge.Data i b2);
                      Consumer.Of (Bridge.Data i b3)] c)
       = Consumer.discarded c /\
     Consumer.seen
       (Consumer.run [Consumer.Of (Bridge.Data i b1); Consumer.Of (Bridge.Data i b2);
                      Consumer.Of (Bridge.Data i b3); Consumer.Attach] c)
       = Consumer.seen c ++ concat (Consumer.buffered c) ++ b1 ++ b2 ++ b3) /\
  (Consumer.attached c = false ->
   Readable.flowing (Bridge.readable (Bridge.this (Consumer.bridge c))) = true ->
     Consumer.discarded
       (Consumer.run [Consumer.Of (Bridge.Data i b1); Consumer.Of (Bridge.Data i b2);
                      Consumer.Of (Bridge.Data i b3)] c)
       = Consumer.discarded c ++ filter (fun b => b <> []) [b1; b2; b3] /\
     Consumer.seen
       (Consumer.run [Consumer.Of (Bridge.Data i b1); Consumer.Of (Bridge.Data i b2);
                      Consumer.Of (Bridge.Data i b3); Consumer.Attach] c)
       = Consumer.seen c ++ concat (Consumer.buffered c)) /\
  (Consumer.heard c ->
   forall evs : list Consumer.Event,
     Consumer.discarded (Consumer.run evs c) = Consumer.discarded c /\
     Consumer.delivered (Consumer.run evs c) ++ Consumer.buffered (Consumer.run evs c)
       = Consumer.delivered c ++ Consumer.buffered c
         ++ Consumer.pushed (Consumer.bridge c)
              (Bridge.run (Consumer.events evs) (Consumer.bridge c)) /\
     (Readable.destroyed
        (Bridge.readable (Bridge.this
           (Bridge.run (Consumer.events evs) (Consumer.bridge c)))) = false ->
      concat (Consumer.delivered (Consumer.run evs c)
              ++ Consumer.buffered (Consumer.run evs c))
        = concat (Consumer.delivered c ++ Consumer.buffered c)
          ++ concat (Bridge.received
                       (Net.listening (Bridge.tcpServer (Bridge.this (Consumer.bridge c))))
                       (length (Bridge.tcpSockets (Bridge.this (Consumer.bridge c))))
                       (Consumer.events evs)))).
Proof.
  intros Hs Hd.
  assert (G : forall chunks : list Buffer,
             Bridge.bytes (Bridge.run (map (Bridge.Data i) chunks) (Consumer.bridge c))
             = Bridge.bytes (Consumer.bridge c) ++ concat chunks)
    by (intros chunks; apply run_data; assumption).
  destruct (consumer_data i [b1; b2; b3] c Hs Hd) as (D3 & A1 & A2 & A3).
  assert (C3 : concat (filter (fun b : list Byte.byte => b <> []) [b1; b2; b3])
               = b1 ++ b2 ++ b3)
    by (etransitivity; [apply (concat_filter_nonempty [b1; b2; b3])|];
        simpl; rewrite app_nil_r; reflexivity).
  split_and!.
  - change [Bridge.Data i b1; Bridge.Data i b2; Bridge.Data i b3]
      with (map (Bridge.Data i) [b1; b2; b3]).
    rewrite G. simpl. rewrite app_nil_r. reflexivity.
  - change [Bridge.Data i b1; Bridge.Data i b2; Bridge.Data i b3]
      with (map (Bridge.Data i) [b1; b2; b3]).
    apply run_data_output; assumption.
  - exact G.
  - intros chunks chunks' E. rewrite !G, E. reflexivity.
  - intros evs. apply run_forwards_received.
  - intros At.
    change [Consumer.Of (Bridge.Data i b1); Consumer.Of (Bridge.Data i b2);
            Consumer.Of (Bridge.Data i b3)]
      with (map (fun b => Consumer.Of (Bridge.Data i b)) [b1; b2; b3]).
    rewrite (A1 At). unfold Consumer.seen. cbn [Consumer.delivered Consumer.discarded].
    rewrite concat_app, C3. auto.
  - intros At Fw.
    change [Consumer.Of (Bridge.Data i b1); Consumer.Of (Bridge.Data i b2);
            Consumer.Of (Bridge.Data i b3); Consumer.Attach]
      with (map (fun b => Consumer.Of (Bridge.Data i b)) [b1; b2; b3]
            ++ [Consumer.Attach]).
    change [Consumer.Of (Bridge.Data i b1); Consumer.Of (Bridge.Data i b2);
            Consumer.Of (Bridge.Data i b3)]
      with (map (fun b => Consumer.Of (Bridge.Data i b)) [b1; b2; b3]).
    unfold Consumer.run at 3. rewrite fold_left_app.
    fold (Consumer.run (map (fun b => Consumer.Of (Bridge.Data i b)) [b1; b2; b3]) c).
    pose proof D3 as D3'. rewrite (A2 At Fw) in D3' |- *.
    cbn [Consumer.bridge] in D3'.
    cbn [Consumer.buffered Consumer.discarded]. split_and!; try reflexivity.
    cbn [fold_left]. unfold Consumer.handle. cbn [Consumer.bridge].
    rewrite D3'.
    unfold Consumer.seen. cbn [Consumer.delivered Consumer.buffered].
    rewrite !concat_app, C3. reflexivity.
  - intros At Fw.
    change [Consumer.Of (Bridge.Data i b1); Consumer.Of (Bridge.Data i b2);
            Consumer.Of (Bridge.Data i b3); Consumer.Attach]
      with (map (fun b => Consumer.Of (Bridge.Data i b)) [b1; b2; b3]
            ++ [Consumer.Attach]).
    change [Consumer.Of (Bridge.Data i b1); Consumer.Of (Bridge.Data i b2);
            Consumer.Of (Bridge.Data i b3)]
      with (map (fun b => Consumer.Of (Bridge.Data i b)) [b1; b2; b3]).
    unfold Consumer.run at 2. rewrite fold_left_app.
    fold (Consumer.run (map (fun b => Consumer.Of (Bridge.Data i b)) [b1; b2; b3]) c).
    pose proof D3 as D3'. rewrite (A3 At Fw) in D3' |- *.
    cbn [Consumer.bridge] in D3'.
    cbn [Consumer.discarded]. split_and!; try reflexivity.
    cbn [fold_left]. unfold Consumer.handle. cbn [Consumer.bridge].
    rewrite D3'.
    unfold Consumer.seen. cbn [Consumer.delivered Consumer.buffered].
    rewrite !concat_app. reflexivity.
  - intros Hh evs.
    assert (I : (Consumer.attached c = true /\
                 (Consumer.buffered c = [] \/
                  Readable.destroyed
                    (Bridge.readable (Bridge.this (Consumer.bridge c))) = true)) \/
                (Consumer.attached c = false /\
                 Readable.flowing
                   (Bridge.readable (Bridge.this (Consumer.bridge c))) = false)).
    { destruct Hh as [[At B]|[At Fw]]; [left|right]; auto. }
    destruct (consumer_run_heard evs c I) as (E & Di & _).
    assert (P : Consumer.pushed (Consumer.bridge c)
                  (Consumer.bridge (Consumer.run evs c))
                = Consumer.pushed (Consumer.bridge c)
                    (Bridge.run (Consumer.events evs) (Consumer.bridge c)))
      by (unfold Consumer.pushed; rewrite consumer_run_output; reflexivity).
    rewrite P in E. split_and!; [exact Di|exact E|].
    intros Dn. rewrite E, app_assoc, concat_app. f_equal.
    destruct (run_output (Consumer.events evs) (Consumer.bridge c)) as (l & O).
    rewrite (pushed_app _ _ l O).
    pose proof (run_forwards_received (Consumer.events evs) (Consumer.bridge c) Dn)
      as R.
    unfold Bridge.bytes, Readable.bytes in R. rewrite O, concat_app in R.
    apply app_inv_head in R. exact R.
Qed.

Lemma chunks_are_forwarded_in_order_witness :
  Consumer.seen
    (Consumer.run [Consumer.Of (Bridge.Data 0 [Byte.x01]);
                   Consumer.Of (Bridge.Data 0 [Byte.x02; Byte.x03]);
                   Consumer.Of (Bridge.Data 0 [Byte.x04])]
       (Consumer.run [Consumer.Attach; Consumer.Of Bridge.Connection]
          (Consumer.start Bridge.first_bridge)))
  = [Byte.x01; Byte.x02; Byte.x03; Byte.x04].
Proof.
  refine (proj1 (proj2 (proj1 (proj2 (proj2 (proj2 (proj2 (proj2
            (chunks_are_forwarded_in_order
               (Consumer.run [Consumer.Attach; Consumer.Of Bridge.Connection]
                  (Consumer.start Bridge.first_bridge)) 0
               [Byte.x01] [Byte.x02; Byte.x03] [Byte.x04] _ _)))))) eq_refl))).
  - simpl. eexists. reflexivity.
  - reflexivity.
Defined.

(** C9, refuted as stated: the first bridge of a process, built with the
    default options, so that its stream is flowing from the start.  A peer
    connects and the chunk b1 arrives before the consumer listens; b2 and b3
    arrive after.  The bridge has pushed all three, but the consumer sees
    only b2 and b3: b1 was emitted to nobody. *)
Lemma chunk_before_the_consumer_listens_is_lost :
  Readable.flowing (Bridge.readable (Bridge.this Bridge.first_bridge)) = true /\
  Readable.output (Bridge.readable (Bridge.this (Consumer.bridge
      (Consumer.run [Consumer.Of Bridge.Connection;
                     Consumer.Of (Bridge.Data 0 [Byte.x01]);
                     Consumer.Attach;
                     Consumer.Of (Bridge.Data 0 [Byte.x02]);
                     Consumer.Of (Bridge.Data 0 [Byte.x03])]
         (Consumer.start Bridge.first_bridge)))))
    = [[Byte.x01]; [Byte.x02]; [Byte.x03]] /\
  Consumer.seen
      (Consumer.run [Consumer.Of Bridge.Connection;
                     Consumer.Of (Bridge.Data 0 [Byte.x01]);
                     Consumer.Attach;
                     Consumer.Of (Bridge.Data 0 [Byte.x02]);
                     Consumer.Of (Bridge.Data 0 [Byte.x03])]
         (Consumer.start Bridge.first_bridge))
    = [Byte.x02; Byte.x03] /\
  Consumer.discarded
      (Consumer.run [Consumer.Of Bridge.Connection;
                     Consumer.Of (Bridge.Data 0 [Byte.x01]);
                     Consumer.Attach;
                     Consumer.Of (Bridge.Data 0 [Byte.x02]);
                     Consumer.Of (Bridge.Data 0 [Byte.x03])]
         (Consumer.start Bridge.first_bridge))
    = [[Byte.x01]].
Proof. split_and!; reflexivity. Qed.

Section SessionFacts.

Import Session.

Ltac run_monad :=
  unfold getStream, gate, start, allocate, prologue, getExtensionPage,
    bind, ret, throw, await, emit, deref, assign, next_index, construct in *;
  simpl in *.

Lemma getExtensionPage_frame (env : Env) (w : World) :
  (getExtensionPage env w).2 = w.
Proof.
  run_monad. destruct (waitForTarget env) as [|[|]]; simpl; auto.
  destruct (targetPage env) as [|[|]]; simpl; auto.
Qed.

(** A call is the schedule of its own segments, and the stream it returns
    is the one its allocation segment built. *)
Lemma getStream_schedule (env : Env) (opts : nat) (w : World) :
  (schedule (call_segments env opts w) w).2 = (getStream env opts w).2 /\
  forall r, (getStream env opts w).1 = inr r ->
    exists a, (schedule (call_segments env opts w) w).1 = [a] /\ stream a = r.
Proof.
  remember (getStream env opts w) as g eqn:Eg.
  unfold call_segments. unfold getStream in Eg.
  unfold bind at 1 in Eg. simpl.
  destruct (prologue opts w) as [[e|rp] w1] eqn:P; simpl.
  { subst g. split; [reflexivity|discriminate]. }
  unfold bind at 1 in Eg.
  pose proof (getExtensionPage_frame env w1) as X.
  destruct (getExtensionPage env w1) as [[e|[]] w2] eqn:G; simpl in X; subst w2;
    simpl.
  { subst g. split; [reflexivity|discriminate]. }
  unfold bind at 1 in Eg.
  destruct (allocate opts w1) as [[e|a] w3] eqn:A; simpl.
  { subst g. split; [reflexivity|discriminate]. }
  unfold bind at 1, emit at 1 in Eg. unfold bind at 1, await at 1 in Eg.
  destruct (bringToFront env) as [e|[]]; simpl.
  { subst g. split; [reflexivity|discriminate]. }
  unfold bind at 1, gate, bind at 1, emit at 1, await at 1 in Eg.
  cbv beta iota in Eg.
  destruct (Gate.assertExtensionLoaded (probe env) rp) as [[e|[]] tr]; simpl in *.
  { subst g. split; [reflexivity|discriminate]. }
  unfold bind in Eg.
  destruct (start env opts (index a) _) as [[e|[]] w5]; subst g; simpl.
  { split; [reflexivity|discriminate]. }
  split; [reflexivity|]. intros r E; inversion E; subst. eauto.
Qed.

Lemma schedule_app (sgs1 sgs2 : list Segment) (w : World) :
  schedule (sgs1 ++ sgs2) w
  = ((schedule sgs1 w).1 ++ (schedule sgs2 (schedule sgs1 w).2).1,
     (schedule sgs2 (schedule sgs1 w).2).2).
Proof.
  revert w; induction sgs1 as [|sg sgs1 IH]; intros w; simpl.
  { destruct (schedule sgs2 w); reflexivity. }
  destruct (segment sg w) as [a w']. rewrite IH.
  destruct (schedule sgs1 w') as [l1 w1]. simpl.
  destruct a; reflexivity.
Qed.

(** The allocation segment: the counter is read and incremented in one
    step, and the port is the base port plus the index read. *)
Lemma allocate_ok (opts : nat) (w w' : World) (a : Allocation) :
  allocate opts w = (inr a, w') ->
  index a = currentIndex w /\
  currentIndex w' = currentIndex w + 1 /\
  port a = base a + index a /\
  (exists o, heap w !! opts = Some o /\ base a = basePort_of o) /\
  heap w' = heap w /\
  trace w' = trace w /\
  stream a = length (streams w) /\
  exists s,
    streams w' = streams w ++ [s] /\
    Bridge.port (Bridge.opts s) = port a /\
    Bridge.onDestroy (Bridge.opts s) = Some (index a) /\
    Readable.destroyed (Bridge.readable s) = false /\
    Net.listening (Bridge.tcpServer s) = negb (bool_decide (port a ∈ ports w)) /\
    ports w' = (if bool_decide (port a ∈ ports w) then ports w
                else {[port a]} ∪ ports w).
Proof.
  run_monad. destruct (heap w !! opts) as [o|] eqn:H; [|discriminate].
  unfold Bridge.new, Net.listen. simpl.
  destruct ((0 <=? basePort_of o + currentIndex w)
            && (basePort_of o + currentIndex w <? 65536)); [|discriminate].
  destruct (bool_decide (basePort_of o + currentIndex w ∈ ports w)) eqn:B;
    simpl; intros E; inversion E; subst; clear E; simpl; rewrite ?B;
    (split_and!; eauto; eexists; split_and!; eauto);
    destruct (Js.nullish _ _); reflexivity.
Qed.

Lemma allocate_counter (opts : nat) (w : World) :
  currentIndex w <= currentIndex (allocate opts w).2.
Proof.
  run_monad. destruct (heap w !! opts) as [o|]; simpl; [|lia].
  destruct (Bridge.new _ _) as [e|[s ps]]; simpl; lia.
Qed.

Lemma prologue_frame (opts : nat) (w : World) :
  currentIndex (prologue opts w).2 = currentIndex w /\
  streams (prologue opts w).2 = streams w /\
  ports (prologue opts w).2 = ports w /\
  trace (prologue opts w).2 = trace w.
Proof.
  run_monad. destruct (heap w !! opts) as [o|]; simpl; auto.
  destruct (negb (audio o) && negb (video o)); simpl; auto.
Qed.

Lemma start_frame (env : Env) (opts : nat) (i : Z) (w : World) :
  currentIndex (start env opts i w).2 = currentIndex w /\
  heap (start env opts i w).2 = heap w /\
  streams (start env opts i w).2 = streams w /\
  ports (start env opts i w).2 = ports w.
Proof. run_monad. destruct (heap w !! opts) as [o|]; simpl; auto. Qed.

(** No segment lowers the counter; one that allocates hands out the
    value it read and leaves the counter one higher. *)
Lemma segment_counter (sg : Segment) (w : World) :
  currentIndex w <= currentIndex (segment sg w).2 /\
  forall a, (segment sg w).1 = Some a ->
    index a = currentIndex w /\
    currentIndex (segment sg w).2 = currentIndex w + 1 /\
    port a = base a + index a.
Proof.
  destruct sg as [opts|opts|tr|env opts i|opts o]; simpl.
  - destruct (prologue_frame opts w) as [-> _]. split; [lia|discriminate].
  - pose proof (allocate_counter opts w) as C.
    destruct (allocate opts w) as [[e|a] w'] eqn:A; simpl in *.
    + split; [lia|discriminate].
    + split; [lia|]. intros a' E; inversion E; subst.
      destruct (allocate_ok _ _ _ _ A) as (? & ? & ? & _). auto.
  - split; [lia|discriminate].
  - destruct (start_frame env opts i w) as [-> _]. split; [lia|discriminate].
  - split; [lia|discriminate].
Qed.

Lemma schedule_cons (sg : Segment) (sgs : list Segment) (w : World) :
  schedule (sg :: sgs) w
  = (match (segment sg w).1 with
     | Some x => x :: (schedule sgs (segment sg w).2).1
     | None => (schedule sgs (segment sg w).2).1
     end,
     (schedule sgs (segment sg w).2).2).
Proof.
  simpl. destruct (segment sg w) as [a w']. simpl.
  destruct (schedule sgs w') as [l w'']. reflexivity.
Qed.

Lemma schedule_bounds (sgs : list Segment) (w : World) :
  currentIndex w <= currentIndex (schedule sgs w).2 /\
  Forall (fun a => currentIndex w <= index a < currentIndex (schedule sgs w).2
                   /\ port a = base a + index a)
         (schedule sgs w).1.
Proof.
  revert w; induction sgs as [|sg sgs IH]; intros w.
  - simpl. split; [lia|constructor].
  - rewrite schedule_cons. simpl.
    destruct (segment_counter sg w) as [C A].
    destruct (IH (segment sg w).2) as [C' F].
    split; [lia|].
    assert (F' : Forall
              (fun a => currentIndex w <= index a
                          < currentIndex (schedule sgs (segment sg w).2).2
                        /\ port a = base a + index a)
              (schedule sgs (segment sg w).2).1).
    { eapply Forall_impl; [exact F|]. simpl. intros a [? ?]. split; [lia|auto]. }
    destruct (segment sg w).1 as [x|]; [|exact F'].
    constructor; [|exact F'].
    destruct (A x eq_refl) as (? & ? & ?). split; [lia|assumption].
Qed.

Lemma schedule_increasing (sgs : list Segment) (w : World)
    (i j : nat) (a b : Allocation) :
  (i < j)%nat ->
  (schedule sgs w).1 !! i = Some a ->
  (schedule sgs w).1 !! j = Some b ->
  index a < index b.
Proof.
  revert w i j; induction sgs as [|sg sgs IH]; intros w i j Hij.
  - simpl. intros H; discriminate.
  - rewrite schedule_cons. simpl.
    destruct (segment_counter sg w) as [C A].
    destruct (segment sg w).1 as [x|]; [|apply IH; assumption].
    destruct j as [|j]; [lia|]. destruct i as [|i]; simpl.
    + intros E Hb; inversion E; subst.
      destruct (A a eq_refl) as (Ia & Ic & _).
      destruct (schedule_bounds sgs (segment sg w).2) as [_ F].
      rewrite Forall_forall in F.
      destruct (F b) as [[? ?] _]; [|lia].
      apply list_elem_of_lookup. eauto.
    + apply IH. lia.
Qed.

Lemma allocate_heap (opts : nat) (w : World) :
  heap (allocate opts w).2 = heap w /\ trace (allocate opts w).2 = trace w.
Proof.
  run_monad. destruct (heap w !! opts) as [o|]; simpl; auto.
  destruct (Bridge.new _ _) as [e|[s ps]]; simpl; auto.
Qed.

(** After its first segment a call does not write to the heap. *)
Lemma getStream_heap (env : Env) (opts : nat) (w : World) :
  heap (getStream env opts w).2 = heap (prologue opts w).2.
Proof.
  unfold getStream.
  unfold bind at 1. destruct (prologue opts w) as [[e|rp] w1]; simpl.
  { reflexivity. }
  unfold bind at 1. pose proof (getExtensionPage_frame env w1) as X.
  destruct (getExtensionPage env w1) as [[e|[]] w2]; simpl in X; subst w2; simpl.
  { reflexivity. }
  unfold bind at 1. destruct (allocate_heap opts w1) as [Hh _].
  destruct (allocate opts w1) as [[e|a] w3]; simpl in *; rewrite <- Hh.
  { reflexivity. }
  unfold bind at 1. simpl. unfold bind at 1. unfold await at 1.
  destruct (bringToFront env) as [e|[]]; simpl.
  { reflexivity. }
  unfold gate, bind, emit, await. simpl.
  destruct (Gate.assertExtensionLoaded (probe env) rp) as [[e|[]] tr]; simpl.
  { reflexivity. }
  match goal with |- context [start env opts ?i ?w0] =>
    destruct (start_frame env opts i w0) as (_ & Hs & _);
    destruct (start env opts i w0) as [[e|[]] w5] end; simpl in *; exact Hs.
Qed.

(** The defaults touch [mimeType] and [frameSize] only. *)
Lemma defaults_frame (o : getStreamOptions) :
  let o' := default_frameSize (default_mimeType o) in
  audio o' = audio o /\ video o' = video o /\
  videoConstraints o' = videoConstraints o /\
  audioConstraints o' = audioConstraints o /\
  audioBitsPerSecond o' = audioBitsPerSecond o /\
  videoBitsPerSecond o' = videoBitsPerSecond o /\
  bitsPerSecond o' = bitsPerSecond o /\
  delay o' = delay o /\
  retry o' = retry o /\
  transmission o' = transmission o /\
  streamConfig o' = streamConfig o.
Proof.
  cbv zeta. unfold default_frameSize, default_mimeType.
  destruct (mimeType o); [|destruct (video o) eqn:V; [|destruct (audio o) eqn:A]];
    simpl; destruct (Js.truthy_number (frameSize o)); simpl;
    rewrite ?V, ?A; split_and!; reflexivity.
Qed.

Lemma count_app (p : Effect -> bool) (a b : list Effect) :
  count p (a ++ b) = (count p a + count p b)%nat.
Proof. induction a as [|x a IH]; simpl; [reflexivity|]. rewrite IH. lia. Qed.

End SessionFacts.

(** C8.  When neither audio nor video is requested, [getStream] rejects
    with the configuration error in its first segment, whatever the browser
    would have answered: the process is left exactly as it was, so the
    counter, the ports, the streams and the caller's object are unchanged
    and nothing was asked of the control channel. *)
Theorem getStream_rejects_without_audio_and_video
    (env : Session.Env) (opts : nat) (w : Session.World) (o : getStreamOptions) :
  Session.heap w !! opts = Some o ->
  audio o = false ->
  video o = false ->
  Session.getStream env opts w = (inl Session.config_error, w) /\
  Session.call_segments env opts w = [Session.SPrologue opts].
Proof.
  intros H A V.
  unfold Session.call_segments, Session.getStream, Session.prologue,
    Session.bind, Session.deref, Session.throw.
  rewrite H, A, V. simpl. auto.
Qed.

Lemma getStream_rejects_without_audio_and_video_witness :
  Session.getStream Session.ready 0
    (Session.boot {[ 0%nat := Session.nothing_requested ]})
  = (inl Session.config_error,
     Session.boot {[ 0%nat := Session.nothing_requested ]}).
Proof.
  exact (proj1 (getStream_rejects_without_audio_and_video Session.ready 0
                  (Session.boot {[ 0%nat := Session.nothing_requested ]})
                  Session.nothing_requested eq_refl eq_refl eq_refl)).
Defined.

(** C10.  When audio or video is requested, [getStream] writes the defaults
    into the very object the caller passed, however the call ends: an unset
    [mimeType] becomes "video/webm" when [video] is true and "audio/webm"
    otherwise, an unset [frameSize] becomes 20, every other property of the
    object keeps its value, and no other object is written. *)
Theorem getStream_fills_defaults_in_place
    (env : Session.Env) (opts : nat) (w : Session.World) (o : getStreamOptions) :
  Session.heap w !! opts = Some o ->
  audio o || video o = true ->
  exists o',
    Session.heap (Session.getStream env opts w).2 !! opts = Some o' /\
    (mimeType o = None ->
     mimeType o' = Some (if video o then video_webm else audio_webm)) /\
    (forall m, mimeType o = Some m -> mimeType o' = Some m) /\
    (frameSize o = None -> frameSize o' = Some 20) /\
    (forall n, frameSize o = Some n -> n <> 0 -> frameSize o' = Some n) /\
    audio o' = audio o /\ video o' = video o /\
    videoConstraints o' = videoConstraints o /\
    audioConstraints o' = audioConstraints o /\
    audioBitsPerSecond o' = audioBitsPerSecond o /\
    videoBitsPerSecond o' = videoBitsPerSecond o /\
    bitsPerSecond o' = bitsPerSecond o /\
    delay o' = delay o /\
    retry o' = retry o /\
    transmission o' = transmission o /\
    streamConfig o' = streamConfig o /\
    (forall other, other <> opts ->
       Session.heap (Session.getStream env opts w).2 !! other
       = Session.heap w !! other).
Proof.
  intros H AV. rewrite getStream_heap.
  unfold Session.prologue, Session.bind, Session.deref, Session.assign,
    Session.throw, Session.ret.
  rewrite H.
  assert (G : negb (audio o) && negb (video o) = false)
    by (destruct (audio o), (video o); try reflexivity; discriminate).
  rewrite G. simpl.
  exists (Session.default_frameSize (Session.default_mimeType o)).
  split; [apply lookup_insert_eq|].
  pose proof (defaults_frame o) as F. simpl in F.
  destruct F as (? & ? & ? & ? & ? & ? & ? & ? & ? & ? & ?).
  split_and!; try assumption.
  - intros M. unfold Session.default_frameSize, Session.default_mimeType.
    rewrite M. destruct (video o) eqn:V, (audio o) eqn:A; try discriminate;
      simpl; destruct (Js.truthy_number (frameSize o)); reflexivity.
  - intros m M. unfold Session.default_frameSize, Session.default_mimeType.
    rewrite M. destruct (Js.truthy_number (frameSize o)); simpl; assumption.
  - intros Fs. unfold Session.default_frameSize, Session.default_mimeType.
    destruct (mimeType o), (video o), (audio o); simpl; rewrite Fs; reflexivity.
  - intros n Fs Hn. unfold Session.default_frameSize, Session.default_mimeType.
    assert (T : Js.truthy_number (Some n) = true)
      by (simpl; apply negb_true_iff, Z.eqb_neq; assumption).
    destruct (mimeType o), (video o), (audio o); simpl; rewrite Fs, T;
      simpl; assumption.
  - intros other Hne. apply lookup_insert_ne. congruence.
Qed.

Lemma getStream_fills_defaults_in_place_witness :
  exists o',
    Session.heap (Session.getStream Session.never_ready 0
                    (Session.boot {[ 0%nat := Session.video_only ]})).2 !! 0%nat
    = Some o' /\
    mimeType o' = Some video_webm /\ frameSize o' = Some 20.
Proof.
  assert (H : Session.heap (Session.boot {[ 0%nat := Session.video_only ]}) !! 0%nat
              = Some Session.video_only) by reflexivity.
  destruct (getStream_fills_defaults_in_place Session.never_ready 0
              (Session.boot {[ 0%nat := Session.video_only ]})
              Session.video_only H eq_refl)
    as (o' & L & M & _ & F & _).
  exists o'. split; [exact L|]. split; [exact (M eq_refl) | exact (F eq_refl)].
Defined.




(** * Further properties of the readiness gate *)

Section GateRuns.

Import Gate.

Variable probe : Probe.
Variable e : Z.

Lemma waits_app (a b : list Effect) : waits (a ++ b) = waits a ++ waits b.
Proof.
  induction a as [|x a IH]; simpl; [reflexivity|].
  destruct x; simpl; rewrite IH; reflexivity.
Qed.

Lemma rounds_S (c k : nat) :
  rounds e c (S k) = EProbe :: EWait (Js.pow e c) :: rounds e (S c) k.
Proof. reflexivity. Qed.

Lemma rounds_probes (c k : nat) : count is_probe (rounds e c k) = k.
Proof.
  revert c; induction k as [|k IH]; intros c; [reflexivity|].
  rewrite rounds_S. simpl. rewrite IH. reflexivity.
Qed.

Lemma rounds_waits (c k : nat) :
  waits (rounds e c k) = map (Js.pow e) (seq c k).
Proof.
  revert c; induction k as [|k IH]; intros c; [reflexivity|].
  rewrite rounds_S. simpl. rewrite IH. reflexivity.
Qed.

Lemma rounds_quiet (c k : nat) :
  count is_start (rounds e c k) = O /\ count is_stop (rounds e c k) = O.
Proof.
  revert c; induction k as [|k IH]; intros c; [auto|].
  rewrite rounds_S. simpl. apply IH.
Qed.

(** As long as the probe answers false the loop goes round. *)
Lemma loop_false_rounds (n c k : nat) :
  (forall j, (j < k)%nat -> probe (c + j)%nat = inr false) ->
  loop probe e (k + n)%nat c
  = ((loop probe e n (c + k)%nat).1, rounds e c k ++ (loop probe e n (c + k)%nat).2).
Proof.
  revert c; induction k as [|k IH]; intros c H.
  - simpl. rewrite Nat.add_0_r. destruct (loop probe e n c); reflexivity.
  - rewrite rounds_S. simpl.
    pose proof (H 0%nat ltac:(lia)) as H0. rewrite Nat.add_0_r in H0.
    rewrite H0, IH.
    + replace (S c + k)%nat with (c + S k)%nat by lia. reflexivity.
    + intros j Hj. replace (S c + j)%nat with (c + S j)%nat by lia.
      apply H. lia.
Qed.

(** A successful run has seen the capability. *)
Lemma loop_success (n c : nat) :
  (loop probe e n c).1 = inr tt ->
  exists k, (k < n)%nat /\ probe (c + k)%nat = inr true /\
            forall j, (j < k)%nat -> probe (c + j)%nat = inr false.
Proof.
  revert c; induction n as [|n IH]; intros c; simpl; [discriminate|].
  destruct (probe c) as [err|[|]] eqn:P; simpl.
  - discriminate.
  - intros _. exists 0%nat. rewrite Nat.add_0_r.
    split_and!; [lia|assumption|intros; lia].
  - specialize (IH (S c)). destruct (loop probe e n (S c)) as [r tr].
    simpl in *. intros R. destruct (IH R) as (k & Hk & Pk & Fk).
    exists (S k). replace (c + S k)%nat with (S c + k)%nat by lia.
    split_and!; [lia|assumption|].
    intros [|j] Hj; [rewrite Nat.add_0_r; assumption|].
    replace (c + S j)%nat with (S c + j)%nat by lia. apply Fk. lia.
Qed.

(** Whatever the probe answers, the waits follow the backoff schedule and
    each comes after a probe of its own. *)
Lemma loop_backoff (n c : nat) :
  waits (loop probe e n c).2
    = map (Js.pow e) (seq c (length (waits (loop probe e n c).2))) /\
  (length (waits (loop probe e n c).2) <= count is_probe (loop probe e n c).2)%nat.
Proof.
  revert c; induction n as [|n IH]; intros c; simpl; [auto|].
  destruct (probe c) as [err|[|]]; simpl; auto.
  specialize (IH (S c)). destruct (loop probe e n (S c)) as [r tr].
  simpl in *. destruct IH as [IH1 IH2]. split; [|lia].
  f_equal. exact IH1.
Qed.

(** Every run of the loop is a number of rounds that end in a wait,
    followed by nothing (the budget is used up) or by one last probe (which
    answered true, or was rejected). *)
Lemma loop_shape (n c : nat) :
  exists k : nat,
    (k <= n)%nat /\
    (forall j, (j < k)%nat -> probe (c + j)%nat = inr false) /\
    ((k = n /\ loop probe e n c = (inl readiness_error, rounds e c k)) \/
     ((k < n)%nat /\ probe (c + k)%nat = inr true /\
      loop probe e n c = (inr tt, rounds e c k ++ [EProbe])) \/
     ((k < n)%nat /\ exists err, probe (c + k)%nat = inl err /\
      loop probe e n c = (inl err, rounds e c k ++ [EProbe]))).
Proof.
  revert c; induction n as [|n IH]; intros c.
  - exists 0%nat. split_and!; [lia|intros; lia|]. left. auto.
  - simpl. destruct (probe c) as [err|[|]] eqn:P.
    + exists 0%nat. rewrite Nat.add_0_r. split_and!; [lia|intros; lia|].
      right. right. split; [lia|]. exists err. auto.
    + exists 0%nat. rewrite Nat.add_0_r. split_and!; [lia|intros; lia|].
      right. left. split_and!; [lia|assumption|reflexivity].
    + destruct (IH (S c)) as (k & Hk & Hf & Hs).
      exists (S k). rewrite rounds_S.
      replace (c + S k)%nat with (S c + k)%nat by lia.
      split_and!; [lia| |].
      * intros [|j] Hj; [rewrite Nat.add_0_r; assumption|].
        replace (c + S j)%nat with (S c + j)%nat by lia. apply Hf. lia.
      * destruct Hs as [[-> E]|[(L & T & E)|(L & err & T & E)]]; rewrite E.
        -- left. auto.
        -- right. left. split_and!; [lia|assumption|reflexivity].
        -- right. right. split; [lia|]. exists err. auto.
Qed.

End GateRuns.

(** X1.  When the probe first answers true at its call number [k], within
    the budget, the gate succeeds after exactly [k + 1] probes and [k]
    waits, of each^0, ..., each^(k-1) time units in this order, these
    powers being small enough for [Math.pow] to be exact. *)
Theorem gate_succeeds_at_first_true (probe : Gate.Probe) (e t : Z) (k : nat) :
  (k < Z.to_nat t)%nat ->
  exact_powers e k ->
  (forall j, (j < k)%nat -> probe j = inr false) ->
  probe k = inr true ->
  Gate.assertExtensionLoaded probe {| each := e; times := t |}
    = (inr tt, rounds e 0 k ++ [EProbe]) /\
  count is_probe
    (Gate.assertExtensionLoaded probe {| each := e; times := t |}).2 = S k /\
  waits (Gate.assertExtensionLoaded probe {| each := e; times := t |}).2
    = map (fun j => e ^ Z.of_nat j) (seq 0 k).
Proof.
  intros Hk _ Hf Ht. unfold Gate.assertExtensionLoaded. simpl.
  replace (Z.to_nat t) with (k + S (Z.to_nat t - S k))%nat by lia.
  rewrite (loop_false_rounds probe e _ 0 k) by exact Hf.
  simpl. rewrite Ht. simpl.
  rewrite count_app, waits_app, rounds_probes, rounds_waits. simpl.
  rewrite app_nil_r. split_and!; [reflexivity|lia|reflexivity].
Qed.

Lemma gate_succeeds_at_first_true_witness :
  Gate.assertExtensionLoaded (fun j => inr (Nat.leb 1 j)) {| each := 20; times := 3 |}
  = (inr tt, [EProbe; EWait 1; EProbe]).
Proof.
  refine (proj1 (gate_succeeds_at_first_true (fun j => inr (Nat.leb 1 j))
                   20 3 1 _ _ _ eq_refl)).
  - simpl. lia.
  - intros [|j] Hj; [simpl; lia|lia].
  - intros [|j] Hj; [reflexivity|lia].
Defined.

(** X2.  When every probe within the budget answers false, the gate fails
    with the readiness error after exactly [times] probes, each followed by
    its wait: the last failed probe is still followed by a wait of
    each^(times-1) before the error is thrown, these powers being small
    enough for [Math.pow] to be exact.  With [times <= 0] the gate fails at
    once, without a probe. *)
Theorem gate_exhausts_its_budget (probe : Gate.Probe) (e t : Z) :
  exact_powers e (Z.to_nat t) ->
  (forall j, (j < Z.to_nat t)%nat -> probe j = inr false) ->
  Gate.assertExtensionLoaded probe {| each := e; times := t |}
    = (inl Gate.readiness_error, rounds e 0 (Z.to_nat t)) /\
  count is_probe
    (Gate.assertExtensionLoaded probe {| each := e; times := t |}).2 = Z.to_nat t /\
  waits (Gate.assertExtensionLoaded probe {| each := e; times := t |}).2
    = map (fun j => e ^ Z.of_nat j) (seq 0 (Z.to_nat t)) /\
  (t <= 0 ->
   Gate.assertExtensionLoaded probe {| each := e; times := t |}
     = (inl Gate.readiness_error, [])).
Proof.
  intros _ Hf. unfold Gate.assertExtensionLoaded. simpl.
  assert (E : Gate.loop probe e (Z.to_nat t) 0
              = (inl Gate.readiness_error, rounds e 0 (Z.to_nat t))).
  { replace (Z.to_nat t) with (Z.to_nat t + 0)%nat at 1 by lia.
    rewrite (loop_false_rounds probe e 0 0 (Z.to_nat t)) by exact Hf.
    simpl. rewrite app_nil_r. reflexivity. }
  rewrite E. simpl. rewrite rounds_probes, rounds_waits.
  split_and!; try reflexivity.
  intros Ht. replace (Z.to_nat t) with 0%nat by lia. reflexivity.
Qed.

Lemma gate_exhausts_its_budget_witness :
  Gate.assertExtensionLoaded (fun j => inr (Nat.leb 5 j)) {| each := 2; times := 4 |}
  = (inl Gate.readiness_error,
     [EProbe; EWait 1; EProbe; EWait 2; EProbe; EWait 4; EProbe; EWait 8]).
Proof.
  refine (proj1 (gate_exhausts_its_budget (fun j => inr (Nat.leb 5 j)) 2 4 _ _)).
  - intros j Hj. simpl in Hj.
    do 4 (destruct j as [|j]; [simpl; lia|]). lia.
  - intros j Hj. simpl in Hj.
    do 4 (destruct j as [|j]; [reflexivity|]). lia.
Defined.

(** X3.  The gate lets a caller through only when it has seen the
    capability: if it returns normally, some probe within the budget
    answered true and every probe before it answered false. *)
Theorem gate_success_means_capability_seen (probe : Gate.Probe) (e t : Z) :
  (Gate.assertExtensionLoaded probe {| each := e; times := t |}).1 = inr tt ->
  exists k, (k < Z.to_nat t)%nat /\ probe k = inr true /\
            forall j, (j < k)%nat -> probe j = inr false.
Proof.
  unfold Gate.assertExtensionLoaded. simpl. intros R.
  destruct (loop_success probe e _ 0 R) as (k & Hk & Pk & Fk).
  exists k. split_and!; [assumption|exact Pk|exact Fk].
Qed.

Lemma gate_success_means_capability_seen_witness :
  exists k, (k < Z.to_nat 3)%nat /\
            (fun j => inr (Nat.leb 2 j) : Result bool) k = inr true /\
            forall j, (j < k)%nat ->
              (fun j => inr (Nat.leb 2 j) : Result bool) j = inr false.
Proof.
  exact (gate_success_means_capability_seen (fun j => inr (Nat.leb 2 j)) 20 3
           eq_refl).
Defined.

(** X4.  When a probe within the budget rejects after [k] false answers,
    the gate rejects with the same error, after [k + 1] probes and without
    a further wait. *)
Theorem gate_passes_on_a_probe_rejection
    (probe : Gate.Probe) (e t : Z) (k : nat) (err : Error) :
  (k < Z.to_nat t)%nat ->
  (forall j, (j < k)%nat -> probe j = inr false) ->
  probe k = inl err ->
  Gate.assertExtensionLoaded probe {| each := e; times := t |}
    = (inl err, rounds e 0 k ++ [EProbe]).
Proof.
  intros Hk Hf Ht. unfold Gate.assertExtensionLoaded. simpl.
  replace (Z.to_nat t) with (k + S (Z.to_nat t - S k))%nat by lia.
  rewrite (loop_false_rounds probe e _ 0 k) by exact Hf.
  simpl. rewrite Ht. reflexivity.
Qed.

Lemma gate_passes_on_a_probe_rejection_witness :
  Gate.assertExtensionLoaded
    (fun j => match j with
              | O => inr false
              | _ => inl (JsError "Target closed")
              end)
    {| each := 20; times := 3 |}
  = (inl (JsError "Target closed"), [EProbe; EWait 1; EProbe]).
Proof.
  refine (gate_passes_on_a_probe_rejection _ 20 3 1 (JsError "Target closed")
            _ _ eq_refl).
  - simpl. lia.
  - intros [|j] Hj; [reflexivity|lia].
Defined.

(** X5.  Whatever the probe answers, the gate keeps to its budget and its
    backoff.  Its trace is a number [k] of rounds, at most [times], each a
    probe that answered false followed by its wait of each^j (these powers
    being small enough for [Math.pow] to be exact), and then either nothing,
    when the budget is used up and the readiness error is thrown, or one
    last probe, which answered true or was rejected.  So every wait follows
    a probe of its own, there are at most [times] probes, and nothing but
    probes and waits happens. *)
Theorem gate_keeps_budget_and_backoff (probe : Gate.Probe) (e t : Z) :
  exact_powers e (Z.to_nat t) ->
  (exists k : nat,
     (k <= Z.to_nat t)%nat /\
     (forall j, (j < k)%nat -> probe j = inr false) /\
     ((k = Z.to_nat t /\
       Gate.assertExtensionLoaded probe {| each := e; times := t |}
       = (inl Gate.readiness_error, rounds e 0 k)) \/
      ((k < Z.to_nat t)%nat /\ probe k = inr true /\
       Gate.assertExtensionLoaded probe {| each := e; times := t |}
       = (inr tt, rounds e 0 k ++ [EProbe])) \/
      ((k < Z.to_nat t)%nat /\ exists err, probe k = inl err /\
       Gate.assertExtensionLoaded probe {| each := e; times := t |}
       = (inl err, rounds e 0 k ++ [EProbe])))) /\
  (count is_probe
     (Gate.assertExtensionLoaded probe {| each := e; times := t |}).2
   <= Z.to_nat t)%nat /\
  count is_start
    (Gate.assertExtensionLoaded probe {| each := e; times := t |}).2 = 0%nat /\
  count is_stop
    (Gate.assertExtensionLoaded probe {| each := e; times := t |}).2 = 0%nat.
Proof.
  intros _. unfold Gate.assertExtensionLoaded. simpl.
  destruct (loop_quiet probe e (Z.to_nat t) 0) as [Q1 Q2].
  pose proof (loop_probe_bound probe e (Z.to_nat t) 0) as P.
  split_and!; try assumption.
  destruct (loop_shape probe e (Z.to_nat t) 0) as (k & Hk & Hf & Hs).
  exists k. split_and!; [exact Hk|exact Hf|exact Hs].
Qed.

Lemma gate_keeps_budget_and_backoff_witness :
  exists k : nat,
    (k <= 3)%nat /\
    ((k = 3%nat /\
      Gate.assertExtensionLoaded (fun j => inr (Nat.leb 1 j)) {| each := 20; times := 3 |}
      = (inl Gate.readiness_error, rounds 20 0 k)) \/
     ((k < 3)%nat /\
      Gate.assertExtensionLoaded (fun j => inr (Nat.leb 1 j)) {| each := 20; times := 3 |}
      = (inr tt, rounds 20 0 k ++ [EProbe])) \/
     ((k < 3)%nat /\ exists err,
      Gate.assertExtensionLoaded (fun j => inr (Nat.leb 1 j)) {| each := 20; times := 3 |}
      = (inl err, rounds 20 0 k ++ [EProbe]))).
Proof.
  assert (X : exact_powers 20 (Z.to_nat 3)).
  { intros j Hj. simpl in Hj.
    do 3 (destruct j as [|j]; [simpl; lia|]). lia. }
  destruct (gate_keeps_budget_and_backoff (fun j => inr (Nat.leb 1 j)) 20 3 X)
    as ((k & Hk & _ & Hs) & _).
  exists k. split; [exact Hk|].
  destruct Hs as [[-> E]|[(L & T & E)|(L & err & T & E)]].
  - left. auto.
  - right. left. auto.
  - right. right. split; [exact L|]. exists err. exact E.
Defined.

(** * Further properties of session creation *)

Section SessionRuns.

Import Session.

Lemma prologue_ok (opts : nat) (w : World) (o : getStreamOptions) :
  heap w !! opts = Some o ->
  audio o || video o = true ->
  prologue opts w
  = (inr (retryPolicy (default_frameSize (default_mimeType o))),
     defaulted opts o w).
Proof.
  intros H AV.
  assert (G : negb (audio o) && negb (video o) = false)
    by (destruct (audio o), (video o); try reflexivity; discriminate).
  unfold prologue, bind, deref, assign, ret. rewrite H, G. reflexivity.
Qed.

Lemma defaults_retryPolicy (o : getStreamOptions) :
  retryPolicy (default_frameSize (default_mimeType o)) = retryPolicy o.
Proof.
  pose proof (defaults_frame o) as F. cbv zeta in F.
  destruct F as (_ & _ & _ & _ & _ & _ & _ & _ & R & _).
  unfold retryPolicy. rewrite R. reflexivity.
Qed.

Lemma defaults_basePort (o : getStreamOptions) :
  basePort_of (default_frameSize (default_mimeType o)) = basePort_of o.
Proof.
  pose proof (defaults_frame o) as F. cbv zeta in F.
  destruct F as (_ & _ & _ & _ & _ & _ & _ & _ & _ & T & _).
  unfold basePort_of. rewrite T. reflexivity.
Qed.

(** A call that has found the extension page, from its allocation on. *)
Lemma getStream_from_allocation (env : Env) (opts : nat) (w : World)
    (o : getStreamOptions) :
  heap w !! opts = Some o ->
  audio o || video o = true ->
  waitForTarget env = inr true ->
  targetPage env = inr true ->
  getStream env opts w
  = match allocate opts (defaulted opts o w) with
    | (inl err, w2) => (inl err, w2)
    | (inr a, w2) =>
        match bringToFront env with
        | inl err => (inl err, (emit [EBringToFront] w2).2)
        | inr _ =>
            (do _ <- gate env (retryPolicy o);
             do _ <- start env opts (index a);
             ret (stream a)) (emit [EBringToFront] w2).2
        end
    end.
Proof.
  intros H AV Wt Tp.
  unfold getStream. unfold bind at 1.
  rewrite (prologue_ok opts w o H AV), defaults_retryPolicy.
  unfold bind at 1.
  assert (X : getExtensionPage env (defaulted opts o w)
              = (inr tt, defaulted opts o w)).
  { unfold getExtensionPage, bind, await. rewrite Wt, Tp. reflexivity. }
  rewrite X. unfold bind at 1.
  destruct (allocate opts (defaulted opts o w)) as [[err|a] w2]; [reflexivity|].
  unfold bind at 1, emit at 1. unfold bind at 1, await at 1.
  destruct (bringToFront env) as [err|[]]; reflexivity.
Qed.

(** In range, the allocation segment succeeds. *)
Lemma allocate_succeeds (opts : nat) (w : World) (o : getStreamOptions) :
  heap w !! opts = Some o ->
  0 <= basePort_of o + currentIndex w < 65536 ->
  exists a w2, allocate opts w = (inr a, w2).
Proof.
  intros H R.
  unfold allocate, bind, deref, next_index, construct, ret, Bridge.new,
    Net.listen. simpl. rewrite H. simpl.
  fold (basePort_of o).
  replace ((0 <=? basePort_of o + currentIndex w)
           && (basePort_of o + currentIndex w <? 65536))
    with true by (symmetry; apply andb_true_intro; split;
                  [apply Z.leb_le|apply Z.ltb_lt]; lia).
  destruct (bool_decide _); eauto.
Qed.


End SessionRuns.

Section SessionTails.

Import Session.

(** What a call does after its allocation: effects on the control channel,
    among them at most one start and no stop, and nothing else. *)
Lemma tail_frame (env : Env) (rp : RetryPolicy) (opts : nat) (i : Z) (r : nat)
    (w : World) :
  let W := ((do _ <- gate env rp; do _ <- start env opts i; ret r) w).2 in
  currentIndex W = currentIndex w /\
  heap W = heap w /\
  streams W = streams w /\
  ports W = ports w /\
  exists tr, trace W = trace w ++ tr /\
             count is_stop tr = 0%nat /\ (count is_start tr <= 1)%nat.
Proof.
  cbv zeta. unfold gate, start. unfold bind, emit, await, deref, ret.
  unfold Gate.assertExtensionLoaded.
  destruct (loop_quiet (probe env) (each rp) (Z.to_nat (times rp)) 0) as [Q1 Q2].
  destruct (Gate.loop _ _ _ _) as [[err|[]] tr]; simpl in *.
  - split_and!; try reflexivity. exists tr. split_and!; [reflexivity|lia|lia].
  - destruct (heap w !! opts) as [o|]; simpl.
    + destruct (startRecording env) as [err|[]]; simpl;
        (split_and!; try reflexivity;
         exists (tr ++ [EStart o i]);
         rewrite !count_app, Q1, Q2, app_assoc; simpl;
         split_and!; [reflexivity|lia|lia]).
    + split_and!; try reflexivity. exists tr. split_and!; [reflexivity|lia|lia].
Qed.

Lemma allocate_frame (opts : nat) (w : World) :
  (exists l, streams (allocate opts w).2 = streams w ++ l /\ (length l <= 1)%nat) /\
  ports w ⊆ ports (allocate opts w).2 /\
  currentIndex w <= currentIndex (allocate opts w).2 <= currentIndex w + 1.
Proof.
  unfold allocate, bind, deref, next_index, construct, ret, Bridge.new,
    Net.listen. simpl.
  destruct (heap w !! opts) as [o|]; simpl.
  - destruct (_ && _); simpl.
    + destruct (bool_decide _); simpl;
        (split_and!; [eexists [_]; split; [reflexivity|simpl; lia]| |lia|lia]).
      * reflexivity.
      * apply union_subseteq_r.
    + split_and!; [exists []; rewrite app_nil_r; split; [reflexivity|simpl; lia]
                  |reflexivity|lia|lia].
  - split_and!; [exists []; rewrite app_nil_r; split; [reflexivity|simpl; lia]
                |reflexivity|lia|lia].
Qed.

End SessionTails.



Section SessionInversion.

Import Session.

(** A call that returns a stream has passed line 151 and allocated; what
    it did afterwards changed nothing but the trace. *)
Lemma getStream_inr (env : Env) (opts : nat) (w : World) (r : nat) :
  (getStream env opts w).1 = inr r ->
  exists o a w2,
    heap w !! opts = Some o /\
    audio o || video o = true /\
    allocate opts (defaulted opts o w) = (inr a, w2) /\
    r = stream a /\
    currentIndex (getStream env opts w).2 = currentIndex w2 /\
    heap (getStream env opts w).2 = heap w2 /\
    streams (getStream env opts w).2 = streams w2 /\
    ports (getStream env opts w).2 = ports w2.
Proof.
  remember (getStream env opts w) as g eqn:Eg. intros R.
  unfold getStream in Eg. unfold bind at 1 in Eg.
  destruct (heap w !! opts) as [o|] eqn:H.
  2: { unfold prologue, bind, deref in Eg. rewrite H in Eg. subst g.
       discriminate. }
  destruct (audio o || video o) eqn:AV.
  2: { unfold prologue, bind, deref, throw in Eg. rewrite H in Eg.
       apply orb_false_elim in AV as [A V]. rewrite A, V in Eg. subst g.
       discriminate. }
  rewrite (prologue_ok opts w o H AV) in Eg.
  unfold bind at 1 in Eg.
  pose proof (getExtensionPage_frame env (defaulted opts o w)) as X.
  destruct (getExtensionPage env (defaulted opts o w)) as [[err|[]] w1];
    simpl in X; subst w1.
  { subst g. discriminate. }
  unfold bind at 1 in Eg.
  destruct (allocate opts (defaulted opts o w)) as [[err|a] w2] eqn:A.
  { subst g. discriminate. }
  unfold bind at 1, emit at 1 in Eg. unfold bind at 1, await at 1 in Eg.
  destruct (bringToFront env) as [err|[]].
  { subst g. discriminate. }
  cbv beta iota in Eg.
  match type of Eg with
  | g = bind (gate env ?rp) _ ?w3 =>
      pose proof (tail_frame env rp opts (index a) (stream a) w3) as T;
      cbv zeta in T;
      change (g = (do _ <- gate env rp;
                   do _ <- start env opts (index a);
                   ret (stream a)) w3) in Eg;
      rewrite <- Eg in T
  end.
  destruct T as (T1 & T2 & T3 & T4 & _). simpl in T1, T2, T3, T4.
  exists o, a, w2. split_and!; try assumption; try reflexivity.
  subst g. revert R.
  unfold bind, gate, start, emit, await, deref, ret.
  repeat match goal with
         | |- context [match ?x with _ => _ end] => destruct x; simpl
         end; intros R; try discriminate; inversion R; reflexivity.
Qed.

End SessionInversion.

Section SessionPorts.

Import Session.

(** Only the allocation segment allocates. *)
Lemma segment_allocation (sg : Segment) (w : World) (a : Allocation) :
  (segment sg w).1 = Some a ->
  exists opts, sg = SAllocate opts /\ allocate opts w = (inr a, (segment sg w).2).
Proof.
  destruct sg as [opts|opts|tr|env opts i|opts o]; simpl; try discriminate.
  destruct (allocate opts w) as [[e|x] w'] eqn:A; simpl; [discriminate|].
  intros E; inversion E; subst. eauto.
Qed.

(** No segment removes or replaces a stream. *)
Lemma segment_streams (sg : Segment) (w : World) :
  exists l, streams (segment sg w).2 = streams w ++ l.
Proof.
  destruct sg as [opts|opts|tr|env opts i|opts o]; simpl.
  - destruct (prologue_frame opts w) as (_ & -> & _).
    exists []. rewrite app_nil_r. reflexivity.
  - destruct (allocate_frame opts w) as ((l & E & _) & _).
    destruct (allocate opts w) as [[e|a] w']; simpl in *; eauto.
  - exists []. rewrite app_nil_r. reflexivity.
  - destruct (start_frame env opts i w) as (_ & _ & -> & _).
    exists []. rewrite app_nil_r. reflexivity.
  - exists []. rewrite app_nil_r. reflexivity.
Qed.

Lemma schedule_streams (sgs : list Segment) (w : World) :
  exists l, streams (schedule sgs w).2 = streams w ++ l.
Proof.
  revert w; induction sgs as [|sg sgs IH]; intros w.
  - exists []. rewrite app_nil_r. reflexivity.
  - rewrite schedule_cons. simpl.
    destruct (segment_streams sg w) as (l1 & E1).
    destruct (IH (segment sg w).2) as (l2 & E2).
    exists (l1 ++ l2). rewrite E2, E1, app_assoc. reflexivity.
Qed.

(** What an allocation of a schedule was given is what its stream holds,
    whatever runs afterwards; and it was given by an allocation segment of
    the schedule, from the counter and the options as they were then. *)
Lemma schedule_allocations (sgs : list Segment) (w : World) :
  Forall (fun a =>
            port a = base a + index a /\
            currentIndex w <= index a < currentIndex (schedule sgs w).2 /\
            (length (streams w) <= stream a)%nat /\
            (exists s,
               streams (schedule sgs w).2 !! stream a = Some s /\
               Bridge.port (Bridge.opts s) = port a /\
               Bridge.onDestroy (Bridge.opts s) = Some (index a)) /\
            (exists pre opts post o,
               sgs = pre ++ SAllocate opts :: post /\
               heap (schedule pre w).2 !! opts = Some o /\
               base a = basePort_of o /\
               index a = currentIndex (schedule pre w).2))
         (schedule sgs w).1.
Proof.
  revert w; induction sgs as [|sg sgs IH]; intros w.
  - simpl. constructor.
  - rewrite schedule_cons. simpl.
    destruct (segment_counter sg w) as [C A].
    destruct (schedule_bounds sgs (segment sg w).2) as [C' _].
    specialize (IH (segment sg w).2).
    assert (F' : Forall
              (fun a =>
                 port a = base a + index a /\
                 currentIndex w <= index a
                   < currentIndex (schedule sgs (segment sg w).2).2 /\
                 (length (streams w) <= stream a)%nat /\
                 (exists s,
                    streams (schedule sgs (segment sg w).2).2 !! stream a = Some s /\
                    Bridge.port (Bridge.opts s) = port a /\
                    Bridge.onDestroy (Bridge.opts s) = Some (index a)) /\
                 (exists pre opts post o,
                    sg :: sgs = pre ++ SAllocate opts :: post /\
                    heap (schedule pre w).2 !! opts = Some o /\
                    base a = basePort_of o /\
                    index a = currentIndex (schedule pre w).2))
              (schedule sgs (segment sg w).2).1).
    { eapply Forall_impl; [exact IH|]. simpl.
      intros a (? & ? & Ln & ? & pre & opts & post & o & E & H & B & I).
      destruct (segment_streams sg w) as (l0 & E0).
      rewrite E0, length_app in Ln.
      split_and!; [assumption|lia|lia|lia|assumption|].
      exists (sg :: pre), opts, post, o. rewrite schedule_cons. simpl.
      split_and!; [rewrite E; reflexivity|exact H|exact B|exact I]. }
    destruct (segment sg w).1 as [x|] eqn:X; [|exact F'].
    constructor; [|exact F'].
    destruct (A x eq_refl) as (Ix & Cx & Px).
    destruct (segment_allocation sg w x X) as (opts & Esg & Al).
    destruct (allocate_ok _ _ _ _ Al)
      as (_ & _ & _ & (o & Ho & Bo) & _ & _ & St & s & Ss & Ps & Od & _).
    destruct (schedule_streams sgs (segment sg w).2) as (l & El).
    split_and!; [exact Px|lia|lia|lia| |].
    + exists s. split_and!; [|exact Ps|exact Od].
      rewrite El, Ss, St, <- app_assoc. apply list_lookup_middle. reflexivity.
    + exists [], opts, sgs, o. simpl.
      split_and!; [rewrite Esg; reflexivity|exact Ho|exact Bo|exact Ix].
Qed.

(** The stream a call returns: where it is, what it stops, where it
    listens. *)
Lemma getStream_port (env : Env) (opts : nat) (w : World)
    (o : getStreamOptions) (r : nat) :
  heap w !! opts = Some o ->
  (getStream env opts w).1 = inr r ->
  r = length (streams w) /\
  currentIndex (getStream env opts w).2 = currentIndex w + 1 /\
  exists s,
    streams (getStream env opts w).2 = streams w ++ [s] /\
    Bridge.onDestroy (Bridge.opts s) = Some (currentIndex w) /\
    Bridge.port (Bridge.opts s) = basePort_of o + currentIndex w.
Proof.
  intros H R.
  destruct (getStream_inr env opts w r R)
    as (o' & a & w2 & H' & AV & A & Ra & Ec & _ & Es & _).
  rewrite H in H'. inversion H'; subst o'. clear H'.
  destruct (allocate_ok _ _ _ _ A)
    as (Ia & Ci & Pa & (o2 & Ho2 & Ba) & _ & _ & St & s & Ss & Ps & Od & _).
  simpl in Ho2. rewrite lookup_insert_eq in Ho2. inversion Ho2; subst o2.
  clear Ho2. simpl in Ia, Ci, St, Ss.
  rewrite defaults_basePort in Ba.
  rewrite Ec, Es, Ci, Ss, Ra, St.
  split_and!; try reflexivity.
  exists s. rewrite Od, Ps, Pa, Ba, Ia. auto.
Qed.

End SessionPorts.

(** C5, as the code has it.  Along every interleaving of the segments of any
    number of calls, each allocation is given the value of the shared
    counter, read and incremented in one segment: a later allocation has a
    larger index, so indices are distinct.  The port is the base port of the
    call's own options plus that index, and it is the port the session's
    stream is built on, as the index is the one its destroy callback stops.
    Two sessions with the same base port never get the same port. *)
Theorem ports_follow_the_shared_counter
    (sgs : list Session.Segment) (w : Session.World) :
  Forall (fun a =>
            Session.port a = Session.base a + Session.index a /\
            Session.currentIndex w <= Session.index a
              < Session.currentIndex (Session.schedule sgs w).2 /\
            (length (Session.streams w) <= Session.stream a)%nat /\
            (in_service w (Session.schedule sgs w).2 ->
             exists s,
               Session.streams (Session.schedule sgs w).2 !! Session.stream a
                 = Some s /\
               Bridge.port (Bridge.opts s) = Session.port a /\
               Bridge.onDestroy (Bridge.opts s) = Some (Session.index a) /\
               Net.listening (Bridge.tcpServer s) = true) /\
            (exists pre opts post o,
               sgs = pre ++ Session.SAllocate opts :: post /\
               Session.heap (Session.schedule pre w).2 !! opts = Some o /\
               Session.base a = Session.basePort_of o /\
               Session.index a = Session.currentIndex (Session.schedule pre w).2))
         (Session.schedule sgs w).1 /\
  (forall i j a b, (i < j)%nat ->
     (Session.schedule sgs w).1 !! i = Some a ->
     (Session.schedule sgs w).1 !! j = Some b ->
     Session.index a < Session.index b) /\
  (forall i j a b, i <> j ->
     (Session.schedule sgs w).1 !! i = Some a ->
     (Session.schedule sgs w).1 !! j = Some b ->
     Session.index a <> Session.index b /\
     (Session.base a = Session.base b -> Session.port a <> Session.port b)) /\
  (forall opts o a,
     Session.heap w !! opts = Some o ->
     (Session.segment (Session.SAllocate opts) w).1 = Some a ->
     Session.base a = Session.basePort_of o /\
     Session.index a = Session.currentIndex w /\
     Session.port a = Session.basePort_of o + Session.currentIndex w /\
     Session.currentIndex (Session.segment (Session.SAllocate opts) w).2
       = Session.currentIndex w + 1) /\
  (forall env1 env2 opts1 opts2 o1 o2 r1 r2,
     Session.heap w !! opts1 = Some o1 ->
     Session.heap (Session.getStream env1 opts1 w).2 !! opts2 = Some o2 ->
     (Session.getStream env1 opts1 w).1 = inr r1 ->
     (Session.getStream env2 opts2 (Session.getStream env1 opts1 w).2).1 = inr r2 ->
     in_service w
       (Session.getStream env2 opts2 (Session.getStream env1 opts1 w).2).2 ->
     exists s1 s2,
       Session.streams
         (Session.getStream env2 opts2 (Session.getStream env1 opts1 w).2).2
         !! r1 = Some s1 /\
       Session.streams
         (Session.getStream env2 opts2 (Session.getStream env1 opts1 w).2).2
         !! r2 = Some s2 /\
       r1 <> r2 /\
       Net.listening (Bridge.tcpServer s1) = true /\
       Net.listening (Bridge.tcpServer s2) = true /\
       Bridge.onDestroy (Bridge.opts s1) = Some (Session.currentIndex w) /\
       Bridge.onDestroy (Bridge.opts s2) = Some (Session.currentIndex w + 1) /\
       Bridge.port (Bridge.opts s1)
         = Session.basePort_of o1 + Session.currentIndex w /\
       Bridge.port (Bridge.opts s2)
         = Session.basePort_of o2 + (Session.currentIndex w + 1) /\
       (Session.basePort_of o1 = Session.basePort_of o2 ->
        Bridge.port (Bridge.opts s1) <> Bridge.port (Bridge.opts s2))).
Proof.
  pose proof (schedule_allocations sgs w) as F.
  assert (P : forall a, a ∈ (Session.schedule sgs w).1 ->
                Session.port a = Session.base a + Session.index a).
  { rewrite Forall_forall in F. intros a Ha. apply (F a Ha). }
  split_and!.
  - eapply Forall_impl; [exact F|]. simpl.
    intros a (Pa & Ia & Ln & (s & Hs & Ps & Od) & T).
    split_and!; [exact Pa|lia|lia|exact Ln| |exact T].
    intros Sv. exists s. split_and!; try assumption.
    exact (proj2 (Sv (Session.stream a) s Ln Hs)).
  - intros i j a b. apply schedule_increasing.
  - intros i j a b Hij Ha Hb.
    assert (D : Session.index a <> Session.index b).
    { destruct (Nat.lt_total i j) as [L|[L|L]]; [|contradiction|].
      - pose proof (schedule_increasing sgs w i j a b L Ha Hb). lia.
      - pose proof (schedule_increasing sgs w j i b a L Hb Ha). lia. }
    split; [exact D|]. intros B.
    rewrite (P a), (P b) by (apply list_elem_of_lookup; eauto). lia.
  - intros opts o a H X.
    destruct (segment_allocation _ _ _ X) as (opts' & E & A).
    inversion E; subst opts'. clear E.
    destruct (allocate_ok _ _ _ _ A)
      as (Ia & Ci & Pa & (o2 & Ho2 & Ba) & _).
    rewrite H in Ho2. inversion Ho2; subst o2.
    rewrite Pa, Ba, Ia. auto.
  - intros env1 env2 opts1 opts2 o1 o2 r1 r2 H1 H2 E1 E2 Sv.
    destruct (getStream_port env1 opts1 w o1 r1 H1 E1)
      as (R1 & C1 & s1 & S1 & D1 & P1).
    destruct (getStream_port env2 opts2 _ o2 r2 H2 E2)
      as (R2 & C2 & s2 & S2 & D2 & P2).
    rewrite C1 in D2, P2. rewrite S1 in R2, S2.
    rewrite length_app in R2. simpl in R2.
    assert (L1 : ((Session.streams w ++ [s1]) ++ [s2])
                 !! length (Session.streams w) = Some s1)
      by (rewrite <- app_assoc; apply list_lookup_middle; reflexivity).
    assert (L2 : ((Session.streams w ++ [s1]) ++ [s2])
                 !! (length (Session.streams w) + 1)%nat = Some s2)
      by (apply list_lookup_middle; rewrite length_app; reflexivity).
    unfold in_service in Sv. rewrite S2 in Sv.
    exists s1, s2. rewrite S2, R1, R2.
    split_and!; try assumption.
    + lia.
    + exact (proj2 (Sv _ s1 (Nat.le_refl _) L1)).
    + refine (proj2 (Sv _ s2 _ L2)). lia.
    + rewrite P1, P2. lia.
Qed.

Lemma ports_follow_the_shared_counter_witness :
  Session.schedule
    [Session.SPrologue 0; Session.SPrologue 1;
     Session.SAllocate 1; Session.SAllocate 0]
    (Session.two_callers Session.video_only Session.video_only)
  = ([ {| Session.base := 55200; Session.index := 0;
          Session.port := 55200; Session.stream := 0 |};
       {| Session.base := 55200; Session.index := 1;
          Session.port := 55201; Session.stream := 1 |} ],
     (Session.schedule
        [Session.SPrologue 0; Session.SPrologue 1;
         Session.SAllocate 1; Session.SAllocate 0]
        (Session.two_callers Session.video_only Session.video_only)).2) /\
  (0 < 1 /\ 55200 <> 55201) /\
  (exists s,
     Session.streams
       (Session.schedule
          [Session.SPrologue 0; Session.SPrologue 1;
           Session.SAllocate 1; Session.SAllocate 0]
          (Session.two_callers Session.video_only Session.video_only)).2
       !! 0%nat = Some s /\
     Bridge.port (Bridge.opts s) = 55200 /\
     Bridge.onDestroy (Bridge.opts s) = Some 0 /\
     Net.listening (Bridge.tcpServer s) = true).
Proof.
  split; [reflexivity|].
  destruct (ports_follow_the_shared_counter
              [Session.SPrologue 0; Session.SPrologue 1;
               Session.SAllocate 1; Session.SAllocate 0]
              (Session.two_callers Session.video_only Session.video_only))
    as (F & I & D & _).
  split_and!.
  - exact (I 0%nat 1%nat _ _ (Nat.lt_0_succ 0) eq_refl eq_refl).
  - exact (proj2 (D 0%nat 1%nat _ _ (Nat.neq_0_succ 0) eq_refl eq_refl)
             eq_refl).
  - rewrite Forall_forall in F.
    destruct (F {| Session.base := 55200; Session.index := 0;
                   Session.port := 55200; Session.stream := 0 |})
      as (_ & _ & _ & T & _); [apply list_elem_of_here|].
    destruct T as (s & Hs & Ps & Od & L); [|exists s; auto].
    intros i s _ H.
    destruct i as [|[|i]]; vm_compute in H; inversion H; subst;
      (split; [simpl; lia|reflexivity]).
Defined.

(** C5, refuted as stated: two sessions of one process, the first created
    with [transmission.basePort = 55201], the second with the default base
    port after the first has been destroyed, so that every port is free
    again.  They are given the indices 0 and 1, and both the port 55201. *)
Lemma two_sessions_receive_the_same_port :
  (Session.getStream Session.ready 0
     (Session.two_callers (Session.video_from 55201) Session.video_only)).1
    = inr 0%nat /\
  map (fun s => (Bridge.onDestroy (Bridge.opts s), Bridge.port (Bridge.opts s),
                 Net.listening (Bridge.tcpServer s)))
    (Session.streams
       (Session.getStream Session.ready 0
          (Session.two_callers (Session.video_from 55201) Session.video_only)).2)
    = [(Some 0, 55201, true)] /\
  (destroy_session 0 (inr tt)
     (Session.getStream Session.ready 0
        (Session.two_callers (Session.video_from 55201) Session.video_only)).2).1
    = inr tt /\
  Session.ports first_session_gone = ∅ /\
  Session.currentIndex first_session_gone = 1 /\
  (Session.getStream Session.ready 1 first_session_gone).1 = inr 1%nat /\
  map (fun s => (Bridge.onDestroy (Bridge.opts s), Bridge.port (Bridge.opts s),
                 Net.listening (Bridge.tcpServer s)))
    (Session.streams (Session.getStream Session.ready 1 first_session_gone).2)
    = [(Some 0, 55201, false); (Some 1, 55201, true)].
Proof. split_and!; reflexivity. Qed.

(** X7.  Whenever [getStream] returns a stream that was built on a free
    port, destroying that stream (with a stop call that resolves) calls
    STOP_RECORDING for the index the call was given, ends in the state
    CLOSED, and gives the port back: the ports held are again exactly those
    held before the call. *)
Theorem destroy_after_getStream_frees_the_port
    (env : Session.Env) (opts : nat) (w : Session.World) (o : getStreamOptions)
    (r : nat) :
  (Session.getStream env opts w).1 = inr r ->
  Session.heap w !! opts = Some o ->
  Session.basePort_of o + Session.currentIndex w ∉ Session.ports w ->
  exists s,
    Session.streams (Session.getStream env opts w).2 !! r = Some s /\
    Net.listening (Bridge.tcpServer s) = true /\
    Session.basePort_of o + Session.currentIndex w
      ∈ Session.ports (Session.getStream env opts w).2 /\
    Bridge.destroy_call s = [EStop (Session.currentIndex w)] /\
    (Bridge.destroy_resume (inr tt) s
       (Session.ports (Session.getStream env opts w).2)).1.1 = inr tt /\
    Bridge.closed
      (Bridge.destroy_resume (inr tt) s
         (Session.ports (Session.getStream env opts w).2)).1.2 = true /\
    (Bridge.destroy_resume (inr tt) s
       (Session.ports (Session.getStream env opts w).2)).2 = Session.ports w.
Proof.
  intros R H Free.
  destruct (getStream_inr env opts w r R)
    as (o' & a & w2 & H' & AV & A & Ra & _ & _ & Es & Ep).
  rewrite H in H'. inversion H'; subst o'. clear H'.
  destruct (allocate_ok _ _ _ _ A)
    as (Ia & _ & Pa & (o2 & Ho2 & Ba) & _ & _ & St & s & Ss & Ps & Od & _ & Ls & Po).
  simpl in Ho2. rewrite lookup_insert_eq in Ho2. inversion Ho2; subst o2.
  clear Ho2. simpl in Ia, St, Ss, Ls, Po.
  rewrite defaults_basePort in Ba.
  assert (P : Session.port a = Session.basePort_of o + Session.currentIndex w)
    by (rewrite Pa, Ba, Ia; reflexivity).
  rewrite P in *.
  rewrite bool_decide_eq_false_2 in Ls, Po by exact Free. simpl in Ls.
  exists s. rewrite Es, Ep, Ss, Po, Ra, St.
  split_and!.
  - apply list_lookup_middle. reflexivity.
  - exact Ls.
  - apply elem_of_union_l, elem_of_singleton. reflexivity.
  - unfold Bridge.destroy_call. rewrite Od, Ia. reflexivity.
  - unfold Bridge.destroy_resume.
    destruct (Bridge.teardown _ _) as [s' ps'].
    destruct (Bridge.onDestroy (Bridge.opts s)); reflexivity.
  - unfold Bridge.destroy_resume.
    pose proof (teardown_spec s ({[Session.basePort_of o + Session.currentIndex w]}
                                   ∪ Session.ports w)) as (C & _).
    destruct (Bridge.teardown _ _) as [s' ps'].
    destruct (Bridge.onDestroy (Bridge.opts s)); exact C.
  - unfold Bridge.destroy_resume, Bridge.teardown, Net.close.
    rewrite Ls, Ps. destruct (Bridge.onDestroy (Bridge.opts s)); simpl;
      rewrite difference_union_distr_l_L, difference_diag_L, union_empty_l_L;
      apply difference_disjoint_L, disjoint_singleton_r; exact Free.
Qed.

Lemma destroy_after_getStream_frees_the_port_witness :
  exists s,
    Session.streams
      (Session.getStream Session.ready 0
         (Session.boot {[ 0%nat := Session.video_only ]})).2 !! 0%nat = Some s /\
    Bridge.destroy_call s = [EStop 0] /\
    (Bridge.destroy_resume (inr tt) s
       (Session.ports
          (Session.getStream Session.ready 0
             (Session.boot {[ 0%nat := Session.video_only ]})).2)).2 = ∅.
Proof.
  assert (H : Session.heap (Session.boot {[ 0%nat := Session.video_only ]}) !! 0%nat
              = Some Session.video_only) by reflexivity.
  assert (F : Session.basePort_of Session.video_only
              + Session.currentIndex (Session.boot {[ 0%nat := Session.video_only ]})
              ∉ Session.ports (Session.boot {[ 0%nat := Session.video_only ]}))
    by apply not_elem_of_empty.
  assert (E : (Session.getStream Session.ready 0
                 (Session.boot {[ 0%nat := Session.video_only ]})).1 = inr 0%nat)
    by reflexivity.
  destruct (destroy_after_getStream_frees_the_port Session.ready 0
              (Session.boot {[ 0%nat := Session.video_only ]})
              Session.video_only 0 E H F)
    as (s & L & _ & _ & D & _ & _ & P).
  exists s. split_and!; [exact L | exact D | exact P].
Defined.

(** X8.  When the extension page cannot be had, [getStream] rejects before
    it allocates anything: with "cannot load extension" when the awaited
    target is falsy, with "cannot get page of extension" when the target's
    page is falsy, and with the browser's own error when either promise
    rejects.  The counter, the streams, the ports and the control channel
    are untouched, but the defaults have already been written into the
    caller's options. *)
Theorem getStream_without_extension_page
    (env : Session.Env) (opts : nat) (w : Session.World) (o : getStreamOptions) :
  Session.heap w !! opts = Some o ->
  audio o || video o = true ->
  (Session.waitForTarget env = inr false ->
   Session.getStream env opts w
   = (inl (JsError "cannot load extension"), defaulted opts o w)) /\
  (Session.waitForTarget env = inr true ->
   Session.targetPage env = inr false ->
   Session.getStream env opts w
   = (inl (JsError "cannot get page of extension"), defaulted opts o w)) /\
  (forall err, Session.waitForTarget env = inl err ->
   Session.getStream env opts w = (inl err, defaulted opts o w)) /\
  (forall err, Session.waitForTarget env = inr true ->
   Session.targetPage env = inl err ->
   Session.getStream env opts w = (inl err, defaulted opts o w)) /\
  Session.currentIndex (defaulted opts o w) = Session.currentIndex w /\
  Session.streams (defaulted opts o w) = Session.streams w /\
  Session.ports (defaulted opts o w) = Session.ports w /\
  Session.trace (defaulted opts o w) = Session.trace w /\
  Session.heap (defaulted opts o w) !! opts
    = Some (Session.default_frameSize (Session.default_mimeType o)).
Proof.
  intros H AV.
  assert (S : forall r,
             Session.getExtensionPage env (defaulted opts o w)
               = (inl r, defaulted opts o w) ->
             Session.getStream env opts w = (inl r, defaulted opts o w)).
  { intros r X. unfold Session.getStream. unfold Session.bind at 1.
    rewrite (prologue_ok opts w o H AV). unfold Session.bind at 1.
    rewrite X. reflexivity. }
  split_and!; try reflexivity.
  - intros Wt. apply S. unfold Session.getExtensionPage, Session.bind,
      Session.await, Session.throw. rewrite Wt. reflexivity.
  - intros Wt Tp. apply S. unfold Session.getExtensionPage, Session.bind,
      Session.await, Session.throw. rewrite Wt, Tp. reflexivity.
  - intros err Wt. apply S. unfold Session.getExtensionPage, Session.bind,
      Session.await. rewrite Wt. reflexivity.
  - intros err Wt Tp. apply S. unfold Session.getExtensionPage, Session.bind,
      Session.await. rewrite Wt, Tp. reflexivity.
  - apply lookup_insert_eq.
Qed.

Lemma getStream_without_extension_page_witness :
  Session.getStream
    {| Session.waitForTarget := inr false; Session.targetPage := inr true;
       Session.bringToFront := inr tt; Session.probe := fun _ => inr true;
       Session.startRecording := inr tt |}
    0 (Session.boot {[ 0%nat := Session.video_only ]})
  = (inl (JsError "cannot load extension"),
     defaulted 0 Session.video_only
       (Session.boot {[ 0%nat := Session.video_only ]})).
Proof.
  assert (H : Session.heap (Session.boot {[ 0%nat := Session.video_only ]}) !! 0%nat
              = Some Session.video_only) by reflexivity.
  exact (proj1 (getStream_without_extension_page
                  {| Session.waitForTarget := inr false;
                     Session.targetPage := inr true;
                     Session.bringToFront := inr tt;
                     Session.probe := fun _ => inr true;
                     Session.startRecording := inr tt |}
                  0 (Session.boot {[ 0%nat := Session.video_only ]})
                  Session.video_only H eq_refl) eq_refl).
Defined.



Section SessionFrame.

Import Session.

Lemma extends_intro (w W : World) (l : list Bridge.PuppeteerReadableStream)
    (tr : list Effect) :
  streams W = streams w ++ l -> (length l <= 1)%nat ->
  ports w ⊆ ports W ->
  currentIndex w <= currentIndex W <= currentIndex w + 1 ->
  trace W = trace w ++ tr ->
  count is_stop tr = 0%nat -> (count is_start tr <= 1)%nat ->
  extends w W.
Proof. intros. unfold extends. split_and!; eauto; lia. Qed.

Lemma getStream_extends (env : Env) (opts : nat) (w : World) :
  extends w (getStream env opts w).2.
Proof.
  remember (getStream env opts w) as g eqn:Eg.
  unfold getStream in Eg. unfold bind at 1 in Eg.
  destruct (prologue_frame opts w) as (P1 & P2 & P3 & P4).
  destruct (prologue opts w) as [[err|rp] w1]; simpl in P1, P2, P3, P4.
  { subst g. simpl. apply (extends_intro w w1 [] []);
      rewrite ?app_nil_r; simpl; try assumption; try lia. rewrite P3. reflexivity. }
  unfold bind at 1 in Eg.
  pose proof (getExtensionPage_frame env w1) as X.
  destruct (getExtensionPage env w1) as [[err|[]] w1']; simpl in X; subst w1'.
  { subst g. simpl. apply (extends_intro w w1 [] []);
      rewrite ?app_nil_r; simpl; try assumption; try lia. rewrite P3. reflexivity. }
  unfold bind at 1 in Eg.
  destruct (allocate_frame opts w1) as ((l & A1 & A1') & A2 & A3).
  destruct (allocate_heap opts w1) as (_ & A4).
  destruct (allocate opts w1) as [[err|a] w2]; simpl in A1, A2, A3, A4.
  { subst g. simpl. apply (extends_intro w w2 l []);
      rewrite ?app_nil_r, <- ?P1, <- ?P2, <- ?P3, <- ?P4; simpl;
      try assumption; try lia. }
  unfold bind at 1, emit at 1 in Eg. unfold bind at 1, await at 1 in Eg.
  destruct (bringToFront env) as [err|[]].
  { subst g. simpl. apply (extends_intro w _ l [EBringToFront]); simpl;
      rewrite <- ?P1, <- ?P2, <- ?P3, <- ?P4, ?A4; try assumption; try lia;
      reflexivity. }
  cbv beta iota in Eg.
  match type of Eg with
  | g = bind (gate env ?rp0) _ ?w3 =>
      pose proof (tail_frame env rp0 opts (index a) (stream a) w3) as T;
      cbv zeta in T;
      change (g = (do _ <- gate env rp0;
                   do _ <- start env opts (index a);
                   ret (stream a)) w3) in Eg;
      rewrite <- Eg in T
  end.
  destruct T as (T1 & _ & T3 & T4 & tr & T5 & T6 & T7).
  simpl in T1, T3, T4, T5.
  apply (extends_intro w _ l (EBringToFront :: tr)); simpl;
    rewrite ?T1, ?T3, ?T4, ?T5, <- ?P1, <- ?P2, <- ?P3, <- ?P4, ?A4;
    try assumption; try lia.
  rewrite <- app_assoc. reflexivity.
Qed.

End SessionFrame.

(** X10.  Whatever the options and whatever the browser answers, a call of
    [getStream] leaves the process as it found it except for this: at most
    one stream is added, after the existing ones; ports are only added;
    the counter moves on by at most one; the trace only grows, by at most
    one start and by no stop; and no options object other than the
    caller's is written. *)
Theorem getStream_only_adds
    (env : Session.Env) (opts : nat) (w : Session.World) :
  (exists l, Session.streams (Session.getStream env opts w).2
             = Session.streams w ++ l /\ (length l <= 1)%nat) /\
  Session.ports w ⊆ Session.ports (Session.getStream env opts w).2 /\
  Session.currentIndex w
    <= Session.currentIndex (Session.getStream env opts w).2
    <= Session.currentIndex w + 1 /\
  (exists tr, Session.trace (Session.getStream env opts w).2
              = Session.trace w ++ tr /\
              count is_stop tr = 0%nat /\ (count is_start tr <= 1)%nat) /\
  (forall other, other <> opts ->
     Session.heap (Session.getStream env opts w).2 !! other
     = Session.heap w !! other).
Proof.
  destruct (getStream_extends env opts w) as (S & P & C & T).
  split; [exact S|]. split; [exact P|]. split; [exact C|]. split; [exact T|].
  intros other Hne. rewrite getStream_heap.
  unfold Session.prologue, Session.bind, Session.deref, Session.assign,
    Session.throw, Session.ret.
  destruct (Session.heap w !! opts) as [o|]; simpl; [|reflexivity].
  destruct (negb (audio o) && negb (video o)); simpl; [reflexivity|].
  apply lookup_insert_ne. congruence.
Qed.

Lemma getStream_only_adds_witness :
  Session.heap
    (Session.getStream Session.ready 0
       (Session.two_callers Session.video_only Session.nothing_requested)).2
    !! 1%nat
  = Some Session.nothing_requested.
Proof.
  destruct (getStream_only_adds Session.ready 0
              (Session.two_callers Session.video_only Session.nothing_requested))
    as (_ & _ & _ & _ & H).
  rewrite (H 1%nat ltac:(discriminate)). reflexivity.
Defined.

(** X11.  The gate runs under the caller's retry policy: the numbers of
    [opts.retry] when it gives both [each] and [times], and 20 and 3 when
    it is left out.  When a call (for no negative high-water mark, on a
    valid port that is free) reaches the gate and every probe within [times]
    answers false, [getStream] rejects with the readiness error after
    exactly [times] rounds of a probe and a wait of each^j, these powers
    being small enough for [Math.pow] to be exact.  With [times <= 0] that
    is no probe at all: the call is rejected even though the extension may
    be ready. *)
Theorem getStream_probes_as_the_caller_asks
    (env : Session.Env) (opts : nat) (w : Session.World) (o : getStreamOptions) :
  Session.heap w !! opts = Some o ->
  audio o || video o = true ->
  highWaterMark_taken o ->
  retry_given o ->
  exact_powers (each (Session.retryPolicy o))
    (Z.to_nat (times (Session.retryPolicy o))) ->
  Session.waitForTarget env = inr true ->
  Session.targetPage env = inr true ->
  0 <= Session.basePort_of o + Session.currentIndex w < 65536 ->
  Session.basePort_of o + Session.currentIndex w ∉ Session.ports w ->
  Session.bringToFront env = inr tt ->
  (forall j, (j < Z.to_nat (times (Session.retryPolicy o)))%nat ->
     Session.probe env j = inr false) ->
  (Session.getStream env opts w).1 = inl Gate.readiness_error /\
  Session.trace (Session.getStream env opts w).2
    = Session.trace w ++ [EBringToFront]
      ++ rounds (each (Session.retryPolicy o)) 0
           (Z.to_nat (times (Session.retryPolicy o))) /\
  (times (Session.retryPolicy o) <= 0 ->
   Session.trace (Session.getStream env opts w).2
     = Session.trace w ++ [EBringToFront]) /\
  (retry o = None -> Session.retryPolicy o = {| each := 20; times := 3 |}) /\
  (forall e t,
     retry o = Some {| retry_each := Some e; retry_times := Some t |} ->
     Session.retryPolicy o = {| each := e; times := t |}).
Proof.
  intros H AV _ _ _ Wt Tp Range _ Bf Pr.
  assert (P1 : retry o = None ->
               Session.retryPolicy o = {| each := 20; times := 3 |})
    by (intros R; unfold Session.retryPolicy; rewrite R; reflexivity).
  assert (P2 : forall e t,
               retry o = Some {| retry_each := Some e; retry_times := Some t |} ->
               Session.retryPolicy o = {| each := e; times := t |})
    by (intros e t R; unfold Session.retryPolicy; rewrite R; reflexivity).
  rewrite (getStream_from_allocation env opts w o H AV Wt Tp).
  assert (H' : Session.heap (defaulted opts o w) !! opts
               = Some (Session.default_frameSize (Session.default_mimeType o)))
    by apply lookup_insert_eq.
  destruct (allocate_succeeds opts (defaulted opts o w) _ H') as (a & w2 & A).
  { rewrite defaults_basePort. exact Range. }
  rewrite A, Bf.
  destruct (allocate_ok _ _ _ _ A) as (_ & _ & _ & _ & _ & Ht & _).
  simpl in Ht.
  remember (Session.retryPolicy o) as rp eqn:Erp.
  assert (G : Gate.assertExtensionLoaded (Session.probe env) rp
              = (inl Gate.readiness_error,
                 rounds (each rp) 0 (Z.to_nat (times rp)))).
  { unfold Gate.assertExtensionLoaded.
    replace (Z.to_nat (times rp)) with (Z.to_nat (times rp) + 0)%nat at 1 by lia.
    rewrite (loop_false_rounds (Session.probe env) _ 0 0 _) by exact Pr.
    simpl. rewrite app_nil_r. reflexivity. }
  unfold Session.gate, Session.bind, Session.emit, Session.await.
  rewrite G. simpl. rewrite Ht, <- app_assoc. simpl.
  split_and!; try reflexivity; try assumption.
  intros T. replace (Z.to_nat (times rp)) with 0%nat by lia. reflexivity.
Qed.

Lemma getStream_probes_as_the_caller_asks_witness :
  (Session.getStream Session.ready 0
     (Session.boot {[ 0%nat := Session.impatient ]})).1
    = inl Gate.readiness_error /\
  Session.trace
    (Session.getStream Session.ready 0
       (Session.boot {[ 0%nat := Session.impatient ]})).2 = [EBringToFront].
Proof.
  assert (H : Session.heap (Session.boot {[ 0%nat := Session.impatient ]}) !! 0%nat
              = Some Session.impatient) by reflexivity.
  assert (R : 0 <= Session.basePort_of Session.impatient
                   + Session.currentIndex
                       (Session.boot {[ 0%nat := Session.impatient ]}) < 65536)
    by (unfold Session.basePort_of, Js.or_else, Js.chain; simpl; lia).
  assert (P : forall j,
             (j < Z.to_nat (times (Session.retryPolicy Session.impatient)))%nat ->
             Session.probe Session.ready j = inr false)
    by (simpl; intros j Hj; lia).
  assert (M : highWaterMark_taken Session.impatient)
    by (unfold highWaterMark_taken, highWaterMarkMB_of, Js.or_else, Js.chain;
        simpl; lia).
  assert (G : retry_given Session.impatient).
  { intros r Hr. inversion Hr; subst r. split; eexists; reflexivity. }
  assert (X : exact_powers (each (Session.retryPolicy Session.impatient))
                (Z.to_nat (times (Session.retryPolicy Session.impatient))))
    by (intros j Hj; simpl in Hj; lia).
  assert (F : Session.basePort_of Session.impatient
              + Session.currentIndex (Session.boot {[ 0%nat := Session.impatient ]})
              ∉ Session.ports (Session.boot {[ 0%nat := Session.impatient ]}))
    by apply not_elem_of_empty.
  destruct (getStream_probes_as_the_caller_asks Session.ready 0
              (Session.boot {[ 0%nat := Session.impatient ]})
              Session.impatient H eq_refl M G X eq_refl eq_refl R F eq_refl P)
    as (E & _ & T & _).
  split; [exact E|]. apply T. simpl. lia.
Defined.

Section SessionStreams.

Import Session.

(** The stream the allocation segment builds, spelled out. *)
Lemma allocate_stream (opts : nat) (w w2 : World) (a : Allocation)
    (o : getStreamOptions) :
  heap w !! opts = Some o ->
  allocate opts w = (inr a, w2) ->
  exists srv,
    streams w2
    = streams w
      ++ [ {| Bridge.opts :=
                {| Bridge.onDestroy := Some (currentIndex w);
                   Bridge.highWaterMarkMB :=
                     Js.or_else (Js.chain (streamConfig o) highWaterMarkMB) 8;
                   Bridge.immediateResume :=
                     Js.nullish (Js.chain (streamConfig o) immediateResume) true;
                   Bridge.port := basePort_of o + currentIndex w |};
              Bridge.tcpSockets := [];
              Bridge.tcpServer := srv;
              Bridge.readable :=
                if Js.nullish (Js.chain (streamConfig o) immediateResume) true
                then Readable.resume
                       (Readable.create
                          (1024 * 1024
                           * Js.or_else (Js.chain (streamConfig o) highWaterMarkMB) 8))
                else Readable.create
                       (1024 * 1024
                        * Js.or_else (Js.chain (streamConfig o) highWaterMarkMB) 8)
           |} ].
Proof.
  intros H.
  unfold allocate, bind, deref, next_index, construct, ret, Bridge.new,
    Net.listen. simpl. rewrite H. simpl. fold (basePort_of o).
  destruct (_ && _); [|discriminate].
  destruct (bool_decide _); simpl; intros E; inversion E; subst; simpl;
    eexists; reflexivity.
Qed.

(** After its allocation a call changes neither the streams nor the heap. *)
Lemma getStream_streams (env : Env) (opts : nat) (w w2 : World)
    (o : getStreamOptions) (a : Allocation) :
  heap w !! opts = Some o ->
  audio o || video o = true ->
  waitForTarget env = inr true ->
  targetPage env = inr true ->
  allocate opts (defaulted opts o w) = (inr a, w2) ->
  streams (getStream env opts w).2 = streams w2 /\
  heap (getStream env opts w).2 = heap w2 /\
  ports (getStream env opts w).2 = ports w2 /\
  currentIndex (getStream env opts w).2 = currentIndex w2.
Proof.
  intros H AV Wt Tp A.
  rewrite (getStream_from_allocation env opts w o H AV Wt Tp), A.
  destruct (bringToFront env) as [err|[]]; [simpl; auto|].
  pose proof (tail_frame env (retryPolicy o) opts (index a) (stream a)
                (emit [EBringToFront] w2).2) as T.
  cbv zeta in T. destruct T as (T1 & T2 & T3 & T4 & _).
  simpl in T1, T2, T3, T4. auto.
Qed.

End SessionStreams.

(** X12.  A zero given for a number counts as no value.  For a call that
    asks for no negative high-water mark, finds the extension page and is
    given a valid port that is free: with
    [transmission.basePort = 0] the session's port is 55200 plus its index,
    with [streamConfig.highWaterMarkMB = 0] the stream's high-water mark is
    that of 8 MB, and [frameSize = 0] is overwritten with 20 in the caller's
    object.  [streamConfig.immediateResume = false], on the other hand, is
    honoured: the stream is not set flowing, as it is when the option is
    left out. *)
Theorem getStream_takes_zero_for_unset
    (env : Session.Env) (opts : nat) (w : Session.World) (o : getStreamOptions) :
  Session.heap w !! opts = Some o ->
  audio o || video o = true ->
  highWaterMark_taken o ->
  Session.waitForTarget env = inr true ->
  Session.targetPage env = inr true ->
  0 <= Session.basePort_of o + Session.currentIndex w < 65536 ->
  Session.basePort_of o + Session.currentIndex w ∉ Session.ports w ->
  exists s,
    Session.streams (Session.getStream env opts w).2 = Session.streams w ++ [s] /\
    (forall t, transmission o = Some t -> basePort t = Some 0 ->
       Bridge.port (Bridge.opts s) = 55200 + Session.currentIndex w) /\
    (forall c, streamConfig o = Some c -> highWaterMarkMB c = Some 0 ->
       Readable.highWaterMark (Bridge.readable s) = 1024 * 1024 * 8) /\
    (forall c, streamConfig o = Some c -> immediateResume c = Some false ->
       Readable.flowing (Bridge.readable s) = false) /\
    (forall c, streamConfig o = Some c -> immediateResume c = None ->
       Readable.flowing (Bridge.readable s) = true) /\
    (streamConfig o = None ->
       Readable.flowing (Bridge.readable s) = true /\
       Readable.highWaterMark (Bridge.readable s) = 1024 * 1024 * 8) /\
    (frameSize o = Some 0 ->
       exists o', Session.heap (Session.getStream env opts w).2 !! opts = Some o' /\
                  frameSize o' = Some 20).
Proof.
  intros H AV _ Wt Tp Range _.
  assert (H' : Session.heap (defaulted opts o w) !! opts
               = Some (Session.default_frameSize (Session.default_mimeType o)))
    by apply lookup_insert_eq.
  destruct (allocate_succeeds opts (defaulted opts o w) _ H') as (a & w2 & A).
  { rewrite defaults_basePort. exact Range. }
  destruct (getStream_streams env opts w w2 o a H AV Wt Tp A) as (Es & Eh & _).
  destruct (allocate_stream _ _ _ _ _ H' A) as (srv & Ss).
  destruct (allocate_heap opts (defaulted opts o w)) as [Hh _].
  rewrite A in Hh. simpl in Hh.
  pose proof (defaults_frame o) as F. cbv zeta in F.
  destruct F as (_ & _ & _ & _ & _ & _ & _ & _ & _ & Tr & Sc).
  rewrite defaults_basePort, Sc in Ss. simpl in Ss.
  eexists. rewrite Es, Eh. split; [exact Ss|]. simpl.
  split_and!.
  - intros t T B. unfold Session.basePort_of. rewrite T. simpl. rewrite B.
    reflexivity.
  - intros c C M. rewrite C. simpl. rewrite M. simpl.
    destruct (Js.nullish (immediateResume c) true); reflexivity.
  - intros c C M. rewrite C. simpl. rewrite M. reflexivity.
  - intros c C M. rewrite C. simpl. rewrite M. reflexivity.
  - intros C. rewrite C. simpl. auto.
  - intros Fs. eexists. rewrite Hh. split; [apply lookup_insert_eq|].
    unfold Session.default_frameSize.
    assert (Fm : frameSize (Session.default_mimeType o) = Some 0).
    { unfold Session.default_mimeType.
      destruct (mimeType o), (video o), (audio o); exact Fs. }
    rewrite Fm. reflexivity.
Qed.

Lemma getStream_takes_zero_for_unset_witness :
  exists s,
    Session.streams
      (Session.getStream Session.ready 0
         (Session.boot {[ 0%nat := Session.video_from 0 ]})).2 = [s] /\
    Bridge.port (Bridge.opts s) = 55200.
Proof.
  assert (H : Session.heap (Session.boot {[ 0%nat := Session.video_from 0 ]})
                !! 0%nat = Some (Session.video_from 0)) by reflexivity.
  assert (R : 0 <= Session.basePort_of (Session.video_from 0)
                   + Session.currentIndex
                       (Session.boot {[ 0%nat := Session.video_from 0 ]}) < 65536)
    by (unfold Session.basePort_of, Js.or_else, Js.chain; simpl; lia).
  assert (M : highWaterMark_taken (Session.video_from 0))
    by (unfold highWaterMark_taken, highWaterMarkMB_of, Js.or_else, Js.chain;
        simpl; lia).
  assert (F : Session.basePort_of (Session.video_from 0)
              + Session.currentIndex
                  (Session.boot {[ 0%nat := Session.video_from 0 ]})
              ∉ Session.ports (Session.boot {[ 0%nat := Session.video_from 0 ]}))
    by apply not_elem_of_empty.
  destruct (getStream_takes_zero_for_unset Session.ready 0
              (Session.boot {[ 0%nat := Session.video_from 0 ]})
              (Session.video_from 0) H eq_refl M eq_refl eq_refl R F)
    as (s & S & P & _).
  exists s. split; [exact S|]. exact (P _ eq_refl eq_refl).
Defined.

(** * Further properties of the bridge *)

Section BridgeRuns.

Import Bridge.

Lemma grown_refl (st : State) : grown st st.
Proof.
  unfold grown. split_and!; auto.
  - exists []. rewrite app_nil_r. reflexivity.
  - intros i s H. eauto.
Qed.

Lemma grown_trans (a b c : State) : grown a b -> grown b c -> grown a c.
Proof.
  intros (O1 & (l1 & L1) & S1 & P1 & Q1) (O2 & (l2 & L2) & S2 & P2 & Q2).
  unfold grown. split_and!.
  - congruence.
  - exists (l1 ++ l2). rewrite L2, L1, app_assoc. reflexivity.
  - intros i s H. destruct (S1 i s H) as (s1 & H1 & E1).
    destruct (S2 i s1 H1) as (s2 & H2 & E2). eauto.
  - etrans; eassumption.
  - intros p Hp Hn. apply Q2; [apply Q1; assumption|]. rewrite O1. exact Hn.
Qed.

Lemma teardown_grown (st : State) (n : nat) (eff : list Effect)
    (rej : list Error) :
  grown st {| this := (teardown (this st) (ports st)).1;
              ports := (teardown (this st) (ports st)).2;
              awaiting := n; effects := eff; rejections := rej |}.
Proof.
  unfold grown, teardown, Net.close.
  destruct (Net.listening (tcpServer (this st))); simpl.
  - split_and!; auto.
    + exists []. rewrite app_nil_r. reflexivity.
    + intros i s H. exists (Net.end_ s).
      rewrite list_lookup_fmap, H. auto.
    + apply subseteq_difference_l. reflexivity.
    + intros p Hp Hn. apply elem_of_difference. split; [assumption|].
      intros Hs. apply elem_of_singleton in Hs. contradiction.
  - split_and!; auto.
    + exists []. rewrite app_nil_r. reflexivity.
    + intros i s H. exists (Net.end_ s).
      rewrite list_lookup_fmap, H. auto.
Qed.

Lemma handle_grown (ev : Event) (st : State) : grown st (handle ev st).
Proof.
  destruct ev as [|i data| |r]; simpl.
  - destruct (Net.listening _); [|apply grown_refl].
    unfold grown; simpl. split_and!; auto.
    + exists []. rewrite app_nil_r. reflexivity.
    + intros i s H. exists s. split; [|auto].
      apply lookup_app_l_Some. exact H.
  - destruct (_ !! i); [|apply grown_refl].
    unfold grown; simpl. split_and!; auto; [|eauto].
    unfold Readable.push.
    destruct (Readable.destroyed _);
      [exists []; rewrite app_nil_r; reflexivity|].
    destruct data; [exists []; rewrite app_nil_r; reflexivity|].
    simpl. eauto.
  - unfold grown; simpl. split_and!; auto; [|eauto].
    exists []. rewrite app_nil_r. reflexivity.
  - destruct (awaiting st) as [|n]; [apply grown_refl|].
    unfold destroy_resume.
    pose proof (teardown_grown st n (effects st)) as T.
    destruct (teardown (this st) (ports st)) as [s' ps'].
    destruct (onDestroy (opts (this st))), r; simpl in *; try apply T.
    unfold grown; simpl. split_and!; auto; [|eauto].
    exists []. rewrite app_nil_r. reflexivity.
Qed.

Lemma run_grown (evs : list Event) (st : State) : grown st (run evs st).
Proof.
  revert st; induction evs as [|ev evs IH]; intros st; simpl.
  - apply grown_refl.
  - eapply grown_trans; [apply handle_grown|apply IH].
Qed.

(** Each [destroy()] call, and nothing else, calls the stop callback. *)
Lemma run_effects (evs : list Event) (st : State) :
  effects (run evs st)
  = effects st ++ concat (replicate (destroys evs) (destroy_call (this st))).
Proof.
  revert st; induction evs as [|ev evs IH]; intros st; simpl.
  { rewrite app_nil_r. reflexivity. }
  rewrite IH.
  destruct (handle_grown ev st) as (O & _).
  assert (D : destroy_call (this (handle ev st)) = destroy_call (this st))
    by (unfold destroy_call; rewrite O; reflexivity).
  rewrite D. clear IH D O.
  destruct ev as [|i data| |r]; simpl.
  - destruct (Net.listening _); reflexivity.
  - destruct (_ !! i); reflexivity.
  - rewrite <- app_assoc. reflexivity.
  - destruct (awaiting st); [reflexivity|].
    destruct (destroy_resume r (this st) (ports st)) as [[res s'] ps'].
    reflexivity.
Qed.

End BridgeRuns.

(** X13.  Whatever happens to a bridge, it never rewrites its past: along
    every run of events its options stay the same, the output only grows
    at its end, an accepted socket keeps its place in [tcpSockets] and is
    never removed (an ended one stays ended), the count of sockets never
    falls, and of the ports held on the machine at most the bridge's own is
    given back. *)
Theorem bridge_only_grows (evs : list Bridge.Event) (st : Bridge.State) :
  Bridge.opts (Bridge.this (Bridge.run evs st)) = Bridge.opts (Bridge.this st) /\
  (exists l, Readable.output (Bridge.readable (Bridge.this (Bridge.run evs st)))
             = Readable.output (Bridge.readable (Bridge.this st)) ++ l) /\
  (forall i s, Bridge.tcpSockets (Bridge.this st) !! i = Some s ->
     exists s', Bridge.tcpSockets (Bridge.this (Bridge.run evs st)) !! i = Some s' /\
                (Net.ended s = true -> Net.ended s' = true)) /\
  (length (Bridge.tcpSockets (Bridge.this st))
   <= length (Bridge.tcpSockets (Bridge.this (Bridge.run evs st))))%nat /\
  Bridge.ports (Bridge.run evs st) ⊆ Bridge.ports st /\
  (forall p, p ∈ Bridge.ports st ->
     p <> Bridge.port (Bridge.opts (Bridge.this st)) ->
     p ∈ Bridge.ports (Bridge.run evs st)).
Proof.
  destruct (run_grown evs st) as (O & L & S & P & Q).
  split_and!; try assumption.
  destruct (Nat.le_gt_cases (length (Bridge.tcpSockets (Bridge.this st)))
              (length (Bridge.tcpSockets (Bridge.this (Bridge.run evs st)))))
    as [Le|Gt]; [exact Le|exfalso].
  destruct (lookup_lt_is_Some_2 (Bridge.tcpSockets (Bridge.this st))
              (length (Bridge.tcpSockets (Bridge.this (Bridge.run evs st)))) Gt)
    as [s Hs].
  destruct (S _ _ Hs) as (s' & Hs' & _).
  apply lookup_lt_Some in Hs'. lia.
Qed.

Lemma bridge_only_grows_witness :
  8080 ∈ Bridge.ports
    (Bridge.run [Bridge.Connection; Bridge.Destroy; Bridge.Settled (inr tt)]
       (Bridge.start (Bridge.this Bridge.first_bridge) {[55200; 8080]})).
Proof.
  destruct (bridge_only_grows
              [Bridge.Connection; Bridge.Destroy; Bridge.Settled (inr tt)]
              (Bridge.start (Bridge.this Bridge.first_bridge) {[55200; 8080]}))
    as (_ & _ & _ & _ & _ & Q).
  apply Q; [|discriminate].
  apply elem_of_union_r, elem_of_singleton. reflexivity.
Defined.

(** X14.  The stop callback is called once for each call of [destroy()], in
    whatever state the bridge is, and at no other time: along every run the
    effects on the control channel grow by one STOP_RECORDING of the
    bridge's index per [destroy()] call, and by nothing when the bridge has
    no callback. *)
Theorem stop_is_called_once_per_destroy (evs : list Bridge.Event) (st : Bridge.State) :
  (forall i, Bridge.onDestroy (Bridge.opts (Bridge.this st)) = Some i ->
     Bridge.effects (Bridge.run evs st)
     = Bridge.effects st ++ replicate (destroys evs) (EStop i)) /\
  (Bridge.onDestroy (Bridge.opts (Bridge.this st)) = None ->
     Bridge.effects (Bridge.run evs st) = Bridge.effects st).
Proof.
  split.
  - intros i H. rewrite run_effects. unfold Bridge.destroy_call. rewrite H.
    f_equal. induction (destroys evs) as [|n IH]; simpl; [reflexivity|].
    rewrite IH. reflexivity.
  - intros H. rewrite run_effects. unfold Bridge.destroy_call. rewrite H.
    induction (destroys evs) as [|n IH]; simpl; [apply app_nil_r|exact IH].
Qed.

Lemma stop_is_called_once_per_destroy_witness :
  Bridge.effects
    (Bridge.run [Bridge.Destroy; Bridge.Connection; Bridge.Destroy;
                 Bridge.Settled (inr tt); Bridge.Settled (inr tt)]
       Bridge.first_bridge)
  = [EStop 0; EStop 0].
Proof.
  exact (proj1 (stop_is_called_once_per_destroy
                  [Bridge.Destroy; Bridge.Connection; Bridge.Destroy;
                   Bridge.Settled (inr tt); Bridge.Settled (inr tt)]
                  Bridge.first_bridge) 0 eq_refl).
Defined.

(** * Properties of [launch] *)

Section LaunchStrings.

Import Launch.

Lemma prefix_empty (x : string) : String.prefix "" x = true.
Proof. destruct x; reflexivity. Qed.

Lemma prefix_append (a x s : string) :
  String.prefix a x = true -> String.prefix a (x +:+ s) = true.
Proof.
  revert x; induction a as [|c a IH]; intros x.
  - intros _. apply prefix_empty.
  - destruct x as [|d x]; simpl; [discriminate|].
    destruct (Ascii.ascii_dec c d); [apply IH|discriminate].
Qed.

Lemma prefix_self (a v : string) : String.prefix a (a +:+ v) = true.
Proof.
  induction a as [|c a IH]; simpl; [apply prefix_empty|].
  destruct (Ascii.ascii_dec c c); [exact IH|contradiction].
Qed.

Lemma includes_prefix (x a : string) :
  String.prefix a x = true -> includes x a = true.
Proof. intros H. destruct x; cbn [includes]; rewrite H; reflexivity. Qed.

Lemma includes_append_r (x s a : string) :
  includes x a = true -> includes (x +:+ s) a = true.
Proof.
  induction x as [|c x IH]; cbn [includes String.append].
  - rewrite orb_false_r. intros H. apply includes_prefix.
    destruct a; [apply prefix_empty|discriminate].
  - intros H. apply orb_true_iff in H as [H|H].
    + apply includes_prefix, prefix_append. exact H.
    + change (String c x +:+ s) with (String c (x +:+ s)). cbn [includes].
      rewrite (IH H). apply orb_true_r.
Qed.

Lemma includes_append_l (x s a : string) :
  includes s a = true -> includes (x +:+ s) a = true.
Proof.
  intros H. induction x as [|c x IH]; [exact H|].
  change (String c x +:+ s) with (String c (x +:+ s)). cbn [includes].
  rewrite IH. apply orb_true_r.
Qed.

Lemma includes_self (a v : string) : includes (a +:+ v) a = true.
Proof. apply includes_prefix, prefix_self. Qed.

Lemma includes_refl (a : string) : includes a a = true.
Proof.
  apply includes_prefix. induction a as [|c a IH]; simpl; [reflexivity|].
  destruct (Ascii.ascii_dec c c); [exact IH|contradiction].
Qed.

Lemma append_empty_r (x : string) : x +:+ "" = x.
Proof.
  induction x as [|c x IH]; [reflexivity|].
  change (String c (x +:+ "") = String c x). f_equal. exact IH.
Qed.

Lemma append_assoc (x y z : string) : (x +:+ y) +:+ z = x +:+ (y +:+ z).
Proof.
  induction x as [|c x IH]; [reflexivity|].
  change (String c ((x +:+ y) +:+ z) = String c (x +:+ (y +:+ z))).
  f_equal. exact IH.
Qed.

End LaunchStrings.

Section LaunchArgs.

Import Launch.

Lemma extended_refl (l : list string) : extended l l.
Proof.
  split; [reflexivity|]. intros i x H. exists "". rewrite append_empty_r. exact H.
Qed.

Lemma extended_trans (a b c : list string) :
  extended a b -> extended b c -> extended a c.
Proof.
  intros [L1 E1] [L2 E2]. split; [lia|].
  intros i x H. destruct (E1 i x H) as (s1 & H1).
  destruct (E2 i _ H1) as (s2 & H2). exists (s1 +:+ s2).
  rewrite <- append_assoc. exact H2.
Qed.

Lemma extended_app (l t : list string) : extended l (l ++ t).
Proof.
  split; [rewrite length_app; lia|]. intros i x H. exists "".
  rewrite append_empty_r. apply lookup_app_l_Some. exact H.
Qed.

Lemma extended_map (f : string -> string) (l : list string) :
  (forall x, exists sfx, f x = x +:+ sfx) -> extended l (map f l).
Proof.
  intros F. split; [rewrite length_map; reflexivity|].
  intros i x H. destruct (F x) as (sfx & E). exists sfx.
  rewrite list_lookup_fmap, H. simpl. rewrite E. reflexivity.
Qed.

Lemma has_flag_extended (a b : string) (l l' : list string) :
  extended l l' -> has_flag a b l -> has_flag a b l'.
Proof.
  intros [_ E] (x & Hx & A & B).
  apply list_elem_of_lookup in Hx as [i Hi].
  destruct (E i x Hi) as (sfx & H'). exists (x +:+ sfx). split_and!.
  - apply list_elem_of_lookup. eauto.
  - apply includes_append_r, A.
  - apply includes_append_r, B.
Qed.

(** The rewriting [addToArgs] does to an entry. *)
Lemma rewrite_entry (arg v x : string) :
  exists sfx, (if includes x arg then x +:+ "," +:+ v else x) = x +:+ sfx.
Proof.
  destruct (includes x arg); [eauto|]. exists "". rewrite append_empty_r.
  reflexivity.
Qed.

(** [addToArgs] removes nothing, reorders nothing and adds at most one
    entry. *)
Lemma addToArgs_extended (arg : string) (value : option string)
    (l : list string) :
  extended l (addToArgs arg value l) /\
  (length (addToArgs arg value l) <= length l + 1)%nat.
Proof.
  assert (N : extended l (if bool_decide (arg ∈ l) then l else l ++ [arg]) /\
              (length (if bool_decide (arg ∈ l) then l else l ++ [arg])
               <= length l + 1)%nat).
  { destruct (bool_decide _); [split; [apply extended_refl|lia]|].
    split; [apply extended_app|rewrite length_app; simpl; lia]. }
  unfold addToArgs. destruct value as [v|]; [|exact N].
  destruct (truthy_string (Some v)); [|exact N].
  pose proof (extended_map _ l (rewrite_entry arg v)) as M.
  destruct (existsb _ l).
  - split; [exact M|rewrite length_map; lia].
  - split; [eapply extended_trans; [exact M|apply extended_app]|].
    rewrite length_app, length_map. simpl. lia.
Qed.

(** With a value, [addToArgs] leaves an entry that has the flag and the
    value in it. *)
Lemma addToArgs_has_flag (arg v : string) (l : list string) :
  v <> "" -> has_flag arg v (addToArgs arg (Some v) l).
Proof.
  intros Hv. unfold addToArgs.
  assert (T : truthy_string (Some v) = true) by (destruct v; [contradiction|reflexivity]).
  rewrite T. destruct (existsb _ l) eqn:E.
  - apply existsb_exists in E as (x & Hx & Ix).
    exists (x +:+ "," +:+ v). split_and!.
    + apply list_elem_of_In, in_map_iff. exists x. rewrite Ix. auto.
    + apply includes_append_r, Ix.
    + apply includes_append_l, includes_append_l, includes_refl.
  - exists (arg +:+ v). split_and!.
    + apply elem_of_app. right. apply list_elem_of_singleton. reflexivity.
    + apply includes_self.
    + apply includes_append_l, includes_refl.
Qed.

(** Without a value, [addToArgs] leaves the flag in the array. *)
Lemma addToArgs_bare (arg : string) (l : list string) :
  arg ∈ addToArgs arg None l.
Proof.
  unfold addToArgs. destruct (bool_decide (arg ∈ l)) eqn:B.
  - apply bool_decide_eq_true in B. exact B.
  - apply elem_of_app. right. apply list_elem_of_singleton. reflexivity.
Qed.

(** When an entry has the flag already, [addToArgs] adds no entry. *)
Lemma addToArgs_found (arg v : string) (l : list string) :
  v <> "" ->
  (exists x, x ∈ l /\ includes x arg = true) ->
  addToArgs arg (Some v) l
  = map (fun x => if includes x arg then x +:+ "," +:+ v else x) l.
Proof.
  intros Hv (x & Hx & Ix). unfold addToArgs.
  assert (T : truthy_string (Some v) = true) by (destruct v; [contradiction|reflexivity]).
  rewrite T.
  assert (E : existsb (fun x => includes x arg) l = true).
  { apply existsb_exists. exists x. split; [apply list_elem_of_In, Hx|exact Ix]. }
  rewrite E. reflexivity.
Qed.

(** An entry that does not have the flag in it is left as it is. *)
Lemma addToArgs_keeps (arg : string) (value : option string) (y : string)
    (l : list string) :
  includes y arg = false -> y ∈ l -> y ∈ addToArgs arg value l.
Proof.
  intros Iy Hy.
  assert (N : y ∈ (if bool_decide (arg ∈ l) then l else l ++ [arg])).
  { destruct (bool_decide _); [exact Hy|]. apply elem_of_app. left. exact Hy. }
  unfold addToArgs. destruct value as [v|]; [|exact N].
  destruct (truthy_string (Some v)); [|exact N].
  assert (M : y ∈ map (fun x => if includes x arg then x +:+ "," +:+ v else x) l).
  { apply list_elem_of_In, in_map_iff. exists y. rewrite Iy.
    split; [reflexivity|apply list_elem_of_In, Hy]. }
  destruct (existsb _ l); [exact M|]. apply elem_of_app. left. exact M.
Qed.

End LaunchArgs.

Section LaunchPrepared.

Import Launch.

Variable path : string.
Hypothesis path_given : path <> "".

Lemma extensionId_given : extensionId <> "".
Proof. discriminate. Qed.

(** The four flags, after the four calls of [addToArgs]. *)
Lemma flags_after (l : list string) :
  let a1 := addToArgs "--load-extension=" (Some path) l in
  let a2 := addToArgs "--disable-extensions-except=" (Some path) a1 in
  let a3 := addToArgs "--allowlisted-extension-id=" (Some extensionId) a2 in
  let a4 := addToArgs "--autoplay-policy=no-user-gesture-required" None a3 in
  has_flag "--load-extension=" path a4 /\
  has_flag "--disable-extensions-except=" path a4 /\
  has_flag "--allowlisted-extension-id=" extensionId a4 /\
  "--autoplay-policy=no-user-gesture-required" ∈ a4.
Proof.
  cbv zeta.
  set (a1 := addToArgs "--load-extension=" (Some path) l).
  set (a2 := addToArgs "--disable-extensions-except=" (Some path) a1).
  set (a3 := addToArgs "--allowlisted-extension-id=" (Some extensionId) a2).
  set (a4 := addToArgs "--autoplay-policy=no-user-gesture-required" None a3).
  pose proof (addToArgs_has_flag "--load-extension=" path l path_given) as F1.
  pose proof (addToArgs_has_flag "--disable-extensions-except=" path a1 path_given)
    as F2.
  pose proof (addToArgs_has_flag "--allowlisted-extension-id=" extensionId a2
                extensionId_given) as F3.
  destruct (addToArgs_extended "--disable-extensions-except=" (Some path) a1)
    as [E2 _].
  destruct (addToArgs_extended "--allowlisted-extension-id=" (Some extensionId) a2)
    as [E3 _].
  destruct (addToArgs_extended "--autoplay-policy=no-user-gesture-required" None a3)
    as [E4 _].
  fold a1 in F1. fold a2 in F2, E2. fold a3 in F3, E3. fold a4 in E4.
  split_and!.
  - eapply has_flag_extended; [exact E4|].
    eapply has_flag_extended; [exact E3|].
    eapply has_flag_extended; [exact E2|exact F1].
  - eapply has_flag_extended; [exact E4|].
    eapply has_flag_extended; [exact E3|exact F2].
  - eapply has_flag_extended; [exact E4|exact F3].
  - apply addToArgs_bare.
Qed.

End LaunchPrepared.

Section LaunchAgain.

Import Launch.

Variable path : string.
Hypothesis path_given : path <> "".

Lemma has_flag_entry (a b : string) (l : list string) :
  has_flag a b l -> exists x, x ∈ l /\ includes x a = true.
Proof. intros (x & Hx & A & _). eauto. Qed.

(** On an array that has the four flags already, the four calls of
    [addToArgs] add no entry, and the flags are still there. *)
Lemma flags_again (l : list string) :
  has_flag "--load-extension=" path l ->
  has_flag "--disable-extensions-except=" path l ->
  has_flag "--allowlisted-extension-id=" extensionId l ->
  "--autoplay-policy=no-user-gesture-required" ∈ l ->
  length
    (addToArgs "--autoplay-policy=no-user-gesture-required" None
       (addToArgs "--allowlisted-extension-id=" (Some extensionId)
          (addToArgs "--disable-extensions-except=" (Some path)
             (addToArgs "--load-extension=" (Some path) l))))
  = length l.
Proof.
  intros F1 F2 F3 F4.
  set (a1 := addToArgs "--load-extension=" (Some path) l).
  set (a2 := addToArgs "--disable-extensions-except=" (Some path) a1).
  set (a3 := addToArgs "--allowlisted-extension-id=" (Some extensionId) a2).
  destruct (addToArgs_extended "--load-extension=" (Some path) l) as [E1 _].
  destruct (addToArgs_extended "--disable-extensions-except=" (Some path) a1)
    as [E2 _].
  fold a1 in E1. fold a2 in E2.
  assert (L1 : length a1 = length l).
  { unfold a1. rewrite (addToArgs_found _ _ _ path_given (has_flag_entry _ _ _ F1)).
    apply length_map. }
  assert (F2' : has_flag "--disable-extensions-except=" path a1)
    by (eapply has_flag_extended; [exact E1|exact F2]).
  assert (L2 : length a2 = length a1).
  { unfold a2. rewrite (addToArgs_found _ _ _ path_given (has_flag_entry _ _ _ F2')).
    apply length_map. }
  assert (F3' : has_flag "--allowlisted-extension-id=" extensionId a2).
  { eapply has_flag_extended; [exact E2|].
    eapply has_flag_extended; [exact E1|exact F3]. }
  assert (L3 : length a3 = length a2).
  { unfold a3.
    rewrite (addToArgs_found _ _ _ extensionId_given (has_flag_entry _ _ _ F3')).
    apply length_map. }
  assert (F4' : "--autoplay-policy=no-user-gesture-required" ∈ a3).
  { unfold a3, a2, a1.
    apply addToArgs_keeps; [reflexivity|].
    apply addToArgs_keeps; [reflexivity|].
    apply addToArgs_keeps; [reflexivity|exact F4]. }
  unfold addToArgs at 1. rewrite bool_decide_eq_true_2 by exact F4'.
  lia.
Qed.

End LaunchAgain.

(** X15.  [launch] keeps the arguments the caller gave: in the array it
    leaves in [opts.args] every one of them is still at its place, with at
    most something added at its end, and at most five entries have been
    added after them. *)
Theorem launch_keeps_the_callers_args
    (path : string) (viewport : option Launch.Viewport)
    (given : option (list string)) :
  (length (default [] given)
   <= length (Launch.prepare_args path viewport given)
   <= length (default [] given) + 5)%nat /\
  forall i x, default [] given !! i = Some x ->
    exists sfx, Launch.prepare_args path viewport given !! i = Some (x +:+ sfx).
Proof.
  unfold Launch.prepare_args.
  change (match given with Some l => l | None => [] end) with (default [] given).
  set (l := default [] given).
  set (a1 := Launch.addToArgs "--load-extension=" (Some path) l).
  set (a2 := Launch.addToArgs "--disable-extensions-except=" (Some path) a1).
  set (a3 := Launch.addToArgs "--allowlisted-extension-id="
               (Some Launch.extensionId) a2).
  set (a4 := Launch.addToArgs "--autoplay-policy=no-user-gesture-required" None a3).
  destruct (addToArgs_extended "--load-extension=" (Some path) l) as [E1 L1].
  destruct (addToArgs_extended "--disable-extensions-except=" (Some path) a1)
    as [E2 L2].
  destruct (addToArgs_extended "--allowlisted-extension-id="
              (Some Launch.extensionId) a2) as [E3 L3].
  destruct (addToArgs_extended "--autoplay-policy=no-user-gesture-required"
              None a3) as [E4 L4].
  fold a1 in E1, L1. fold a2 in E2, L2. fold a3 in E3, L3. fold a4 in E4, L4.
  assert (E : extended l a4).
  { eapply extended_trans; [exact E1|]. eapply extended_trans; [exact E2|].
    eapply extended_trans; [exact E3|exact E4]. }
  assert (G : forall t, (length t <= 1)%nat ->
                (length l <= length (a4 ++ t) <= length l + 5)%nat /\
                forall i x, l !! i = Some x ->
                  exists sfx, (a4 ++ t) !! i = Some (x +:+ sfx)).
  { intros t Ht.
    destruct (extended_trans _ _ _ E (extended_app a4 t)) as [Le Ex].
    split; [|exact Ex]. rewrite length_app in *. lia. }
  assert (G0 : (length l <= length a4 <= length l + 5)%nat /\
               forall i x, l !! i = Some x ->
                 exists sfx, a4 !! i = Some (x +:+ sfx)).
  { specialize (G [] ltac:(simpl; lia)). rewrite app_nil_r in G. exact G. }
  destruct viewport as [v|]; [|exact G0].
  destruct (negb (Launch.width v =? 0) && negb (Launch.height v =? 0));
    [|exact G0].
  apply G. simpl. lia.
Qed.

Lemma launch_keeps_the_callers_args_witness :
  exists sfx,
    Launch.prepare_args "/opt/ext" None
      (Some ["--no-sandbox"; "--load-extension=/opt/adblock"]) !! 1%nat
    = Some ("--load-extension=/opt/adblock" +:+ sfx).
Proof.
  exact (proj2 (launch_keeps_the_callers_args "/opt/ext" None
                  (Some ["--no-sandbox"; "--load-extension=/opt/adblock"]))
           1%nat "--load-extension=/opt/adblock" eq_refl).
Defined.

(** X16.  After [launch] the extension is asked for: given that the path of
    the extension is not empty, the array in [opts.args] has an entry with
    "--load-extension=" and the path in it, one with
    "--disable-extensions-except=" and the path, one with
    "--allowlisted-extension-id=" and the extension's id, and the entry
    "--autoplay-policy=no-user-gesture-required", whatever arguments the
    caller gave. *)
Theorem launch_asks_for_the_extension
    (path : string) (viewport : option Launch.Viewport)
    (given : option (list string)) :
  path <> "" ->
  has_flag "--load-extension=" path (Launch.prepare_args path viewport given) /\
  has_flag "--disable-extensions-except=" path
    (Launch.prepare_args path viewport given) /\
  has_flag "--allowlisted-extension-id=" Launch.extensionId
    (Launch.prepare_args path viewport given) /\
  "--autoplay-policy=no-user-gesture-required"
    ∈ Launch.prepare_args path viewport given.
Proof.
  intros Hp. unfold Launch.prepare_args.
  pose proof (flags_after path Hp (match given with Some l => l | None => [] end))
    as F. cbv zeta in F.
  set (a4 := Launch.addToArgs "--autoplay-policy=no-user-gesture-required" None _)
    in *.
  assert (G : forall t,
             has_flag "--load-extension=" path (a4 ++ t) /\
             has_flag "--disable-extensions-except=" path (a4 ++ t) /\
             has_flag "--allowlisted-extension-id=" Launch.extensionId (a4 ++ t) /\
             "--autoplay-policy=no-user-gesture-required" ∈ a4 ++ t).
  { intros t. destruct F as (F1 & F2 & F3 & F4).
    split_and!; try (eapply has_flag_extended; [apply extended_app|assumption]).
    apply elem_of_app. left. exact F4. }
  destruct viewport as [v|]; [|exact F].
  destruct (negb (Launch.width v =? 0) && negb (Launch.height v =? 0));
    [apply G|exact F].
Qed.

Lemma launch_asks_for_the_extension_witness :
  "--autoplay-policy=no-user-gesture-required"
    ∈ Launch.prepare_args "/opt/ext" None (Some ["--no-sandbox"]).
Proof.
  refine (proj2 (proj2 (proj2
            (launch_asks_for_the_extension "/opt/ext" None
               (Some ["--no-sandbox"]) _)))).
  discriminate.
Defined.

(** X17.  Launching again with the options object of an earlier launch adds
    none of the four flags a second time: given a non-empty extension path,
    the second pass over the array adds no entry but the window size, which
    is added again on every launch with a viewport; and every entry of the
    first launch is still at its place, with at most something added at
    its end (the extension's path and id are appended once more). *)
Theorem launch_again_repeats_no_flag
    (path : string) (viewport : option Launch.Viewport)
    (given : option (list string)) :
  path <> "" ->
  length (Launch.prepare_args path viewport
            (Some (Launch.prepare_args path viewport given)))
  = Nat.add (length (Launch.prepare_args path viewport given))
      (match viewport with
       | Some v =>
           if negb (Launch.width v =? 0) && negb (Launch.height v =? 0)
           then 1%nat else 0%nat
       | None => 0%nat
       end) /\
  forall i x, Launch.prepare_args path viewport given !! i = Some x ->
    exists sfx,
      Launch.prepare_args path viewport
        (Some (Launch.prepare_args path viewport given)) !! i
      = Some (x +:+ sfx).
Proof.
  intros Hp.
  assert (F : has_flag "--load-extension=" path
                (Launch.prepare_args path viewport given) /\
              has_flag "--disable-extensions-except=" path
                (Launch.prepare_args path viewport given) /\
              has_flag "--allowlisted-extension-id=" Launch.extensionId
                (Launch.prepare_args path viewport given) /\
              "--autoplay-policy=no-user-gesture-required"
                ∈ Launch.prepare_args path viewport given).
  { unfold Launch.prepare_args.
    pose proof (flags_after path Hp (match given with Some l => l | None => [] end))
      as F. cbv zeta in F. destruct F as (F1 & F2 & F3 & F4).
    set (a4 := Launch.addToArgs "--autoplay-policy=no-user-gesture-required" None _)
      in *.
    assert (G : forall t,
               has_flag "--load-extension=" path (a4 ++ t) /\
               has_flag "--disable-extensions-except=" path (a4 ++ t) /\
               has_flag "--allowlisted-extension-id=" Launch.extensionId (a4 ++ t) /\
               "--autoplay-policy=no-user-gesture-required" ∈ a4 ++ t).
    { intros t.
      split_and!; try (eapply has_flag_extended; [apply extended_app|assumption]).
      apply elem_of_app. left. exact F4. }
    destruct viewport as [v|]; [|auto].
    destruct (negb (Launch.width v =? 0) && negb (Launch.height v =? 0));
      [apply G|auto]. }
  destruct F as (F1 & F2 & F3 & F4).
  remember (Launch.prepare_args path viewport given) as l1 eqn:El1.
  pose proof (flags_again path Hp l1 F1 F2 F3 F4) as L.
  clear El1. split.
  - unfold Launch.prepare_args.
    destruct viewport as [v|]; [|rewrite L; lia].
    destruct (negb (Launch.width v =? 0) && negb (Launch.height v =? 0));
      [rewrite length_app, L; reflexivity|rewrite L; lia].
  - intros i x H.
    destruct (addToArgs_extended "--load-extension=" (Some path) l1) as [E1 _].
    set (a1 := Launch.addToArgs "--load-extension=" (Some path) l1) in *.
    destruct (addToArgs_extended "--disable-extensions-except=" (Some path) a1)
      as [E2 _].
    set (a2 := Launch.addToArgs "--disable-extensions-except=" (Some path) a1) in *.
    destruct (addToArgs_extended "--allowlisted-extension-id="
                (Some Launch.extensionId) a2) as [E3 _].
    set (a3 := Launch.addToArgs "--allowlisted-extension-id="
                 (Some Launch.extensionId) a2) in *.
    destruct (addToArgs_extended "--autoplay-policy=no-user-gesture-required"
                None a3) as [E4 _].
    set (a4 := Launch.addToArgs "--autoplay-policy=no-user-gesture-required"
                 None a3) in *.
    assert (E : extended l1 a4).
    { eapply extended_trans; [exact E1|]. eapply extended_trans; [exact E2|].
      eapply extended_trans; [exact E3|exact E4]. }
    assert (E' : forall t, extended l1 (a4 ++ t))
      by (intros t; eapply extended_trans; [exact E|apply extended_app]).
    unfold Launch.prepare_args. fold a1 a2 a3 a4.
    destruct viewport as [v|]; [|apply E; exact H].
    destruct (negb (Launch.width v =? 0) && negb (Launch.height v =? 0));
      [apply (E' [Launch.window_size v]); exact H|apply E; exact H].
Qed.

Lemma launch_again_repeats_no_flag_witness :
  length (Launch.prepare_args "/opt/ext" None
            (Some (Launch.prepare_args "/opt/ext" None (Some ["--no-sandbox"]))))
  = Nat.add (length (Launch.prepare_args "/opt/ext" None (Some ["--no-sandbox"])))
      0%nat.
Proof.
  refine (proj1 (launch_again_repeats_no_flag "/opt/ext" None
                   (Some ["--no-sandbox"]) _)).
  discriminate.
Defined.



Section LaunchCalls.

Import Launch.

Variable path : string.

(** A call whose options are an object of the caller's. *)
Lemma launch_on_object (env : Env) (arg1 : Arg1) (opts : option nat) (w : World)
    (r : nat) (o : StreamLaunchOptions) :
  target arg1 opts = Some r ->
  heap w !! r = Some o ->
  launch path env arg1 opts w
  = match launched env with
    | inl e =>
        (inl e,
         emit (ALaunch (launcher arg1) (prepare path o))
           {| heap := <[r := prepare path o]> (heap w); trace := trace w |})
    | inr browser =>
        match allowIncognito o with
        | Some true =>
            allow_incognito env browser
              (emit (ALaunch (launcher arg1) (prepare path o))
                 {| heap := <[r := prepare path o]> (heap w); trace := trace w |})
        | _ =>
            (inr browser,
             emit (ALaunch (launcher arg1) (prepare path o))
               {| heap := <[r := prepare path o]> (heap w); trace := trace w |})
        end
    end.
Proof.
  intros T H. destruct arg1 as [id|r0]; simpl in T.
  - subst opts. unfold launch. simpl. rewrite H. reflexivity.
  - inversion T; subst r0. unfold launch. simpl. rewrite H. reflexivity.
Qed.

(** Opening the settings page writes to no options object. *)
Lemma allow_incognito_frame (env : Env) (browser : nat) (w : World) :
  heap (allow_incognito env browser w).2 = heap w /\
  exists tr, trace (allow_incognito env browser w).2 = trace w ++ tr.
Proof.
  unfold allow_incognito, emit.
  destruct (newPage env); simpl; [eauto|].
  destruct (goto env); simpl; [rewrite <- app_assoc; eauto|].
  destruct (evaluate env); simpl; [rewrite <- !app_assoc; eauto|].
  destruct (close env); simpl; rewrite <- !app_assoc; eauto.
Qed.

End LaunchCalls.

(** X19.  [launch] rewrites the options object it is given in place, and
    hands the launcher that very object: afterwards, however the launch
    ends, the caller's object holds the extended arguments and
    [headless = false], whatever [headless] was, with its viewport, its
    [allowIncognito] and all its other properties as they were; no other
    options object is written; and the first thing asked of the browser is
    the launch with these options. *)
Theorem launch_rewrites_the_callers_options
    (path : string) (env : Launch.Env) (arg1 : Launch.Arg1) (opts : option nat)
    (w : Launch.World) (r : nat) (o : Launch.StreamLaunchOptions) :
  Launch.target arg1 opts = Some r ->
  Launch.heap w !! r = Some o ->
  Launch.heap (Launch.launch path env arg1 opts w).2 !! r
    = Some (Launch.prepare path o) /\
  Launch.args (Launch.prepare path o)
    = Some (Launch.prepare_args path (Launch.defaultViewport o) (Launch.args o)) /\
  Launch.headless (Launch.prepare path o) = Some Launch.headless_false /\
  Launch.defaultViewport (Launch.prepare path o) = Launch.defaultViewport o /\
  Launch.allowIncognito (Launch.prepare path o) = Launch.allowIncognito o /\
  Launch.others (Launch.prepare path o) = Launch.others o /\
  (forall other, other <> r ->
     Launch.heap (Launch.launch path env arg1 opts w).2 !! other
     = Launch.heap w !! other) /\
  exists tr,
    Launch.trace (Launch.launch path env arg1 opts w).2
    = Launch.trace w
      ++ Launch.ALaunch (Launch.launcher arg1) (Launch.prepare path o) :: tr.
Proof.
  intros T H. rewrite (launch_on_object path env arg1 opts w r o T H).
  set (w1 := Launch.emit _ _).
  assert (G : forall W,
             Launch.heap W = Launch.heap w1 ->
             (exists tr, Launch.trace W = Launch.trace w1 ++ tr) ->
             Launch.heap W !! r = Some (Launch.prepare path o) /\
             (forall other, other <> r ->
                Launch.heap W !! other = Launch.heap w !! other) /\
             exists tr, Launch.trace W
                        = Launch.trace w
                          ++ Launch.ALaunch (Launch.launcher arg1)
                               (Launch.prepare path o) :: tr).
  { intros W Eh (tr & Et). rewrite Eh, Et. unfold w1. simpl. split_and!.
    - apply lookup_insert_eq.
    - intros other Hne. apply lookup_insert_ne. congruence.
    - exists tr. rewrite <- app_assoc. reflexivity. }
  assert (G1 : exists tr, Launch.trace w1 = Launch.trace w1 ++ tr)
    by (exists []; rewrite app_nil_r; reflexivity).
  assert (R : forall W,
             Launch.heap W = Launch.heap w1 ->
             (exists tr, Launch.trace W = Launch.trace w1 ++ tr) ->
             Launch.heap W !! r = Some (Launch.prepare path o) /\
             Launch.args (Launch.prepare path o)
               = Some (Launch.prepare_args path (Launch.defaultViewport o)
                         (Launch.args o)) /\
             Launch.headless (Launch.prepare path o) = Some Launch.headless_false /\
             Launch.defaultViewport (Launch.prepare path o)
               = Launch.defaultViewport o /\
             Launch.allowIncognito (Launch.prepare path o)
               = Launch.allowIncognito o /\
             Launch.others (Launch.prepare path o) = Launch.others o /\
             (forall other, other <> r ->
                Launch.heap W !! other = Launch.heap w !! other) /\
             exists tr, Launch.trace W
                        = Launch.trace w
                          ++ Launch.ALaunch (Launch.launcher arg1)
                               (Launch.prepare path o) :: tr).
  { intros W Eh Et. destruct (G W Eh Et) as (A & B & C).
    split_and!; try reflexivity; assumption. }
  destruct (Launch.launched env) as [e|b].
  - apply (R w1); [reflexivity|exact G1].
  - destruct (Launch.allowIncognito o) as [[|]|];
      try (apply (R w1); [reflexivity|exact G1]).
    destruct (allow_incognito_frame env b w1) as [Eh Et].
    apply (R (Launch.allow_incognito env b w1).2); assumption.
Qed.

Lemma launch_rewrites_the_callers_options_witness :
  Launch.heap
    (Launch.launch "/opt/ext" Launch.obliging (Launch.Options 0) None
       {| Launch.heap := {[ 0%nat := Launch.sample_options ]};
          Launch.trace := [] |}).2 !! 0%nat
  = Some (Launch.prepare "/opt/ext" Launch.sample_options).
Proof.
  assert (H : Launch.heap
                {| Launch.heap := {[ 0%nat := Launch.sample_options ]};
                   Launch.trace := [] |} !! 0%nat
              = Some Launch.sample_options) by reflexivity.
  exact (proj1 (launch_rewrites_the_callers_options "/opt/ext" Launch.obliging
                  (Launch.Options 0) None _ 0 Launch.sample_options eq_refl H)).
Defined.

(** X20.  What [launch] takes for the options and for the launcher.  When
    the first argument is not a library, it is the options and the second
    argument is not looked at, and the bundled launcher is used.  When the
    first argument is a library, its own [launch] is used, on the second
    argument; without a second argument the library is given a new object,
    [{}] as rewritten by [launch], no object of the caller's is written and
    no settings page is opened. *)
Theorem launch_takes_the_first_argument_for_options
    (path : string) (env : Launch.Env) (opts : option nat) (w : Launch.World) :
  (forall r,
     Launch.launch path env (Launch.Options r) opts w
     = Launch.launch path env (Launch.Options r) None w) /\
  (forall r o, Launch.heap w !! r = Some o ->
     exists tr,
       Launch.trace (Launch.launch path env (Launch.Options r) opts w).2
       = Launch.trace w ++ Launch.ALaunch None (Launch.prepare path o) :: tr) /\
  (forall id r o, Launch.heap w !! r = Some o ->
     exists tr,
       Launch.trace (Launch.launch path env (Launch.Library id) (Some r) w).2
       = Launch.trace w ++ Launch.ALaunch (Some id) (Launch.prepare path o) :: tr) /\
  (forall id,
     Launch.launch path env (Launch.Library id) None w
     = (Launch.launched env,
        {| Launch.heap := Launch.heap w;
           Launch.trace :=
             Launch.trace w
             ++ [Launch.ALaunch (Some id)
                   (Launch.prepare path Launch.no_options)] |})).
Proof.
  assert (G : forall arg1 o0 r o, Launch.target arg1 o0 = Some r ->
             Launch.heap w !! r = Some o ->
             exists tr,
               Launch.trace (Launch.launch path env arg1 o0 w).2
               = Launch.trace w
                 ++ Launch.ALaunch (Launch.launcher arg1) (Launch.prepare path o)
                    :: tr).
  { intros arg1 o0 r o T H.
    rewrite (launch_on_object path env arg1 o0 w r o T H).
    set (w1 := Launch.emit _ _).
    assert (B : forall W, (exists tr, Launch.trace W = Launch.trace w1 ++ tr) ->
                exists tr, Launch.trace W
                           = Launch.trace w
                             ++ Launch.ALaunch (Launch.launcher arg1)
                                  (Launch.prepare path o) :: tr).
    { intros W (tr & Et). exists tr. rewrite Et. unfold w1. simpl.
      rewrite <- app_assoc. reflexivity. }
    assert (B1 : exists tr, Launch.trace w1 = Launch.trace w1 ++ tr)
      by (exists []; rewrite app_nil_r; reflexivity).
    destruct (Launch.launched env) as [e|b]; [apply (B w1), B1|].
    destruct (Launch.allowIncognito o) as [[|]|]; try (apply (B w1), B1).
    apply (B (Launch.allow_incognito env b w1).2).
    apply allow_incognito_frame. }
  split_and!.
  - intros r. reflexivity.
  - intros r o H. apply (G (Launch.Options r) opts r o eq_refl H).
  - intros id r o H. apply (G (Launch.Library id) (Some r) r o eq_refl H).
  - intros id. unfold Launch.launch. simpl.
    destruct (Launch.launched env); reflexivity.
Qed.

Lemma launch_takes_the_first_argument_for_options_witness :
  exists tr,
    Launch.trace
      (Launch.launch "/opt/ext" Launch.obliging (Launch.Library 7) (Some 0%nat)
         {| Launch.heap := {[ 0%nat := Launch.sample_options ]};
            Launch.trace := [] |}).2
    = Launch.ALaunch (Some 7%nat) (Launch.prepare "/opt/ext" Launch.sample_options)
      :: tr.
Proof.
  assert (H : Launch.heap
                {| Launch.heap := {[ 0%nat := Launch.sample_options ]};
                   Launch.trace := [] |} !! 0%nat
              = Some Launch.sample_options) by reflexivity.
  destruct (launch_takes_the_first_argument_for_options "/opt/ext"
              Launch.obliging (Some 0%nat)
              {| Launch.heap := {[ 0%nat := Launch.sample_options ]};
                 Launch.trace := [] |}) as (_ & _ & L & _).
  exact (L 7%nat 0%nat Launch.sample_options H).
Defined.

(** X21.  How [launch] fails.  When the launcher rejects, [launch] rejects
    with its error and nothing more is asked of the browser, also with
    [allowIncognito]; the options have been rewritten all the same.  When
    the browser has started and, with [allowIncognito], going to the
    settings page rejects, [launch] rejects with that error although the
    browser runs, and the settings page it opened is not closed. *)
Theorem launch_failures
    (path : string) (env : Launch.Env) (arg1 : Launch.Arg1) (opts : option nat)
    (w : Launch.World) (r : nat) (o : Launch.StreamLaunchOptions) :
  Launch.target arg1 opts = Some r ->
  Launch.heap w !! r = Some o ->
  (forall e, Launch.launched env = inl e ->
     Launch.launch path env arg1 opts w
     = (inl e,
        {| Launch.heap := <[r := Launch.prepare path o]> (Launch.heap w);
           Launch.trace :=
             Launch.trace w
             ++ [Launch.ALaunch (Launch.launcher arg1) (Launch.prepare path o)] |})) /\
  (forall b e, Launch.launched env = inr b ->
     Launch.allowIncognito o = Some true ->
     Launch.newPage env = inr tt ->
     Launch.goto env = inl e ->
     Launch.launch path env arg1 opts w
     = (inl e,
        {| Launch.heap := <[r := Launch.prepare path o]> (Launch.heap w);
           Launch.trace :=
             Launch.trace w
             ++ [Launch.ALaunch (Launch.launcher arg1) (Launch.prepare path o);
                 Launch.ANewPage;
                 Launch.AGoto
                   "chrome://extensions/?id=jjndjgheafjngoipoacpjgeicjeomjli"] |})).
Proof.
  intros T H. split.
  - intros e L. rewrite (launch_on_object path env arg1 opts w r o T H), L.
    reflexivity.
  - intros b e L A N G.
    rewrite (launch_on_object path env arg1 opts w r o T H), L, A.
    unfold Launch.allow_incognito. rewrite N, G. unfold Launch.emit. simpl.
    rewrite <- !app_assoc. reflexivity.
Qed.

Lemma launch_failures_witness :
  Launch.launch "/opt/ext"
    {| Launch.launched := inl (JsError "Failed to launch the browser process");
       Launch.newPage := inr tt; Launch.goto := inr tt;
       Launch.evaluate := inr tt; Launch.close := inr tt |}
    (Launch.Options 0) None
    {| Launch.heap := {[ 0%nat := Launch.sample_options ]}; Launch.trace := [] |}
  = (inl (JsError "Failed to launch the browser process"),
     {| Launch.heap :=
          <[ 0%nat := Launch.prepare "/opt/ext" Launch.sample_options ]>
            {[ 0%nat := Launch.sample_options ]};
        Launch.trace :=
          [Launch.ALaunch None (Launch.prepare "/opt/ext" Launch.sample_options)] |}).
Proof.
  assert (H : Launch.heap
                {| Launch.heap := {[ 0%nat := Launch.sample_options ]};
                   Launch.trace := [] |} !! 0%nat
              = Some Launch.sample_options) by reflexivity.
  exact (proj1 (launch_failures "/opt/ext"
                  {| Launch.launched :=
                       inl (JsError "Failed to launch the browser process");
                     Launch.newPage := inr tt; Launch.goto := inr tt;
                     Launch.evaluate := inr tt; Launch.close := inr tt |}
                  (Launch.Options 0) None _ 0 Launch.sample_options eq_refl H)
           _ eq_refl).
Defined.

(** X22.  How [launch] succeeds.  With the browser started and
    [allowIncognito] not true, [launch] returns the browser and has asked
    for the launch only.  With [allowIncognito] true and every step
    resolving, it returns the browser after opening a page, going to the
    extension's entry of chrome://extensions, clicking the incognito toggle
    and closing the page, in this order. *)
Theorem launch_successes
    (path : string) (env : Launch.Env) (arg1 : Launch.Arg1) (opts : option nat)
    (w : Launch.World) (r : nat) (o : Launch.StreamLaunchOptions) (b : nat) :
  Launch.target arg1 opts = Some r ->
  Launch.heap w !! r = Some o ->
  Launch.launched env = inr b ->
  (Launch.allowIncognito o <> Some true ->
     Launch.launch path env arg1 opts w
     = (inr b,
        {| Launch.heap := <[r := Launch.prepare path o]> (Launch.heap w);
           Launch.trace :=
             Launch.trace w
             ++ [Launch.ALaunch (Launch.launcher arg1) (Launch.prepare path o)] |})) /\
  (Launch.allowIncognito o = Some true ->
   Launch.newPage env = inr tt ->
   Launch.goto env = inr tt ->
   Launch.evaluate env = inr tt ->
   Launch.close env = inr tt ->
     Launch.launch path env arg1 opts w
     = (inr b,
        {| Launch.heap := <[r := Launch.prepare path o]> (Launch.heap w);
           Launch.trace :=
             Launch.trace w
             ++ [Launch.ALaunch (Launch.launcher arg1) (Launch.prepare path o);
                 Launch.ANewPage;
                 Launch.AGoto
                   "chrome://extensions/?id=jjndjgheafjngoipoacpjgeicjeomjli";
                 Launch.AClick;
                 Launch.AClose] |})).
Proof.
  intros T H L. split.
  - intros A. rewrite (launch_on_object path env arg1 opts w r o T H), L.
    destruct (Launch.allowIncognito o) as [[|]|]; [contradiction| |]; reflexivity.
  - intros A N G E C.
    rewrite (launch_on_object path env arg1 opts w r o T H), L, A.
    unfold Launch.allow_incognito. rewrite N, G, E, C. unfold Launch.emit. simpl.
    rewrite <- !app_assoc. reflexivity.
Qed.

Lemma launch_successes_witness :
  Launch.trace
    (Launch.launch "/opt/ext" Launch.obliging (Launch.Options 0) None
       {| Launch.heap := {[ 0%nat := Launch.sample_options ]};
          Launch.trace := [] |}).2
  = [Launch.ALaunch None (Launch.prepare "/opt/ext" Launch.sample_options);
     Launch.ANewPage;
     Launch.AGoto "chrome://extensions/?id=jjndjgheafjngoipoacpjgeicjeomjli";
     Launch.AClick;
     Launch.AClose].
Proof.
  assert (H : Launch.heap
                {| Launch.heap := {[ 0%nat := Launch.sample_options ]};
                   Launch.trace := [] |} !! 0%nat
              = Some Launch.sample_options) by reflexivity.
  rewrite (proj2 (launch_successes "/opt/ext" Launch.obliging (Launch.Options 0)
                    None _ 0 Launch.sample_options 1 eq_refl H eq_refl)
             eq_refl eq_refl eq_refl eq_refl eq_refl).
  reflexivity.
Defined.

Section SessionIndices.

Import Session.

Lemma indexed_boot (h : gmap nat getStreamOptions) : indexed (boot h).
Proof.
  split.
  - intros i s H. simpl in H. rewrite lookup_nil in H. discriminate.
  - intros i j si sj ki kj _ H. simpl in H. rewrite lookup_nil in H. discriminate.
Qed.

Lemma indexed_same (w w' : World) :
  streams w' = streams w -> currentIndex w <= currentIndex w' ->
  indexed w -> indexed w'.
Proof.
  intros S C [A B]. split.
  - intros i s H. rewrite S in H. destruct (A i s H) as (k & K & L).
    exists k. split; [exact K|lia].
  - intros i j si sj ki kj Hij Hi Hj. rewrite S in Hi, Hj. eauto.
Qed.

Lemma indexed_allocate (opts : nat) (w : World) :
  indexed w -> indexed (allocate opts w).2.
Proof.
  intros I. destruct (allocate opts w) as [[e|a] w'] eqn:A.
  - simpl. apply (indexed_same w); [| |exact I].
    + revert A. unfold allocate, bind, deref, next_index, construct, ret.
      destruct (heap w !! opts) as [o|]; simpl;
        [|intros E; inversion E; reflexivity].
      destruct (Bridge.new _ _) as [err|[s ps]]; simpl; intros E; inversion E;
        reflexivity.
    + pose proof (allocate_counter opts w) as C. rewrite A in C. exact C.
  - simpl. destruct I as [IA IB].
    destruct (allocate_ok _ _ _ _ A)
      as (Ia & Ci & _ & _ & _ & _ & _ & s & Ss & _ & Od & _).
    rewrite Ia in Od. split.
    + intros i x H. rewrite Ss in H. apply lookup_app_Some in H as [H|[_ H]].
      * destruct (IA i x H) as (k & K & L). exists k. split; [exact K|lia].
      * apply list_lookup_singleton_Some in H as [_ <-].
        exists (currentIndex w). split; [exact Od|lia].
    + intros i j si sj ki kj Hij Hi Hj Ki Kj. rewrite Ss in Hi, Hj.
      apply lookup_app_Some in Hj as [Hj|[Lj Hj]].
      * assert (Hi' : streams w !! i = Some si).
        { apply lookup_app_Some in Hi as [Hi|[Li _]]; [exact Hi|].
          apply lookup_lt_Some in Hj. lia. }
        eauto.
      * apply list_lookup_singleton_Some in Hj as [Ej <-].
        assert (Hi' : streams w !! i = Some si).
        { apply lookup_app_Some in Hi as [Hi|[Li _]]; [exact Hi|]. lia. }
        destruct (IA i si Hi') as (k & K & L).
        rewrite Od in Kj. inversion Kj; subst. rewrite Ki in K.
        inversion K; subst. exact L.
Qed.

Lemma indexed_segment (sg : Segment) (w : World) :
  indexed w -> indexed (segment sg w).2.
Proof.
  intros I. destruct sg as [opts|opts|tr|env opts i|opts o]; simpl.
  - destruct (prologue_frame opts w) as (C & S & _).
    apply (indexed_same w); [exact S|lia|exact I].
  - pose proof (indexed_allocate opts w I) as A.
    destruct (allocate opts w) as [[e|a] w']; exact A.
  - apply (indexed_same w); [reflexivity|simpl; lia|exact I].
  - destruct (start_frame env opts i w) as (C & _ & S & _).
    apply (indexed_same w); [exact S|lia|exact I].
  - apply (indexed_same w); [reflexivity|simpl; lia|exact I].
Qed.

Lemma indexed_schedule (sgs : list Segment) (w : World) :
  indexed w -> indexed (schedule sgs w).2.
Proof.
  revert w; induction sgs as [|sg sgs IH]; intros w I; [exact I|].
  rewrite schedule_cons. simpl. apply IH, indexed_segment, I.
Qed.

End SessionIndices.

(** X23.  No two streams of a process stop the same recording.  In a
    process that has done nothing but calls of [getStream], interleaved in
    any way, every stream has a destroy callback, it stops an index the
    counter has passed, and two different streams stop different indices:
    destroying one session never stops another. *)
Theorem streams_stop_their_own_session
    (h : gmap nat getStreamOptions) (sgs : list Session.Segment) :
  (forall i s,
     Session.streams (Session.schedule sgs (Session.boot h)).2 !! i = Some s ->
     exists k, Bridge.onDestroy (Bridge.opts s) = Some k /\
               k < Session.currentIndex (Session.schedule sgs (Session.boot h)).2) /\
  (forall i j si sj, i <> j ->
     Session.streams (Session.schedule sgs (Session.boot h)).2 !! i = Some si ->
     Session.streams (Session.schedule sgs (Session.boot h)).2 !! j = Some sj ->
     Bridge.destroy_call si <> Bridge.destroy_call sj).
Proof.
  destruct (indexed_schedule sgs (Session.boot h) (indexed_boot h)) as [A B].
  split; [exact A|].
  intros i j si sj Hij Hi Hj.
  destruct (A i si Hi) as (ki & Ki & _). destruct (A j sj Hj) as (kj & Kj & _).
  unfold Bridge.destroy_call. rewrite Ki, Kj. intros E. inversion E as [E'].
  destruct (Nat.lt_total i j) as [L|[L|L]]; [|contradiction|].
  - pose proof (B i j si sj ki kj L Hi Hj Ki Kj). lia.
  - pose proof (B j i sj si kj ki L Hj Hi Kj Ki). lia.
Qed.

Lemma streams_stop_their_own_session_witness :
  map Bridge.destroy_call
    (Session.streams
       (Session.schedule
          [Session.SPrologue 0; Session.SPrologue 1;
           Session.SAllocate 1; Session.SAllocate 0]
          (Session.boot (<[ 0%nat := Session.video_only ]>
                           {[ 1%nat := Session.video_only ]}))).2)
  = [[EStop 0]; [EStop 1]] /\
  [EStop 0] <> [EStop 1].
Proof.
  split; [reflexivity|].
  destruct (streams_stop_their_own_session
              (<[ 0%nat := Session.video_only ]> {[ 1%nat := Session.video_only ]})
              [Session.SPrologue 0; Session.SPrologue 1;
               Session.SAllocate 1; Session.SAllocate 0]) as [_ D].
  exact (D 0%nat 1%nat _ _ (Nat.neq_0_succ 0) eq_refl eq_refl).
Defined.
